(** * BananaStore: the WebSocket manager of [static/app.js]

    A shallow embedding of the connection manager ([wsConnect]) and the
    request multiplexer ([wsSend]) of the widget, lines 91-183 of
    [src/static/app.js], and of the one call site that overrides the
    default timeout ([generateImage]).  Further parts, each with its own
    heading, embed the reference gallery and the lightbox, the functions
    that make file names, and the component of
    [src/app/components/bananastore.js] that prepares the document.

    The browser is single threaded: every handler runs to completion
    before the next event is delivered, and promise reactions (microtasks)
    run before the next event.  The embedding is therefore a deterministic
    function [step] from a state and an event to the next state; the
    events are the calls made by the surrounding UI code, the events a
    WebSocket delivers, and timers firing.

    Numbers: [_wsReqId], [_wsReconnectDelay] and the timeouts are JavaScript
    Numbers holding non-negative integers; on such values [+ 1], [* 2],
    [Math.min] and [Math.round (t / 1000)] are exact (below 2^53), and they
    are modelled on [nat] (the counter) and [N] (milliseconds).

    Left out: exceptions ([new WebSocket] on a malformed URL,
    [JSON.stringify] on a cyclic payload, [JSON.parse] on a frame that is
    not JSON, which leaves the state as it was), and the timing of timers:
    an armed timer may fire at any moment. *)

From stdpp Require Import base numbers strings list pretty.

Local Open Scope string_scope.
Local Open Scope N_scope.
Local Open Scope list_scope.

#[local] Set Warnings "-register-all,-clear-no-such-hyp".

(** ** JavaScript values, as [JSON.parse] produces them *)

(** Numbers are the integral ones (codes, counts); an object is the list
    of its own properties. *)
Inductive JsVal : Type :=
| JUndefined
| JNull
| JBool (b : bool)
| JNum (n : Z)
| JStr (s : string)
| JArr (elems : list JsVal)
| JObj (fields : list (string * JsVal)).

(** ToBoolean: [undefined], [null], [false], [0] and the empty string are
    falsy, everything else (objects and arrays included) is truthy. *)
Definition truthy (v : JsVal) : bool :=
  match v with
  | JUndefined | JNull => false
  | JBool b => b
  | JNum n => negb (n =? 0)%Z
  | JStr s => negb (String.eqb s "")
  | JArr _ | JObj _ => true
  end.

(** [a || b] *)
Definition js_or (a b : JsVal) : JsVal := if truthy a then a else b.

(** *** Number::toString on the integral Numbers

    A [JNum n] stands for the Number that [JSON.parse] makes of the
    integer literal [n], the nearest one.  Up to 2^53 that is [n] itself
    and the string is its decimal; beyond, the string has the fewest
    digits that are read back as the same Number, followed by zeros
    below 10^21 and in exponent form from there on. *)

(** The Number nearest to a positive integer: 53 significant bits, ties
    to the even significand.  The result is the significand [m] and the
    exponent [sh], the Number being [m * 2^sh]; below 2^53 every integer
    is a Number. *)
Definition nearest_Number (v : Z) : Z * Z :=
  let sh := (Z.log2 v - 52)%Z in
  if (sh <=? 0)%Z then (v, 0%Z)
  else
    let q := (v / 2 ^ sh)%Z in
    let r := (v mod 2 ^ sh)%Z in
    let half := (2 ^ (sh - 1))%Z in
    let m := if (half <? r)%Z || ((r =? half)%Z && Z.odd q) then (q + 1)%Z
             else q in
    if (m =? 2 ^ 53)%Z then (2 ^ 52, sh + 1)%Z else (m, sh).

(** Whether the integer [y] is read back as the Number [m * 2^sh],
    [sh > 0]: it lies no further than half way to either neighbour, the
    half-way points counting for an even significand only. *)
Definition reads_back (m sh y : Z) : bool :=
  let x := (m * 2 ^ sh)%Z in
  let below := if (m =? 2 ^ 52)%Z then (2 ^ (sh - 1))%Z else (2 ^ sh)%Z in
  let lo := (2 * x - below)%Z in
  let hi := (2 * x + 2 ^ sh)%Z in
  if Z.even m then (lo <=? 2 * y)%Z && (2 * y <=? hi)%Z
  else (lo <? 2 * y)%Z && (2 * y <? hi)%Z.

(** The decimal with the fewest significant digits that is read back as
    the Number [x = m * 2^sh], the closest one if there are two: with [k]
    digits tried, the candidates are [x] rounded down and up to a
    multiple of [10^(n-k)], [n] being the number of digits of [x]. *)
Fixpoint shortest_decimal (fuel : nat) (m sh x n k : Z) : Z :=
  match fuel with
  | O => x
  | S fuel' =>
      let p := (10 ^ (n - k))%Z in
      let down := (x / p * p)%Z in
      let up := (down + p)%Z in
      match reads_back m sh down, reads_back m sh up with
      | true, true => if (x - down <=? up - x)%Z then down else up
      | true, false => down
      | false, true => up
      | false, false => shortest_decimal fuel' m sh x n (k + 1)%Z
      end
  end.

Fixpoint strip_zeros (fuel : nat) (y : Z) : Z :=
  match fuel with
  | O => y
  | S fuel' => if (y mod 10 =? 0)%Z then strip_zeros fuel' (y / 10)%Z else y
  end.

(** Number::toString of a positive integer, through the Number nearest
    to it. *)
Definition Number_toString_pos (v : Z) : string :=
  let '(m, sh) := nearest_Number v in
  let x := (m * 2 ^ sh)%Z in
  if (2 ^ 1024 <=? x)%Z then "Infinity"
  else
    let n := Z.of_nat (String.length (pretty x)) in
    let y := if (sh =? 0)%Z then x
             else shortest_decimal (Z.to_nat n) m sh x n 1 in
    let digits := pretty y in
    let n' := Z.of_nat (String.length digits) in
    if (n' <=? 21)%Z then digits
    else
      let s := pretty (strip_zeros (String.length digits) y) in
      match s with
      | String d EmptyString => String d ("e+" +:+ pretty (n' - 1)%Z)
      | String d rest => String d ("." +:+ rest +:+ "e+" +:+ pretty (n' - 1)%Z)
      | EmptyString => s
      end.

Definition Number_toString (n : Z) : string :=
  match n with
  | Z0 => "0"
  | Zpos _ => Number_toString_pos n
  | Zneg p => "-" +:+ Number_toString_pos (Zpos p)
  end.

(** ToString, as used by template literals, [new Error(v)] and
    [sessionStorage.setItem]. *)
Fixpoint ToString (v : JsVal) : string :=
  match v with
  | JUndefined => "undefined"
  | JNull => "null"
  | JBool true => "true"
  | JBool false => "false"
  | JNum n => Number_toString n
  | JStr s => s
  | JArr l =>
      (fix join (l : list JsVal) : string :=
         match l with
         | [] => ""
         | x :: r =>
             let sx := match x with
                       | JUndefined | JNull => ""
                       | _ => ToString x
                       end in
             match r with
             | [] => sx
             | _ :: _ => sx +:+ "," +:+ join r
             end
         end) l
  | JObj _ => "[object Object]"
  end.

Fixpoint assoc {V : Type} (k : string) (m : list (string * V)) : option V :=
  match m with
  | [] => None
  | (k', v) :: r => if decide (k' = k) then Some v else assoc k r
  end.

(** [v.k] for the property names the handlers read.  [None] is the
    TypeError of reading a property of [null] or [undefined]; a missing
    property reads as [undefined]. *)
Definition prop (v : JsVal) (k : string) : option JsVal :=
  match v with
  | JUndefined | JNull => None
  | JObj fields => Some (default JUndefined (assoc k fields))
  | _ => Some JUndefined
  end.

(** [v.k] where [v] is known to be an object. *)
Definition field (v : JsVal) (k : string) : JsVal :=
  default JUndefined (prop v k).

(** [v === s] for a string literal [s] *)
Definition is_str (v : JsVal) (s : string) : bool :=
  match v with
  | JStr s' => bool_decide (s' = s)
  | _ => false
  end.

(** [v !== undefined] *)
Definition defined (v : JsVal) : bool :=
  match v with
  | JUndefined => false
  | _ => true
  end.

(** An [Error] object with the extra properties the message handler may
    set on it; [None] is a property that was never assigned. *)
Record JsError : Type := mkError {
  message : string;
  code : option JsVal;
  limit : option JsVal;
  current : option JsVal;
  attempted : option JsVal
}.

(** [new Error(msg)] *)
Definition Error (msg : string) : JsError :=
  mkError msg None None None None.

(** ** The JavaScript [Map], in insertion order *)

Section JsMap.
Context {V : Type}.

Definition Map_get (k : string) (m : list (string * V)) : option V :=
  assoc k m.

Fixpoint Map_set (k : string) (v : V) (m : list (string * V))
  : list (string * V) :=
  match m with
  | [] => [(k, v)]
  | (k', v') :: r =>
      if decide (k' = k) then (k', v) :: r else (k', v') :: Map_set k v r
  end.

Fixpoint Map_delete (k : string) (m : list (string * V))
  : list (string * V) :=
  match m with
  | [] => []
  | (k', v') :: r =>
      if decide (k' = k) then r else (k', v') :: Map_delete k r
  end.

Definition Map_keys (m : list (string * V)) : list string := m.*1.
End JsMap.

(** ** Program state *)

Inductive ReadyState := CONNECTING | OPEN | CLOSING | CLOSED.

Global Instance ReadyState_eq_dec : EqDecision ReadyState.
Proof. solve_decision. Defined.

(** The object passed to [JSON.stringify] in [ready]. *)
Record Frame : Type := mkFrame {
  f_id : string;
  f_action : JsVal;
  f_payload : JsVal
}.

(** A [WebSocket] object.  [ws_resolve] is the [resolve] its message
    handler closes over: the index of the promise of the [wsConnect]
    invocation that created the socket. *)
Record WebSocket : Type := mkSocket {
  url : string;
  readyState : ReadyState;
  ws_resolve : nat;
  ws_sent : list Frame
}.

Inductive Settlement :=
| Fulfilled (v : JsVal)
| Rejected (e : JsError).

(** The state of a promise that is resolved without a value. *)
Inductive PromiseState :=
| PPending
| PFulfilled
| PRejected (reason : JsError).

(** The promise of one [wsConnect] invocation.  [c_then] is the [ready]
    closure chained on it by the [wsSend] that made the invocation (the
    index of that [wsSend]'s promise); every [wsConnect] promise gets at
    most one reaction. *)
Record ConnectPromise : Type := mkConnect {
  c_state : PromiseState;
  c_then : option nat
}.

(** The place in the source that called [resolve] or [reject]. *)
Inductive Cause :=
| BySuccess        (* message handler, [msg.ok] truthy *)
| ByFailure        (* message handler, [msg.ok] falsy *)
| ByTimeout        (* the request timer *)
| ByClose          (* close handler *)
| ByNotConnected   (* guard at the head of [ready] *)
| ByCatch.         (* [.catch(reject)] on the [wsConnect] promise *)

Global Instance Cause_eq_dec : EqDecision Cause.
Proof. solve_decision. Defined.

(** The promise of one [wsSend] invocation together with the arguments
    its closures capture.  [s_calls] lists every call of the promise's
    [resolve] or [reject], oldest first; a promise is settled by the first
    call and ignores the later ones. *)
Record SendPromise : Type := mkSend {
  s_action : JsVal;
  s_payload : JsVal;
  s_timeoutMs : N;
  s_calls : list (Cause * Settlement)
}.

Definition settlement (sp : SendPromise) : option Settlement :=
  snd <$> head (s_calls sp).

(** An entry of [_wsPending]: its [resolve]/[reject] closures capture the
    timer and the outer promise. *)
Record PendingEntry : Type := mkPending {
  p_send : nat;
  p_timer : nat
}.

Inductive Task :=
| Reconnect
| RequestTimeout (id : string) (send : nat).

(** Every [setTimeout] call, in call order; the index is the timer id.
    [t_armed] is cleared by [clearTimeout] and when the timer fires. *)
Record Timer : Type := mkTimer {
  t_task : Task;
  t_delay : N;
  t_armed : bool
}.

(** What the handlers read from the hosting page. *)
Record Page : Type := mkPage {
  location_protocol : string;
  location_host : string;
  (** [content] of [<meta name="bs-token">], [None] without the element *)
  meta_bs_token : option string
}.

(** The variables of lines 94-99 and what the handlers reach of the
    browser.  [_wsReady] (line 95) is declared and never assigned or read,
    and has no field. *)
Record State : Type := mkState {
  _ws : option nat;
  _wsToken : JsVal;
  _wsPending : list (string * PendingEntry);
  _wsReqId : nat;
  _wsReconnectDelay : N;
  (** every [WebSocket] constructed so far, in construction order *)
  sockets : list WebSocket;
  (** every [wsConnect] invocation so far *)
  connects : list ConnectPromise;
  (** every [wsSend] invocation so far *)
  sends : list SendPromise;
  timers : list Timer;
  page : Page;
  (** [sessionStorage.getItem('bs-token')] *)
  storage_bs_token : option string
}.

Definition GENERATION_TIMEOUT_MS : N := 120000.
Definition WS_MAX_RECONNECT_DELAY : N := 16000.
(** The default of the parameter [timeoutMs] of [wsSend] (line 161) *)
Definition DEFAULT_TIMEOUT_MS : N := 30000.

Definition init (pg : Page) (stored : option string) : State :=
  {| _ws := None; _wsToken := JNull; _wsPending := []; _wsReqId := 0%nat;
     _wsReconnectDelay := 500; sockets := []; connects := []; sends := [];
     timers := []; page := pg; storage_bs_token := stored |}.

(** Field updates. *)
Definition set_ws (v : option nat) (st : State) : State :=
  {| _ws := v; _wsToken := _wsToken st; _wsPending := _wsPending st;
     _wsReqId := _wsReqId st; _wsReconnectDelay := _wsReconnectDelay st;
     sockets := sockets st; connects := connects st; sends := sends st;
     timers := timers st; page := page st;
     storage_bs_token := storage_bs_token st |}.

Definition set_wsToken (v : JsVal) (st : State) : State :=
  {| _ws := _ws st; _wsToken := v; _wsPending := _wsPending st;
     _wsReqId := _wsReqId st; _wsReconnectDelay := _wsReconnectDelay st;
     sockets := sockets st; connects := connects st; sends := sends st;
     timers := timers st; page := page st;
     storage_bs_token := storage_bs_token st |}.

Definition set_wsPending (v : list (string * PendingEntry)) (st : State)
  : State :=
  {| _ws := _ws st; _wsToken := _wsToken st; _wsPending := v;
     _wsReqId := _wsReqId st; _wsReconnectDelay := _wsReconnectDelay st;
     sockets := sockets st; connects := connects st; sends := sends st;
     timers := timers st; page := page st;
     storage_bs_token := storage_bs_token st |}.

Definition set_wsReqId (v : nat) (st : State) : State :=
  {| _ws := _ws st; _wsToken := _wsToken st; _wsPending := _wsPending st;
     _wsReqId := v; _wsReconnectDelay := _wsReconnectDelay st;
     sockets := sockets st; connects := connects st; sends := sends st;
     timers := timers st; page := page st;
     storage_bs_token := storage_bs_token st |}.

Definition set_wsReconnectDelay (v : N) (st : State) : State :=
  {| _ws := _ws st; _wsToken := _wsToken st; _wsPending := _wsPending st;
     _wsReqId := _wsReqId st; _wsReconnectDelay := v;
     sockets := sockets st; connects := connects st; sends := sends st;
     timers := timers st; page := page st;
     storage_bs_token := storage_bs_token st |}.

Definition set_sockets (v : list WebSocket) (st : State) : State :=
  {| _ws := _ws st; _wsToken := _wsToken st; _wsPending := _wsPending st;
     _wsReqId := _wsReqId st; _wsReconnectDelay := _wsReconnectDelay st;
     sockets := v; connects := connects st; sends := sends st;
     timers := timers st; page := page st;
     storage_bs_token := storage_bs_token st |}.

Definition set_connects (v : list ConnectPromise) (st : State) : State :=
  {| _ws := _ws st; _wsToken := _wsToken st; _wsPending := _wsPending st;
     _wsReqId := _wsReqId st; _wsReconnectDelay := _wsReconnectDelay st;
     sockets := sockets st; connects := v; sends := sends st;
     timers := timers st; page := page st;
     storage_bs_token := storage_bs_token st |}.

Definition set_sends (v : list SendPromise) (st : State) : State :=
  {| _ws := _ws st; _wsToken := _wsToken st; _wsPending := _wsPending st;
     _wsReqId := _wsReqId st; _wsReconnectDelay := _wsReconnectDelay st;
     sockets := sockets st; connects := connects st; sends := v;
     timers := timers st; page := page st;
     storage_bs_token := storage_bs_token st |}.

Definition set_timers (v : list Timer) (st : State) : State :=
  {| _ws := _ws st; _wsToken := _wsToken st; _wsPending := _wsPending st;
     _wsReqId := _wsReqId st; _wsReconnectDelay := _wsReconnectDelay st;
     sockets := sockets st; connects := connects st; sends := sends st;
     timers := v; page := page st;
     storage_bs_token := storage_bs_token st |}.

Definition set_storage (v : option string) (st : State) : State :=
  {| _ws := _ws st; _wsToken := _wsToken st; _wsPending := _wsPending st;
     _wsReqId := _wsReqId st; _wsReconnectDelay := _wsReconnectDelay st;
     sockets := sockets st; connects := connects st; sends := sends st;
     timers := timers st; page := page st;
     storage_bs_token := v |}.

(** ** Helpers on the state *)

Definition socket_state (st : State) (s : nat) : option ReadyState :=
  readyState <$> sockets st !! s.

(** [_ws && _ws.readyState === WebSocket.OPEN] *)
Definition ws_open (st : State) : bool :=
  match _ws st with
  | Some s => bool_decide (socket_state st s = Some OPEN)
  | None => false
  end.

Definition set_readyState (s : nat) (r : ReadyState) (st : State) : State :=
  set_sockets
    (alter (fun w => mkSocket (url w) r (ws_resolve w) (ws_sent w)) s
       (sockets st)) st.

(** [socket.send(frame)] *)
Definition socket_send (s : nat) (f : Frame) (st : State) : State :=
  set_sockets
    (alter (fun w => mkSocket (url w) (readyState w) (ws_resolve w)
                       (ws_sent w ++ [f])) s
       (sockets st)) st.

(** [setTimeout(task, delay)]: the new state and the timer id *)
Definition setTimeout (task : Task) (delay : N) (st : State) : State * nat :=
  (set_timers (timers st ++ [mkTimer task delay true]) st,
   length (timers st)).

Definition disarm (t : nat) (st : State) : State :=
  set_timers
    (alter (fun tm => mkTimer (t_task tm) (t_delay tm) false) t (timers st))
    st.

Definition clearTimeout (t : nat) (st : State) : State := disarm t st.

(** A call of the [resolve] or [reject] of the promise of [wsSend]
    invocation [k]. *)
Definition settle (k : nat) (c : Cause) (o : Settlement) (st : State)
  : State :=
  set_sends
    (alter (fun sp => mkSend (s_action sp) (s_payload sp) (s_timeoutMs sp)
                        (s_calls sp ++ [(c, o)])) k
       (sends st)) st.

(** The [resolve] and [reject] members of a pending entry (lines 173-174):
    [clearTimeout(timer)] and then the outer [resolve] or [reject]. *)
Definition pending_resolve (p : PendingEntry) (v : JsVal) (st : State)
  : State :=
  settle (p_send p) BySuccess (Fulfilled v) (clearTimeout (p_timer p) st).

Definition pending_reject (p : PendingEntry) (c : Cause) (e : JsError)
  (st : State) : State :=
  settle (p_send p) c (Rejected e) (clearTimeout (p_timer p) st).

(** [Math.round(timeoutMs / 1000)] on a non-negative integer *)
Definition round_seconds (timeoutMs : N) : N := (timeoutMs + 500) / 1000.

Definition timeout_message (timeoutMs : N) : string :=
  "Request timed out after " +:+ pretty (round_seconds timeoutMs) +:+ "s".

(** [`r${++_wsReqId}`] for the incremented counter [n] *)
Definition req_id (n : nat) : string := "r" +:+ pretty n.

(** ** The source functions *)

(** [_getInitialToken] (lines 102-107) *)
Definition _getInitialToken (st : State) : JsVal :=
  let stored := match storage_bs_token st with
                | Some s => JStr s
                | None => JNull
                end in
  match meta_bs_token (page st) with
  | Some content => if truthy (JStr content) then JStr content else stored
  | None => stored
  end.

(** The URL built on lines 111-113: first the part before the query,
    [`${proto}//${location.host}/ws`], then the whole. *)
Definition ws_base (pg : Page) : string :=
  let proto := if bool_decide (location_protocol pg = "https:")
               then "wss:" else "ws:" in
  proto +:+ "//" +:+ location_host pg +:+ "/ws".

Definition ws_url (st : State) : string :=
  let token := js_or (_wsToken st) (_getInitialToken st) in
  ws_base (page st) +:+
  (if truthy token then "?token=" +:+ ToString token else "").

(** The closure [ready] of [wsSend] invocation [k] (lines 162-177) *)
Definition ready (k : nat) (st : State) : State :=
  match sends st !! k with
  | None => st
  | Some sp =>
      if negb (ws_open st) then
        settle k ByNotConnected (Rejected (Error "WebSocket not connected")) st
      else
        let st1 := set_wsReqId (_wsReqId st + 1)%nat st in
        let id := req_id (_wsReqId st1) in
        let '(st2, timer) :=
          setTimeout (RequestTimeout id k) (s_timeoutMs sp) st1 in
        let st3 :=
          set_wsPending (Map_set id (mkPending k timer) (_wsPending st2)) st2 in
        match _ws st3 with
        | Some s =>
            socket_send s (mkFrame id (s_action sp) (s_payload sp)) st3
        | None => st3
        end
  end.

(** [resolve()] of the promise of [wsConnect] invocation [c].  Only the
    first call has an effect; it queues the chained [ready], which runs as
    a microtask, that is, before the next event. *)
Definition resolve_connect (c : nat) (st : State) : State :=
  match connects st !! c with
  | None => st
  | Some cp =>
      match c_state cp with
      | PPending =>
          let st1 :=
            set_connects (<[c := mkConnect PFulfilled (c_then cp)]> (connects st))
              st in
          match c_then cp with
          | Some k => ready k st1
          | None => st1
          end
      | _ => st
      end
  end.

(** [wsConnect()] (lines 109-159): the new state and the index of the
    returned promise. *)
Definition wsConnect (st : State) : State * nat :=
  let c := length (connects st) in
  if ws_open st then
    (set_connects (connects st ++ [mkConnect PFulfilled None]) st, c)
  else
    let s := length (sockets st) in
    let st1 := set_connects (connects st ++ [mkConnect PPending None]) st in
    let st2 :=
      set_sockets (sockets st1 ++ [mkSocket (ws_url st) CONNECTING c []]) st1 in
    (set_ws (Some s) st2, c).

(** [p.then(ready).catch(reject)] (line 181) for the promise [c] of a
    [wsConnect] invocation and the closures of [wsSend] invocation [k]. *)
Definition connect_then (c k : nat) (st : State) : State :=
  match connects st !! c with
  | None => st
  | Some cp =>
      match c_state cp with
      | PPending =>
          set_connects (<[c := mkConnect PPending (Some k)]> (connects st)) st
      | PFulfilled => ready k st
      | PRejected e => settle k ByCatch (Rejected e) st
      end
  end.

(** The default of the parameter [payload] of [wsSend] (line 161): the
    empty object stands in for an argument left out and for one passed as
    [undefined]. *)
Definition default_payload (payload : option JsVal) : JsVal :=
  match payload with
  | None | Some JUndefined => JObj []
  | Some v => v
  end.

(** [wsSend(action, payload, timeoutMs)] (lines 161-183): the new state and
    the index of the returned promise.  [None] is an argument left out; a
    timeout is a number when it is given. *)
Definition wsSend (action : JsVal) (payload : option JsVal)
  (timeoutMs : option N) (st : State) : State * nat :=
  let k := length (sends st) in
  let sp := mkSend action (default_payload payload)
              (default DEFAULT_TIMEOUT_MS timeoutMs) [] in
  let st1 := set_sends (sends st ++ [sp]) st in
  if ws_open st1 then (ready k st1, k)
  else
    let '(st2, c) := wsConnect st1 in
    (connect_then c k st2, k).

(** The [wsSend('generate', ..., GENERATION_TIMEOUT_MS)] of [generateImage]
    (lines 953-960). *)
Definition generateImage_send (payload : JsVal) (st : State) : State * nat :=
  wsSend (JStr "generate") (Some payload) (Some GENERATION_TIMEOUT_MS) st.

(** The error built from a failure frame (lines 134-136) *)
Definition failure_error (msg : JsVal) : JsError :=
  let err :=
    Error (ToString (js_or (field msg "error") (JStr "Request failed"))) in
  let err :=
    mkError (message err) (Some (js_or (field msg "code") (JNum 500)))
      (limit err) (current err) (attempted err) in
  if defined (field msg "limit") then
    mkError (message err) (code err) (Some (field msg "limit"))
      (Some (field msg "current")) (Some (field msg "attempted"))
  else err.

(** The [open] handler (lines 116-118) *)
Definition on_open (st : State) : State := set_wsReconnectDelay 500 st.

(** The [message] handler (lines 120-140) of socket [s]; [msg] is
    [JSON.parse(event.data)]. *)
Definition on_message (s : nat) (msg : JsVal) (st : State) : State :=
  match prop msg "type" with
  | None => st
  | Some ty =>
      if is_str ty "auth" then
        let st1 := set_wsToken (field msg "token") st in
        let st2 := set_storage (Some (ToString (field msg "token"))) st1 in
        match sockets st2 !! s with
        | Some w => resolve_connect (ws_resolve w) st2
        | None => st2
        end
      else
        match field msg "id" with
        | JStr id =>
            match Map_get id (_wsPending st) with
            | Some pending =>
                let st1 := set_wsPending (Map_delete id (_wsPending st)) st in
                if truthy (field msg "ok") then
                  pending_resolve pending (field msg "result") st1
                else
                  pending_reject pending ByFailure (failure_error msg) st1
            | None => st
            end
        | _ => st
        end
  end.

(** The loop of the close handler (lines 145-147) over the entries [l] of
    [_wsPending], in insertion order *)
Definition reject_all (l : list (string * PendingEntry)) (st : State)
  : State :=
  foldl (fun acc kp => pending_reject kp.2 ByClose (Error "WebSocket closed") acc)
    st l.

(** The [close] handler (lines 142-152) *)
Definition on_close (st : State) : State :=
  let st1 := set_ws None st in
  let st2 := reject_all (_wsPending st1) st1 in
  let st3 := set_wsPending [] st2 in
  let st4 := fst (setTimeout Reconnect (_wsReconnectDelay st3) st3) in
  set_wsReconnectDelay
    (N.min (_wsReconnectDelay st4 * 2) WS_MAX_RECONNECT_DELAY) st4.

(** The callbacks given to [setTimeout] (lines 150 and 168-171) *)
Definition run_task (tm : Timer) (st : State) : State :=
  match t_task tm with
  | Reconnect => fst (wsConnect st)
  | RequestTimeout id k =>
      let st1 := set_wsPending (Map_delete id (_wsPending st)) st in
      settle k ByTimeout (Rejected (Error (timeout_message (t_delay tm)))) st1
  end.

(** ** Events *)

Inductive Event :=
| CallConnect
| CallSend (action : JsVal) (payload : option JsVal) (timeoutMs : option N)
| SockOpen (s : nat)
| SockMessage (s : nat) (msg : JsVal)
| SockError (s : nat)
| SockClosing (s : nat)
| SockClose (s : nat)
| TimerFire (t : nat).

(** One event.  [None] when the browser cannot deliver the event: [open]
    is delivered to a connecting socket, [message] to an open one, [close]
    once to a socket that is not yet closed, and a timer fires once unless
    cleared.  A frame that is not JSON makes [JSON.parse] throw before the
    handler changes anything and is not an event here. *)
Definition step (st : State) (e : Event) : option State :=
  match e with
  | CallConnect => Some (wsConnect st).1
  | CallSend action payload timeoutMs =>
      Some (wsSend action payload timeoutMs st).1
  | SockOpen s =>
      match socket_state st s with
      | Some CONNECTING => Some (on_open (set_readyState s OPEN st))
      | _ => None
      end
  | SockMessage s msg =>
      match socket_state st s with
      | Some OPEN => Some (on_message s msg st)
      | _ => None
      end
  | SockError s =>
      match socket_state st s with
      | Some CONNECTING | Some OPEN | Some CLOSING => Some st
      | _ => None
      end
  | SockClosing s =>
      match socket_state st s with
      | Some OPEN => Some (set_readyState s CLOSING st)
      | _ => None
      end
  | SockClose s =>
      match socket_state st s with
      | Some CONNECTING | Some OPEN | Some CLOSING =>
          Some (on_close (set_readyState s CLOSED st))
      | _ => None
      end
  | TimerFire t =>
      match timers st !! t with
      | Some tm => if t_armed tm then Some (run_task tm (disarm t st)) else None
      | None => None
      end
  end.

Fixpoint run (st : State) (evs : list Event) : option State :=
  match evs with
  | [] => Some st
  | e :: evs' =>
      match step st e with
      | Some st' => run st' evs'
      | None => None
      end
  end.

(** * What the statements are about *)

(** ** Observations on a state or a history *)

(** The ids handed out so far, oldest first: [timers] records every
    [setTimeout] call and [ready] makes one per id. *)
Definition issued (st : State) : list string :=
  omap (fun tm => match t_task tm with
                  | RequestTimeout id _ => Some id
                  | Reconnect => None
                  end) (timers st).

(** The delays of the reconnections scheduled so far, oldest first. *)
Definition scheduled_delays (st : State) : list N :=
  omap (fun tm => match t_task tm with
                  | Reconnect => Some (t_delay tm)
                  | RequestTimeout _ _ => None
                  end) (timers st).

(** No [resolve] or [reject] of the promise of [wsSend] invocation [k] was
    called yet. *)
Definition unsettled (st : State) (k : nat) : Prop :=
  exists sp, sends st !! k = Some sp /\ s_calls sp = [].

(** [ready] of invocation [k] is the reaction of the pending promise [c]. *)
Definition waits_on (st : State) (k c : nat) : Prop :=
  connects st !! c = Some (mkConnect PPending (Some k)).

(** The arguments captured by the closures of invocation [k] *)
Definition call_args (st : State) (k : nat) : option (JsVal * JsVal * N) :=
  (fun sp => (s_action sp, s_payload sp, s_timeoutMs sp)) <$> sends st !! k.

(** The promises of the pending entries, in table order *)
Definition pending_sends (st : State) : list nat :=
  (fun kp => p_send kp.2) <$> _wsPending st.

(** The call the close handler makes on every pending entry *)
Definition closed_call : Cause * Settlement :=
  (ByClose, Rejected (Error "WebSocket closed")).

(** What the connection URL is built from. *)
Definition token_view (st : State) : JsVal * option string * Page :=
  (_wsToken st, storage_bs_token st, page st).

(** [msg.type === 'auth'] *)
Definition is_auth (msg : JsVal) : bool :=
  match prop msg "type" with
  | Some ty => is_str ty "auth"
  | None => false
  end.

Definition is_auth_event (e : Event) : bool :=
  match e with
  | SockMessage _ msg => is_auth msg
  | _ => false
  end.

(** The URL of the socket a [wsConnect] call makes in state [st], if it
    makes one. *)
Definition connect_url (st : State) : option string :=
  url <$> sockets (wsConnect st).1 !! length (sockets st).

(** A transport that has not closed. *)
Definition live (w : WebSocket) : bool :=
  negb (bool_decide (readyState w = CLOSED)).

Definition live_transports (st : State) : list WebSocket :=
  filter (fun w => live w = true) (sockets st).

(** The delay the spec gives for the [k]-th consecutive failure, [k >= 1]:
    [min(500 * 2^(k-1), 16000)]. *)
Definition attempt_delay (k : nat) : N :=
  N.min (500 * 2 ^ (N.of_nat k - 1)) 16000.

(** The number of [close] events in a history *)
Fixpoint closes (evs : list Event) : nat :=
  match evs with
  | [] => 0
  | SockClose _ :: evs' => S (closes evs')
  | _ :: evs' => closes evs'
  end.

Definition is_open_event (e : Event) : bool :=
  match e with
  | SockOpen _ => true
  | _ => false
  end.

(** What the backoff depends on. *)
Definition backoff_view (st : State) : N * list N :=
  (_wsReconnectDelay st, scheduled_delays st).

(** ** Reachable states and their invariant *)

(** The states the program can be in: those a history of events leads to
    from the state of a freshly loaded page. *)
Definition reachable (st : State) : Prop :=
  exists pg stored evs, run (init pg stored) evs = Some st.

(** What holds in every reachable state.  A pending entry belongs to an
    unsettled promise and an armed timer of its own; an armed request timer
    belongs to a pending entry; a promise whose [ready] still waits for a
    connection is unsettled and in no entry; no [resolve] or [reject] is
    called twice; the ids handed out are r1 ... rN; every socket has its
    own [wsConnect] promise; no [wsConnect] promise is rejected. *)
Record Inv (st : State) : Prop := {
  inv_pending : forall id p, (id, p) ∈ _wsPending st ->
    exists sp, sends st !! p_send p = Some sp /\ s_calls sp = [] /\
      timers st !! p_timer p =
        Some (mkTimer (RequestTimeout id (p_send p)) (s_timeoutMs sp) true);
  inv_ids : forall id p, (id, p) ∈ _wsPending st ->
    exists n, id = req_id n /\ (1 <= n <= _wsReqId st)%nat;
  inv_keys : NoDup (Map_keys (_wsPending st));
  inv_send_inj : forall id1 p1 id2 p2,
    (id1, p1) ∈ _wsPending st -> (id2, p2) ∈ _wsPending st ->
    p_send p1 = p_send p2 -> id1 = id2;
  inv_timer : forall t id k d,
    timers st !! t = Some (mkTimer (RequestTimeout id k) d true) ->
    (id, mkPending k t) ∈ _wsPending st;
  inv_wait : forall c k, waits_on st k c ->
    unsettled st k /\ forall id p, (id, p) ∈ _wsPending st -> p_send p <> k;
  inv_wait_inj : forall c c' k, waits_on st k c -> waits_on st k c' -> c = c';
  inv_once : forall k sp, sends st !! k = Some sp ->
    (length (s_calls sp) <= 1)%nat;
  inv_issued : issued st = req_id <$> seq 1 (_wsReqId st);
  inv_sock : forall s w, sockets st !! s = Some w ->
    (ws_resolve w < length (connects st))%nat;
  inv_sock_inj : forall s1 w1 s2 w2,
    sockets st !! s1 = Some w1 -> sockets st !! s2 = Some w2 ->
    ws_resolve w1 = ws_resolve w2 -> s1 = s2;
  inv_norej : forall c cp e, connects st !! c = Some cp ->
    c_state cp <> PRejected e
}.

(** The promise of invocation [k] exists and nothing refers to it yet: it
    is in no pending entry and is no promise's reaction. *)
Definition free (st : State) (k : nat) : Prop :=
  unsettled st k /\
  (forall id p, (id, p) ∈ _wsPending st -> p_send p <> k) /\
  (forall c, ~ waits_on st k c).

(** The state [ready] builds before it sends the frame, for a fresh id. *)
Definition register (k : nat) (sp : SendPromise) (st : State) : State :=
  let id := req_id (_wsReqId st + 1) in
  set_wsPending (_wsPending st ++ [(id, mkPending k (length (timers st)))])
    (set_timers
       (timers st ++ [mkTimer (RequestTimeout id k) (s_timeoutMs sp) true])
       (set_wsReqId (_wsReqId st + 1)%nat st)).

(** A pending entry is taken out of the table and one of its closures is
    called: the shape shared by a response, a timeout and a close. *)
Definition answer (id : string) (p : PendingEntry) (c : Cause)
  (o : Settlement) (st : State) : State :=
  settle (p_send p) c o
    (clearTimeout (p_timer p)
       (set_wsPending (Map_delete id (_wsPending st)) st)).

(** A handler keeps every existing socket, with its URL, its [resolve] and
    its [readyState]. *)
Definition keeps_sockets (st st' : State) : Prop :=
  forall s w, sockets st !! s = Some w ->
    exists w', sockets st' !! s = Some w' /\ ws_resolve w' = ws_resolve w /\
      url w' = url w /\ readyState w' = readyState w.

(** [wsConnect] invocation [c] made the socket [s], which closed before
    any authentication push reached it. *)
Definition orphaned (st : State) (c s : nat) : Prop :=
  exists w cp,
    sockets st !! s = Some w /\ ws_resolve w = c /\ readyState w = CLOSED /\
    connects st !! c = Some cp /\ c_state cp = PPending.

(** ** The pushed token, as the statement has it

    Once an authentication push has delivered a token, whichever string
    it is, every connection made until the next push sends that token. *)
Definition pushed_token_sent : Prop :=
  forall st s msg tok st' evs st'',
    reachable st ->
    is_auth msg = true -> field msg "token" = JStr tok ->
    step st (SockMessage s msg) = Some st' ->
    forallb (fun e => negb (is_auth_event e)) evs = true ->
    run st' evs = Some st'' ->
    ws_open st'' = false ->
    connect_url st'' = Some (ws_base (page st) +:+ "?token=" +:+ tok).

(** ** Failure frames *)

(** An inbound frame that is not an authentication push, carries the id of
    the pending entry [p], and has a falsy [ok]. *)
Definition failure_frame_for (st : State) (msg : JsVal) (p : PendingEntry)
  : Prop :=
  is_auth msg = false /\
  (exists id, field msg "id" = JStr id /\ Map_get id (_wsPending st) = Some p) /\
  truthy (field msg "ok") = false.

(** A field of the frame reaches the error unchanged when the frame has
    it: the reading of "propagated verbatim" that asks the least. *)
Definition forwards (msg : JsVal) (e : JsError) : Prop :=
  (forall m, field msg "error" = JStr m -> message e = m) /\
  (defined (field msg "code") = true -> code e = Some (field msg "code")) /\
  (defined (field msg "limit") = true -> limit e = Some (field msg "limit")) /\
  (defined (field msg "current") = true ->
   current e = Some (field msg "current")) /\
  (defined (field msg "attempted") = true ->
   attempted e = Some (field msg "attempted")).

(** The reference definition of the rejection error, as the claim words
    it: the message is the frame's [error] if non-empty and otherwise
    'Request failed'; the code is the frame's [code] if truthy and otherwise
    500; [limit], [current] and [attempted] are copied exactly when the
    frame's [limit] is not [undefined]. *)
Definition reference_error (msg : JsVal) : JsError :=
  {| message :=
       match field msg "error" with
       | JStr m => if decide (m = "") then "Request failed" else m
       | _ => "Request failed"
       end;
     code :=
       Some (if truthy (field msg "code") then field msg "code" else JNum 500);
     limit :=
       match field msg "limit" with
       | JUndefined => None
       | l => Some l
       end;
     current :=
       match field msg "limit" with
       | JUndefined => None
       | _ => Some (field msg "current")
       end;
     attempted :=
       match field msg "limit" with
       | JUndefined => None
       | _ => Some (field msg "attempted")
       end |}.

(** The wire protocol's [error: string]: the field is a string when the
    frame has one; a missing field, [null], [false] and [0] count as no
    message. *)
Definition error_field_typed (msg : JsVal) : Prop :=
  truthy (field msg "error") = false \/ exists m, field msg "error" = JStr m.

(** ** Sample pages, frames and histories *)

Definition page0 : Page := mkPage "https:" "example.test" None.

Definition page_with_meta : Page :=
  mkPage "https:" "example.test" (Some "fresh").

Definition auth_push (tok : string) : JsVal :=
  JObj [("type", JStr "auth"); ("token", JStr tok)].

Definition seven_failures : list Event :=
  [CallConnect; SockClose 0; TimerFire 0; SockClose 1; TimerFire 1;
   SockClose 2; TimerFire 2; SockClose 3; TimerFire 3; SockClose 4;
   TimerFire 4; SockClose 5; TimerFire 5; SockClose 6].

(** Two requests on a first connection, its loss, a reconnection and a
    third request. *)
Definition three_requests : list Event :=
  [CallSend (JStr "providers") None None; SockOpen 0;
   SockMessage 0 (auth_push "abc"); CallSend (JStr "tts") None None;
   SockClose 0; TimerFire 2; SockOpen 1; SockMessage 1 (auth_push "abc");
   CallSend (JStr "providers") None None].

Definition after_three_requests : State :=
  default (init page0 None) (run (init page0 None) three_requests).

Definition two_requests : list Event :=
  [CallSend (JStr "providers") None None; SockOpen 0;
   SockMessage 0 (auth_push "abc"); CallSend (JStr "tts") None None].

Definition with_two_pending : State :=
  default (init page0 None) (run (init page0 None) two_requests).

Definition connected_with_meta : State :=
  default (init page_with_meta (Some "stale"))
    (run (init page_with_meta (Some "stale")) [CallConnect; SockOpen 0]).

Definition pushed_with_meta : State :=
  default connected_with_meta
    (step connected_with_meta (SockMessage 0 (auth_push "pushed"))).

Definition lost_with_meta : State :=
  default pushed_with_meta (run pushed_with_meta [SockClose 0]).

(** The same session when the push delivers the empty string. *)
Definition pushed_empty_token : State :=
  default connected_with_meta
    (step connected_with_meta (SockMessage 0 (auth_push ""))).

Definition lost_after_empty_token : State :=
  default pushed_empty_token (run pushed_empty_token [SockClose 0]).

Definition frame_without_limit : JsVal :=
  JObj [("id", JStr "r1"); ("ok", JBool false);
        ("error", JStr "Rate limit exceeded"); ("code", JNum 429);
        ("current", JNum 10); ("attempted", JNum 1)].

Definition frame_code_zero : JsVal :=
  JObj [("id", JStr "r1"); ("ok", JBool false);
        ("error", JStr "Bad request"); ("code", JNum 0)].

Definition frame_empty_error : JsVal :=
  JObj [("id", JStr "r1"); ("ok", JBool false);
        ("error", JStr ""); ("code", JNum 400)].

Definition frame_rate_limited : JsVal :=
  JObj [("id", JStr "r1"); ("ok", JBool false);
        ("error", JStr "Rate limit exceeded"); ("code", JNum 429);
        ("limit", JNum 10); ("current", JNum 10); ("attempted", JNum 1)].

(** The error that reaches the caller of request r1 when [msg] arrives
    while r1 and r2 are pending. *)
Definition rejection_of (msg : JsVal) : option Settlement :=
  st' ← step with_two_pending (SockMessage 0 msg);
  sp ← sends st' !! 0%nat;
  settlement sp.



(** A request made while disconnected, and the transport closing before
    the server's authentication push. *)
Definition early_close : list Event :=
  [CallSend (JStr "providers") None None; SockClose 0].

Definition after_early_close : State :=
  default (init page0 None) (run (init page0 None) early_close).

(** The reconnection succeeds and the server pushes a token. *)
Definition reconnected : list Event :=
  [TimerFire 0; SockOpen 1; SockMessage 1 (auth_push "abc")].

Definition connecting : State :=
  default (init page0 None) (run (init page0 None) [CallConnect]).

(** * The reference gallery and the lightbox

    Lines 536-548, 606-645 and 846-905 of [src/static/app.js]: the
    module's variables [referenceItems], [selectedReferenceIndex],
    [nextReferenceId], [generatedImageDataUrl], [generatedFilename],
    [lightboxItems] and [lightboxIndex], and the functions that assign
    them.  Indices are JavaScript Numbers holding integers, modelled on
    [Z]; [%] is the remainder that takes the sign of the dividend
    ([Z.rem]).  What is drawn (the thumbnails, the titles, the zoom) is
    left out, except for the picture and the visibility of the lightbox. *)

(** A [File], by its [name]. *)
Record File : Type := mkFile { file_name : string }.

(** The source of a picture: a data URL, or the k-th URL handed out by
    [URL.createObjectURL]. *)
Inductive Url : Type :=
| DataUrl (s : string)
| ObjectUrl (k : nat).

(** An element of [referenceItems]: [{ id, file, url }]. *)
Record ReferenceItem : Type := mkReference {
  r_id : Z;
  r_file : File;
  r_url : nat
}.

(** The variables of the gallery, with the object URLs of the browser:
    how many [URL.createObjectURL] has handed out, and the calls of
    [URL.revokeObjectURL], oldest first. *)
Record Gallery : Type := mkGallery {
  referenceItems : list ReferenceItem;
  selectedReferenceIndex : Z;
  nextReferenceId : Z;
  generatedImageDataUrl : string;
  generatedFilename : string;
  object_urls : nat;
  revoked_urls : list nat
}.

(** The values the variables are declared with (lines 226-237). *)
Definition gallery0 : Gallery :=
  mkGallery [] (-1) 1 "" "generated-image.png" 0 [].

Definition set_selectedReferenceIndex (v : Z) (g : Gallery) : Gallery :=
  mkGallery (referenceItems g) v (nextReferenceId g)
    (generatedImageDataUrl g) (generatedFilename g)
    (object_urls g) (revoked_urls g).

(** [((index % n) + n) % n], as [selectReference] and [cycleLightbox]
    compute it *)
Definition bounded (index n : Z) : Z :=
  Z.rem (Z.rem index n + n) n.

(** [selectReference(index)] *)
Definition selectReference (index : Z) (g : Gallery) : Gallery :=
  if (length (referenceItems g) =? 0)%nat then
    set_selectedReferenceIndex (-1) g
  else
    set_selectedReferenceIndex
      (bounded index (Z.of_nat (length (referenceItems g)))) g.

(** One round of the [forEach] of [addReferenceFiles] *)
Definition push_reference (g : Gallery) (file : File) : Gallery :=
  mkGallery
    (referenceItems g ++ [mkReference (nextReferenceId g) file (object_urls g)])
    (selectedReferenceIndex g) (nextReferenceId g + 1)
    (generatedImageDataUrl g) (generatedFilename g)
    (S (object_urls g)) (revoked_urls g).

(** [addReferenceFiles(files, selectLast)] *)
Definition addReferenceFiles (files : list File) (selectLast : bool)
    (g : Gallery) : Gallery :=
  let g1 := foldl push_reference g files in
  if selectLast && negb (length (referenceItems g1) =? 0)%nat then
    set_selectedReferenceIndex (Z.of_nat (length (referenceItems g1)) - 1) g1
  else g1.

(** [removeReferenceAt(index)] *)
Definition removeReferenceAt (index : Z) (g : Gallery) : Gallery :=
  if ((index <? 0) || (Z.of_nat (length (referenceItems g)) <=? index))%Z then g
  else
    match referenceItems g !! Z.to_nat index with
    | None => g
    | Some removed =>
        let items := delete (Z.to_nat index) (referenceItems g) in
        mkGallery items
          (if (length items =? 0)%nat then -1
           else Z.min index (Z.of_nat (length items) - 1))
          (nextReferenceId g)
          (generatedImageDataUrl g) (generatedFilename g)
          (object_urls g) (revoked_urls g ++ [r_url removed])
    end.

(** [clearReferences()] *)
Definition clearReferences (g : Gallery) : Gallery :=
  mkGallery [] (-1) (nextReferenceId g)
    (generatedImageDataUrl g) (generatedFilename g)
    (object_urls g) (revoked_urls g ++ (r_url <$> referenceItems g)).

(** The end of a successful [generateImage] (lines 981-990): the name and
    the data URL of the generated picture are recorded, and the picture
    is added to the references under that name. *)
Definition set_generated (image_data_url filename : string) (g : Gallery)
    : Gallery :=
  mkGallery (referenceItems g) (selectedReferenceIndex g) (nextReferenceId g)
    image_data_url filename (object_urls g) (revoked_urls g).

Definition generateImage_done (image_data_url filename : string) (g : Gallery)
    : Gallery :=
  addReferenceFiles [mkFile filename] true
    (set_generated image_data_url filename g).

(** What the page does to the gallery *)
Inductive GalleryEvent : Type :=
| AddFiles (files : list File) (selectLast : bool)
| RemoveAt (index : Z)
| ClearAll
| Select (index : Z)
| Generated (image_data_url filename : string).

Definition gallery_step (g : Gallery) (e : GalleryEvent) : Gallery :=
  match e with
  | AddFiles files selectLast => addReferenceFiles files selectLast g
  | RemoveAt index => removeReferenceAt index g
  | ClearAll => clearReferences g
  | Select index => selectReference index g
  | Generated image_data_url filename =>
      generateImage_done image_data_url filename g
  end.

Definition gallery_run (g : Gallery) (evs : list GalleryEvent) : Gallery :=
  foldl gallery_step g evs.

(** Every call site of [addReferenceFiles] passes [true] for
    [selectLast]. *)
Definition selects_last (e : GalleryEvent) : Prop :=
  match e with
  | AddFiles _ selectLast => selectLast = true
  | _ => True
  end.

(** An element of [lightboxItems]: [{ url, label, filename }], without
    the label. *)
Record LightboxItem : Type := mkItem {
  l_url : Url;
  l_filename : string
}.

(** The variables of the lightbox, with the picture it displays
    ([lightboxImage.src], [None] while never assigned), whether it is
    hidden, and whether its previous and next buttons are disabled. *)
Record Lightbox : Type := mkLightbox {
  lightboxItems : list LightboxItem;
  lightboxIndex : Z;
  lightbox_src : option Url;
  lightbox_hidden : bool;
  lightbox_nav_disabled : bool
}.

(** [buildLightboxItems()] *)
Definition buildLightboxItems (g : Gallery) : list LightboxItem :=
  let generated :=
    if String.eqb (generatedImageDataUrl g) "" then []
    else [mkItem (DataUrl (generatedImageDataUrl g)) (generatedFilename g)] in
  let refs :=
    if String.eqb (generatedImageDataUrl g) "" then referenceItems g
    else filter (fun item => file_name (r_file item) <> generatedFilename g)
           (referenceItems g) in
  generated ++
    ((fun item => mkItem (ObjectUrl (r_url item)) (file_name (r_file item)))
       <$> refs).

(** [lightboxItems[index]] for an integer [index] *)
Definition item_at (items : list LightboxItem) (index : Z)
    : option LightboxItem :=
  if (index <? 0)%Z then None else items !! Z.to_nat index.

(** [showLightboxItem(index)] *)
Definition showLightboxItem (index : Z) (lb : Lightbox) : Lightbox :=
  match item_at (lightboxItems lb) index with
  | None => lb
  | Some item =>
      mkLightbox (lightboxItems lb) index (Some (l_url item))
        (lightbox_hidden lb) (negb (1 <? length (lightboxItems lb))%nat)
  end.

(** [openLightbox(mode, index)] *)
Definition openLightbox (mode : string) (index : Z) (g : Gallery)
    (lb : Lightbox) : Lightbox :=
  let lb1 :=
    mkLightbox (buildLightboxItems g) (lightboxIndex lb) (lightbox_src lb)
      (lightbox_hidden lb) (lightbox_nav_disabled lb) in
  if (length (lightboxItems lb1) =? 0)%nat then lb1
  else
    let startIndex :=
      if String.eqb mode "generated" then 0%Z
      else
        let refIdx :=
          if (0 <=? index)%Z then index else selectedReferenceIndex g in
        let offset :=
          if String.eqb (generatedImageDataUrl g) "" then 0%Z else 1%Z in
        (offset + Z.max 0 refIdx)%Z in
    showLightboxItem startIndex
      (mkLightbox (lightboxItems lb1) (lightboxIndex lb1) (lightbox_src lb1)
         false (lightbox_nav_disabled lb1)).

(** [cycleLightbox(step)] *)
Definition cycleLightbox (step : Z) (lb : Lightbox) : Lightbox :=
  if (length (lightboxItems lb) <=? 1)%nat then lb
  else
    showLightboxItem
      (bounded (lightboxIndex lb + step)
         (Z.of_nat (length (lightboxItems lb)))) lb.

(** The lightbox before it was ever opened (lines 238-247). *)
Definition lightbox0 : Lightbox := mkLightbox [] (-1) None true true.

(** ** What holds of the gallery *)

(** The ids grow along [referenceItems] and stay below
    [nextReferenceId]. *)
Definition ids_increasing (g : Gallery) : Prop :=
  (forall i j x y,
      referenceItems g !! i = Some x -> referenceItems g !! j = Some y ->
      (i < j)%nat -> (r_id x < r_id y)%Z) /\
  (forall i x, referenceItems g !! i = Some x ->
      (r_id x < nextReferenceId g)%Z).

(** Every object URL handed out so far is either the URL of exactly one
    reference, or was revoked exactly once. *)
Definition urls_accounted (g : Gallery) : Prop :=
  (r_url <$> referenceItems g) ++ revoked_urls g ≡ₚ seq 0 (object_urls g).

(** [selectedReferenceIndex] is -1 or the index of a reference. *)
Definition selection_valid (g : Gallery) : Prop :=
  selectedReferenceIndex g = (-1)%Z \/
  (0 <= selectedReferenceIndex g < Z.of_nat (length (referenceItems g)))%Z.

(** A reference is selected whenever there is one. *)
Definition selection_present (g : Gallery) : Prop :=
  selectedReferenceIndex g = (-1)%Z <-> referenceItems g = [].

(** Sample galleries and lightboxes *)
Definition three_files : list File :=
  [mkFile "a.png"; mkFile "b.png"; mkFile "c.png"].

Definition gallery_history : list GalleryEvent :=
  [AddFiles three_files true; RemoveAt 1; Generated "data:image/png;base64,AAAA" "cat.png";
   Select 5; RemoveAt 0; AddFiles [mkFile "d.png"] true].

Definition three_references : Gallery :=
  gallery_run gallery0 [AddFiles three_files true].

Definition after_generation : Gallery :=
  gallery_run gallery0
    [AddFiles three_files true;
     Generated "data:image/png;base64,AAAA" "cat.png"].

Definition lightbox_on_three : Lightbox :=
  openLightbox "references" 2 three_references lightbox0.

(** * File names

    Lines 216-224, 816-830, 976-981 and 1080-1100 of [src/static/app.js].
    A JavaScript string is a sequence of 16-bit code units; the strings
    here are the ones whose code units lie below 256 (ASCII and Latin-1),
    one [Ascii.ascii] per code unit.  On these [toLowerCase] maps a code unit to
    a code unit, [\s] and [trim] know seven white-space characters, and
    [\w] is [[A-Za-z0-9_]]. *)

Definition charCode (c : Ascii.ascii) : nat := Ascii.nat_of_ascii c.

(** The hyphen *)
Definition hyphen : Ascii.ascii := Ascii.ascii_of_nat 45.

(** [[a-z]], [[A-Z]], [[0-9]] *)
Definition is_lower (c : Ascii.ascii) : bool := (97 <=? charCode c)%nat && (charCode c <=? 122)%nat.
Definition is_upper (c : Ascii.ascii) : bool := (65 <=? charCode c)%nat && (charCode c <=? 90)%nat.
Definition is_digit (c : Ascii.ascii) : bool := (48 <=? charCode c)%nat && (charCode c <=? 57)%nat.

Definition is_hyphen (c : Ascii.ascii) : bool := (charCode c =? 45)%nat.

(** [\s], and what [trim] strips: TAB, LF, VT, FF, CR, the space and the
    no-break space *)
Definition is_space (c : Ascii.ascii) : bool :=
  ((9 <=? charCode c)%nat && (charCode c <=? 13)%nat) || (charCode c =? 32)%nat
  || (charCode c =? 160)%nat.

(** [\w] *)
Definition is_word (c : Ascii.ascii) : bool :=
  is_lower c || is_upper c || is_digit c || (charCode c =? 95)%nat.

(** [toLowerCase] of one code unit: the letters A-Z, and the Latin-1
    capitals U+00C0-U+00DE without the multiplication sign U+00D7, move up
    by 32. *)
Definition lower_char (c : Ascii.ascii) : Ascii.ascii :=
  if is_upper c
     || ((192 <=? charCode c)%nat && (charCode c <=? 222)%nat && negb (charCode c =? 215)%nat)
  then Ascii.ascii_of_nat (charCode c + 32)
  else c.

Fixpoint toLowerCase (s : string) : string :=
  match s with
  | EmptyString => EmptyString
  | String c r => String (lower_char c) (toLowerCase r)
  end.

(** [s.replace(/[^...]/g, '')] for a character class [keep] *)
Fixpoint remove_unless (keep : Ascii.ascii -> bool) (s : string) : string :=
  match s with
  | EmptyString => EmptyString
  | String c r =>
      if keep c then String c (remove_unless keep r) else remove_unless keep r
  end.

Fixpoint trimStart (s : string) : string :=
  match s with
  | EmptyString => EmptyString
  | String c r => if is_space c then trimStart r else s
  end.

Fixpoint trimEnd (s : string) : string :=
  match s with
  | EmptyString => EmptyString
  | String c r =>
      match trimEnd r with
      | EmptyString => if is_space c then EmptyString else String c EmptyString
      | r' => String c r'
      end
  end.

Definition trim (s : string) : string := trimEnd (trimStart s).

(** [s.replace(/[-\s]+/g, '-')]: every maximal run of hyphens and white
    space becomes one hyphen.  [in_run] tells that the previous character
    belonged to a run. *)
Fixpoint collapse_runs (in_run : bool) (s : string) : string :=
  match s with
  | EmptyString => EmptyString
  | String c r =>
      if is_hyphen c || is_space c then
        if in_run then collapse_runs true r
        else String hyphen (collapse_runs true r)
      else String c (collapse_runs false r)
  end.

(** [s.slice(0, n)] *)
Fixpoint slice0 (n : nat) (s : string) : string :=
  match n, s with
  | S n', String c r => String c (slice0 n' r)
  | _, _ => EmptyString
  end.

(** [a || b] on strings *)
Definition str_or (a b : string) : string :=
  if String.eqb a "" then b else a.

(** The character class [[a-z0-9\s-]] *)
Definition is_kept (c : Ascii.ascii) : bool :=
  is_lower c || is_digit c || is_space c || is_hyphen c.

(** [fallbackFilenameFromDescription(description, ext)] (lines 216-224) *)
Definition fallbackFilenameFromDescription (description ext : string)
    : string :=
  let fallback :=
    slice0 80
      (collapse_runs false
         (trim (remove_unless is_kept (toLowerCase description)))) in
  str_or fallback "generated-image" +:+ "." +:+ ext.

(** [suggestFilename(description, ext)] (lines 816-830), given how the
    promise of [wsSend('suggest-filename', ...)] was settled.  Reading
    [filename] off [null] or [undefined], and calling [trim] on a truthy
    value that is no string, throw a TypeError inside the [try]; the
    [catch] block computes the name from the description. *)
Definition suggestFilename_catch (description ext : string) : string :=
  let fallback :=
    slice0 80
      (collapse_runs false
         (trim (remove_unless is_kept (toLowerCase description)))) in
  str_or fallback "generated-image" +:+ "." +:+ ext.

Definition suggestFilename (outcome : Settlement) (description ext : string)
    : string :=
  match outcome with
  | Rejected _ => suggestFilename_catch description ext
  | Fulfilled result =>
      match prop result "filename" with
      | None => suggestFilename_catch description ext
      | Some filename =>
          match js_or filename (JStr "generated-image") with
          | JStr s => str_or (trim s) "generated-image" +:+ "." +:+ ext
          | _ => suggestFilename_catch description ext
          end
      end
  end.

(** [fileExt] of [generateImage] (line 936) *)
Definition fileExt (activeFormat : string) : string :=
  if String.eqb activeFormat "Vector" then "svg" else "png".

(** [generatedFilename] as [generateImage] assigns it (lines 976-981):
    [suggested] is what [Promise.race] produced, the name suggested or
    [null] after 2.5 seconds. *)
Definition generatedFilename_of (suggested : option string)
    (description activeFormat : string) : string :=
  let fallbackName :=
    fallbackFilenameFromDescription description (fileExt activeFormat) in
  match suggested with
  | Some name => str_or name fallbackName
  | None => fallbackName
  end.

Fixpoint all_chars (P : Ascii.ascii -> bool) (s : string) : bool :=
  match s with
  | EmptyString => true
  | String c r => P c && all_chars P r
  end.

(** [filename.replace(/\.\w+$/, repl)]: the first dot that is followed by
    word characters only, and by at least one, is where the match
    starts.  [repl] holds no dollar sign. *)
Fixpoint replace_extension (repl : string) (filename : string) : string :=
  match filename with
  | EmptyString => EmptyString
  | String c r =>
      if (charCode c =? 46)%nat && negb (String.eqb r "") && all_chars is_word r
      then repl
      else String c (replace_extension repl r)
  end.

(** [filename.endsWith(suffix)] *)
Fixpoint endsWith (suffix : string) (filename : string) : bool :=
  String.eqb filename suffix ||
  match filename with
  | EmptyString => false
  | String _ r => endsWith suffix r
  end.

(** The [download] attribute set by [downloadAsSvg] and [downloadAsPng] *)
Definition downloadAsSvg_name (filename : string) : string :=
  if endsWith ".svg" filename then filename
  else replace_extension ".svg" filename.

Definition downloadAsPng_name (filename : string) : string :=
  replace_extension ".png" filename.

(** ** What holds of a file name *)

(** [[a-z0-9-]] *)
Definition is_safe (c : Ascii.ascii) : bool := is_lower c || is_digit c || is_hyphen c.

(** No two hyphens in a row; [after_hyphen] tells that a hyphen came just
    before. *)
Fixpoint single_hyphens (after_hyphen : bool) (s : string) : bool :=
  match s with
  | EmptyString => true
  | String c r =>
      if is_hyphen c then negb after_hyphen && single_hyphens true r
      else single_hyphens false r
  end.

(** * The component that embeds the widget

    [src/app/components/bananastore.js]: what [mounted] does to the
    document before [static/app.js] runs, and what the scripts it loads
    read back from it (the token of [_getInitialToken], the language
    codes of the self-starting part of [i18n.js] at the end of
    [static/app.js]).  The document is the list of the elements of its
    head followed by those of its body; only [meta], [link] and [script]
    elements matter. *)

Inductive Element : Type :=
| MetaEl (name content : string)
| LinkEl (rel href : string)
| ScriptEl (src : string)
| OtherEl.

Record Document : Type := mkDocument {
  doc_head : list Element;
  doc_body : list Element
}.

(** The elements in document order *)
Definition elements (doc : Document) : list Element :=
  doc_head doc ++ doc_body doc.

Definition is_meta (name : string) (e : Element) : bool :=
  match e with
  | MetaEl n _ => bool_decide (n = name)
  | _ => false
  end.

Definition is_link (href : string) (e : Element) : bool :=
  match e with
  | LinkEl _ h => bool_decide (h = href)
  | _ => false
  end.

Definition is_script (src : string) (e : Element) : bool :=
  match e with
  | ScriptEl s => bool_decide (s = src)
  | _ => false
  end.

(** [document.querySelector('meta[name="..."]').content], [None] without
    such an element *)
Definition meta_content (name : string) (doc : Document) : option string :=
  match find (is_meta name) (elements doc) with
  | Some (MetaEl _ content) => Some content
  | _ => None
  end.

(** [_loadCSS(href)] *)
Definition _loadCSS (href : string) (doc : Document) : Document :=
  if existsb (is_link href) (elements doc) then doc
  else mkDocument (doc_head doc ++ [LinkEl "stylesheet" href]) (doc_body doc).

(** [_ensureScript(src)]: the element is appended while the promise is
    constructed. *)
Definition _ensureScript (src : string) (doc : Document) : Document :=
  if existsb (is_script src) (elements doc) then doc
  else mkDocument (doc_head doc) (doc_body doc ++ [ScriptEl src]).

(** [meta.content = content] on the first [meta] of that name in a list
    of elements; [None] without such an element *)
Fixpoint set_content (name content : string) (l : list Element)
    : option (list Element) :=
  match l with
  | [] => None
  | e :: r =>
      if is_meta name e then Some (MetaEl name content :: r)
      else cons e <$> set_content name content r
  end.

(** [_setMeta(name, content)].  Assigning to [content] converts the value
    to a string. *)
Definition _setMeta (name : string) (content : JsVal) (doc : Document)
    : Document :=
  match set_content name (ToString content) (doc_head doc) with
  | Some h => mkDocument h (doc_body doc)
  | None =>
      match set_content name (ToString content) (doc_body doc) with
      | Some b => mkDocument (doc_head doc) b
      | None =>
          mkDocument (doc_head doc ++ [MetaEl name (ToString content)])
            (doc_body doc)
      end
  end.

(** The properties of the component: [token] may be left out
    ([undefined]); [lang] and [fallback] default to ['en']. *)
Record Props : Type := mkProps {
  token : JsVal;
  lang : JsVal;
  fallback : JsVal
}.

(** [mounted()], up to the loading of the two scripts (lines 10-20);
    the markup of the widget goes into the component's own element. *)
Definition mounted (props : Props) (doc : Document) : Document :=
  let d1 := _loadCSS "/static/styles.css" doc in
  let d2 := _loadCSS "/static/fonts/phosphor/style.css" d1 in
  let d3 := _setMeta "bs-token" (token props) d2 in
  let d4 := _setMeta "bs-lang" (lang props) d3 in
  let d5 := _setMeta "bs-lang-fallback" (fallback props) d4 in
  let d6 := _ensureScript "/static/i18n.js" d5 in
  _ensureScript "/static/app.js" d6.

(** The page [static/app.js] finds *)
Definition page_of (protocol host : string) (doc : Document) : Page :=
  mkPage protocol host (meta_content "bs-token" doc).



Definition count_where (f : Element -> bool) (doc : Document) : nat :=
  length (filter (fun e => f e = true) (elements doc)).

(** Sample documents *)
Definition empty_document : Document := mkDocument [] [].

Definition served_document : Document :=
  mkDocument
    [MetaEl "viewport" "width=device-width"; MetaEl "bs-token" "from-server";
     LinkEl "stylesheet" "/static/styles.css"]
    [OtherEl].

(** ** What holds of a document *)

(** An element without the content of a [meta] *)
Definition strip (e : Element) : Element :=
  match e with
  | MetaEl n _ => MetaEl n ""
  | _ => e
  end.

(** The elements of the head and of the body, up to the contents of the
    [meta] elements *)
Definition shape (doc : Document) : list Element * list Element :=
  (strip <$> doc_head doc, strip <$> doc_body doc).

Definition has (f : Element -> bool) (doc : Document) : Prop :=
  existsb f (elements doc) = true.

(** A test that does not look at the content of a [meta] *)
Definition content_blind (f : Element -> bool) : Prop :=
  forall e, f (strip e) = f e.

(** Everything [mounted] looks for is there. *)
Definition widget_installed (doc : Document) : Prop :=
  has (is_link "/static/styles.css") doc /\
  has (is_link "/static/fonts/phosphor/style.css") doc /\
  has (is_meta "bs-token") doc /\
  has (is_meta "bs-lang") doc /\
  has (is_meta "bs-lang-fallback") doc /\
  has (is_script "/static/i18n.js") doc /\
  has (is_script "/static/app.js") doc.

(** ** Further sample frames, states and histories *)

Definition response_r1 : JsVal :=
  JObj [("id", JStr "r1"); ("ok", JBool true);
        ("result", JObj [("providers", JObj [])])].

Definition response_r9 : JsVal :=
  JObj [("id", JStr "r9"); ("ok", JBool true); ("result", JNull)].

(** What [ready] does to a socket that exists: nothing, or it appends the
    frame of invocation [k] under the next id, and then the socket is the
    current one and open, and the entry of [k] is in the table. *)
Definition frame_written (st st' : State) (s : nat) (w w' : WebSocket)
  : Prop :=
  ws_sent w' = ws_sent w \/
  exists k sp t,
    ws_sent w' =
      ws_sent w ++
        [mkFrame (req_id (_wsReqId st + 1)) (s_action sp) (s_payload sp)] /\
    _ws st = Some s /\ readyState w = OPEN /\
    _wsReqId st' = S (_wsReqId st) /\
    sends st' !! k = Some sp /\
    (req_id (_wsReqId st + 1), mkPending k t) ∈ _wsPending st'.

Definition response_r2 : JsVal :=
  JObj [("id", JStr "r2"); ("ok", JBool true); ("result", JNull)].

Definition ws_newest (st : State) : Prop :=
  forall s, _ws st = Some s -> S s = length (sockets st).

Definition two_sockets_open : list Event :=
  [CallSend (JStr "providers") None None; SockOpen 0;
   SockMessage 0 (auth_push "abc"); SockClosing 0;
   CallSend (JStr "tts") None None].

Definition with_two_sockets : State :=
  default (init page0 None) (run (init page0 None) two_sockets_open).

Definition on_second_socket : list Event :=
  [SockOpen 1; SockMessage 1 (auth_push "abc");
   CallSend (JStr "tts") None None].

Definition after_second_socket : State :=
  default with_two_sockets (run with_two_sockets on_second_socket).



Definition page_without_meta : Page := mkPage "http:" "shop.test" None.

Definition push_with_id : JsVal :=
  JObj [("type", JStr "auth"); ("token", JStr "renewed");
        ("id", JStr "r1"); ("ok", JBool true); ("result", JNull)].

(** A success response for the request [id] *)
Definition success_frame (id : string) (result : JsVal) : JsVal :=
  JObj [("id", JStr id); ("ok", JBool true); ("result", result)].

Definition connected : State :=
  default (init page0 None)
    (run (init page0 None)
       [CallConnect; SockOpen 0; SockMessage 0 (auth_push "abc")]).

(** * Lemmas and theorems *)

(** The cases of an event of socket [s] that [step] lets through. *)
Ltac socket_cases st s :=
  destruct (socket_state st s) as [[]|]; simplify_eq.

(** ** Lemmas on the [Map] *)

Section JsMapFacts.
Context {V : Type}.
Implicit Types (m : list (string * V)) (k : string) (v : V).

Lemma assoc_Some_elem_of m k v : assoc k m = Some v -> (k, v) ∈ m.
Proof.
  induction m as [|[k' v'] m IH]; simpl; [done|].
  case_decide; intros; simplify_eq; [left | right; auto].
Qed.

Lemma assoc_None m k : assoc k m = None <-> k ∉ m.*1.
Proof.
  induction m as [|[k' v'] m IH]; simpl.
  - split; [intros _; apply not_elem_of_nil | done].
  - rewrite not_elem_of_cons. case_decide; subst.
    + split; [done | intros [? _]; done].
    + rewrite IH. naive_solver.
Qed.

Lemma elem_of_assoc m k v : NoDup m.*1 -> (k, v) ∈ m -> assoc k m = Some v.
Proof.
  induction m as [|[k' v'] m IH]; simpl; intros Hnd Hin.
  - by apply elem_of_nil in Hin.
  - apply NoDup_cons in Hnd as [Hk Hnd].
    apply elem_of_cons in Hin as [Heq | Hin].
    + simplify_eq. by rewrite decide_True.
    + rewrite decide_False; [auto|].
      intros ->. apply Hk. apply list_elem_of_fmap. by exists (k, v).
Qed.

Lemma Map_set_fresh m k v : k ∉ m.*1 -> Map_set k v m = m ++ [(k, v)].
Proof.
  induction m as [|[k' v'] m IH]; simpl; [done|].
  rewrite not_elem_of_cons. intros [Hne Hk].
  rewrite decide_False by done. by rewrite IH.
Qed.

Lemma Map_delete_elem_of m k a b :
  (a, b) ∈ Map_delete k m -> (a, b) ∈ m.
Proof.
  induction m as [|[k' v'] m IH]; simpl; [done|].
  case_decide; [by right|].
  rewrite !elem_of_cons. naive_solver.
Qed.

Lemma Map_delete_keys m k : NoDup m.*1 -> k ∉ (Map_delete k m).*1.
Proof.
  induction m as [|[k' v'] m IH]; simpl; intros Hnd.
  - apply not_elem_of_nil.
  - apply NoDup_cons in Hnd as [Hk Hnd].
    case_decide; subst; [done|].
    simpl. rewrite not_elem_of_cons. auto.
Qed.

Lemma Map_delete_NoDup m k : NoDup m.*1 -> NoDup (Map_delete k m).*1.
Proof.
  induction m as [|[k' v'] m IH]; simpl; intros Hnd; [done|].
  apply NoDup_cons in Hnd as [Hk Hnd].
  case_decide; [done|]. simpl. apply NoDup_cons. split; [|auto].
  rewrite list_elem_of_fmap. intros ([a b] & -> & Hin).
  apply Map_delete_elem_of in Hin. apply Hk.
  apply list_elem_of_fmap. by exists (a, b).
Qed.

Lemma elem_of_Map_delete m k a b :
  (a, b) ∈ m -> a <> k -> (a, b) ∈ Map_delete k m.
Proof.
  induction m as [|[k' v'] m IH]; simpl; [done|].
  rewrite elem_of_cons. intros [Heq | Hin] Hne.
  - simplify_eq. rewrite decide_False by done. left.
  - case_decide; [done|]. right. auto.
Qed.

Lemma Map_delete_ne m k a b :
  NoDup m.*1 -> (a, b) ∈ Map_delete k m -> a <> k.
Proof.
  intros Hnd Hin ->. apply (Map_delete_keys m k Hnd).
  apply list_elem_of_fmap. by exists (k, b).
Qed.

Lemma NoDup_keys_eq m k v v' :
  NoDup m.*1 -> (k, v) ∈ m -> (k, v') ∈ m -> v = v'.
Proof.
  intros Hnd H1 H2.
  apply (elem_of_assoc _ _ _ Hnd) in H1, H2. congruence.
Qed.
End JsMapFacts.

(** ** Preservation of the invariant by the handlers *)

Lemma omap_alter_same {A B} (f : A -> option B) (g : A -> A) i (l : list A) :
  (forall x, f (g x) = f x) -> omap f (alter g i l) = omap f l.
Proof.
  intros Hfg. revert i. induction l as [|x l IH]; intros [|i]; simpl; try done.
  - by rewrite Hfg.
  - specialize (IH i). destruct (f x); [f_equal|]; exact IH.
Qed.

Lemma Inv_init pg stored : Inv (init pg stored).
Proof.
  constructor; unfold waits_on; simpl; try done.
  all: intros *; try (intros Hin; by apply elem_of_nil in Hin).
  apply NoDup_nil_2.
Qed.

Lemma Inv_add_send st sp :
  Inv st -> s_calls sp = [] -> Inv (set_sends (sends st ++ [sp]) st).
Proof.
  intros [] Hsp. constructor; unfold waits_on, unsettled in *; simpl; try done.
  - intros id p Hin. destruct (inv_pending0 id p Hin) as (sp' & H1 & H2 & H3).
    exists sp'. split_and!; try done. by apply lookup_app_l_Some.
  - intros c k Hc. destruct (inv_wait0 c k Hc) as [(sp' & H1 & H2) H3].
    split; [|done]. exists sp'. split; [|done]. by apply lookup_app_l_Some.
  - intros k sp' [Hl | [_ Hl]]%lookup_app_Some; [eauto|].
    apply list_lookup_singleton_Some in Hl as [_ <-]. rewrite Hsp. simpl. lia.
Qed.

Lemma free_add_send st sp :
  Inv st -> s_calls sp = [] ->
  free (set_sends (sends st ++ [sp]) st) (length (sends st)).
Proof.
  intros [] Hsp. unfold free, unsettled, waits_on. simpl. split_and!.
  - exists sp. split; [|done]. by rewrite lookup_app_r, Nat.sub_diag.
  - intros id p Hin Heq. destruct (inv_pending0 id p Hin) as (sp' & H1 & _).
    apply lookup_lt_Some in H1. lia.
  - intros c Hc. destruct (inv_wait0 c _ Hc) as [(sp' & H1 & _) _].
    apply lookup_lt_Some in H1. lia.
Qed.

Lemma lookup_alter_Some_inv {A} (g : A -> A) i j (l : list A) y :
  alter g i l !! j = Some y ->
  exists x, l !! j = Some x /\ (i = j /\ y = g x \/ i <> j /\ y = x).
Proof.
  destruct (decide (i = j)) as [->|Hne].
  - rewrite list_lookup_alter_eq. intros (x & Hx & ->)%fmap_Some. eauto.
  - rewrite list_lookup_alter_ne by done. eauto.
Qed.

Lemma Inv_alter_sockets st g s :
  (forall w, ws_resolve (g w) = ws_resolve w) ->
  Inv st -> Inv (set_sockets (alter g s (sockets st)) st).
Proof.
  intros Hg []. constructor; unfold waits_on, unsettled in *; simpl; try done.
  - intros s' w (w0 & Hw0 & Hcase)%lookup_alter_Some_inv.
    specialize (inv_sock0 _ _ Hw0).
    destruct Hcase as [[_ ->] | [_ ->]]; rewrite ?Hg; done.
  - intros s1 w1 s2 w2 (x1 & Hx1 & Hc1)%lookup_alter_Some_inv
      (x2 & Hx2 & Hc2)%lookup_alter_Some_inv Heq.
    apply (inv_sock_inj0 _ _ _ _ Hx1 Hx2).
    destruct Hc1 as [[_ ->] | [_ ->]], Hc2 as [[_ ->] | [_ ->]];
      rewrite ?Hg in Heq; done.
Qed.

Lemma Inv_set_readyState st s r : Inv st -> Inv (set_readyState s r st).
Proof. apply Inv_alter_sockets. done. Qed.

Lemma Inv_socket_send st s f : Inv st -> Inv (socket_send s f st).
Proof. apply Inv_alter_sockets. done. Qed.

Lemma Inv_settle_free st k c o : Inv st -> free st k -> Inv (settle k c o st).
Proof.
  intros [] ((sp & Hsp & Hcalls) & Hpend & Hwait).
  constructor; unfold waits_on, unsettled in *; simpl; try done.
  - intros id p Hin. destruct (inv_pending0 id p Hin) as (sp' & H1 & H2 & H3).
    exists sp'. split_and!; try done.
    rewrite list_lookup_alter_ne; [done|]. intros Heq. by eapply Hpend.
  - intros c' k' Hc. destruct (inv_wait0 c' k' Hc) as [(sp' & H1 & H2) H3].
    split; [|done]. exists sp'. split; [|done].
    rewrite list_lookup_alter_ne; [done|]. intros ->. by eapply Hwait.
  - intros k' sp' (x & Hx & Hcase)%lookup_alter_Some_inv.
    destruct Hcase as [[<- ->] | [_ ->]]; [|eauto].
    simplify_eq. simpl. rewrite Hcalls. simpl. lia.
Qed.

Lemma not_elem_of_pending_keys st n :
  Inv st -> (_wsReqId st < n)%nat -> req_id n ∉ Map_keys (_wsPending st).
Proof.
  intros [] Hlt ([id p] & Heq & Hin)%list_elem_of_fmap. simpl in Heq. subst id.
  destruct (inv_ids0 _ _ Hin) as (m & Hm & Hle).
  unfold req_id in Hm. simplify_eq. lia.
Qed.

Lemma Inv_register st k sp :
  Inv st -> free st k -> sends st !! k = Some sp -> Inv (register k sp st).
Proof.
  intros HI ((sp0 & Hsp0 & Hcalls) & Hpend & Hwait) Hsp.
  assert (sp0 = sp) as -> by congruence.
  pose proof (not_elem_of_pending_keys st (_wsReqId st + 1) HI) as Hfresh.
  destruct HI.
  constructor; unfold register, waits_on, unsettled in *; simpl; try done.
  - intros id p [Hin | Hin%list_elem_of_singleton]%elem_of_app.
    + destruct (inv_pending0 id p Hin) as (sp' & H1 & H2 & H3).
      exists sp'. split_and!; try done. by apply lookup_app_l_Some.
    + simplify_eq. simpl. exists sp. split_and!; try done.
      by rewrite lookup_app_r, Nat.sub_diag.
  - intros id p [Hin | Hin%list_elem_of_singleton]%elem_of_app.
    + destruct (inv_ids0 id p Hin) as (n & -> & Hn). exists n. split; [done|lia].
    + simplify_eq. eexists. split; [done|lia].
  - unfold Map_keys. rewrite fmap_app. apply NoDup_app. split_and!; try done.
    + intros x Hx Hx'%list_elem_of_singleton. simpl in Hx'. subst x.
      apply Hfresh; [lia|done].
    + apply NoDup_singleton.
  - intros id1 p1 id2 p2
      [H1 | H1%list_elem_of_singleton]%elem_of_app
      [H2 | H2%list_elem_of_singleton]%elem_of_app Heq; simplify_eq; try done.
    + eauto.
    + exfalso. by eapply Hpend.
    + exfalso. by eapply Hpend.
  - intros t id k' d [Hl | [Hlen Hl]]%lookup_app_Some.
    + apply elem_of_app. left. eauto.
    + apply list_lookup_singleton_Some in Hl as [Ht Hl]. simplify_eq.
      apply elem_of_app. right. apply list_elem_of_singleton.
      do 2 f_equal. lia.
  - intros c k' Hc. destruct (inv_wait0 c k' Hc) as [Hu Hp]. split; [done|].
    intros id p [Hin | Hin%list_elem_of_singleton]%elem_of_app; [eauto|].
    simplify_eq. simpl. intros ->. by eapply Hwait.
  - unfold issued in *. simpl. rewrite omap_app, inv_issued0. simpl.
    rewrite seq_app, fmap_app. simpl. do 3 f_equal. lia.
Qed.

Lemma ready_open st k sp :
  Inv st -> sends st !! k = Some sp -> ws_open st = true ->
  exists s, _ws st = Some s /\
    ready k st =
      socket_send s
        (mkFrame (req_id (_wsReqId st + 1)) (s_action sp) (s_payload sp))
        (register k sp st).
Proof.
  intros HI Hsp Hopen. unfold ready. rewrite Hsp, Hopen. simpl.
  rewrite Map_set_fresh
    by (apply (not_elem_of_pending_keys st); [done | lia]).
  unfold ws_open in Hopen. destruct (_ws st) as [s|] eqn:Hws; [|done].
  exists s. split; [done|]. done.
Qed.

Lemma ready_closed st k sp :
  sends st !! k = Some sp -> ws_open st = false ->
  ready k st =
    settle k ByNotConnected (Rejected (Error "WebSocket not connected")) st.
Proof. intros Hsp Hopen. unfold ready. by rewrite Hsp, Hopen. Qed.

Lemma Inv_ready st k : Inv st -> free st k -> Inv (ready k st).
Proof.
  intros HI Hfree. pose proof Hfree as ((sp & Hsp & _) & _).
  destruct (ws_open st) eqn:Hopen.
  - destruct (ready_open st k sp HI Hsp Hopen) as (s & _ & ->).
    by apply Inv_socket_send, Inv_register.
  - rewrite (ready_closed st k sp Hsp Hopen). by apply Inv_settle_free.
Qed.

Lemma Inv_set_ws st v : Inv st -> Inv (set_ws v st).
Proof. intros []. by constructor. Qed.

Lemma Inv_set_wsToken st v : Inv st -> Inv (set_wsToken v st).
Proof. intros []. by constructor. Qed.

Lemma Inv_set_storage st v : Inv st -> Inv (set_storage v st).
Proof. intros []. by constructor. Qed.

Lemma Inv_set_wsReconnectDelay st v : Inv st -> Inv (set_wsReconnectDelay v st).
Proof. intros []. by constructor. Qed.

Lemma Inv_add_connect st cp :
  c_then cp = None -> (forall e, c_state cp <> PRejected e) ->
  Inv st -> Inv (set_connects (connects st ++ [cp]) st).
Proof.
  intros Hthen Hrej [].
  assert (forall c k, (connects st ++ [cp]) !! c = Some (mkConnect PPending (Some k)) ->
                      connects st !! c = Some (mkConnect PPending (Some k))) as Hold.
  { intros c k [Hl | [_ Hl]]%lookup_app_Some; [done|].
    apply list_lookup_singleton_Some in Hl as [_ ->]. done. }
  constructor; unfold waits_on, unsettled in *; simpl; try done.
  - intros c k Hc%Hold. eauto.
  - intros c c' k Hc%Hold Hc'%Hold. eauto.
  - intros s w Hw. rewrite length_app. specialize (inv_sock0 _ _ Hw). lia.
  - intros c cp' e [Hl | [_ Hl]]%lookup_app_Some; [eauto|].
    apply list_lookup_singleton_Some in Hl as [_ <-]. apply Hrej.
Qed.

Lemma Inv_add_socket st w :
  (ws_resolve w < length (connects st))%nat ->
  (forall s w', sockets st !! s = Some w' -> ws_resolve w' <> ws_resolve w) ->
  Inv st -> Inv (set_sockets (sockets st ++ [w]) st).
Proof.
  intros Hlt Hne []. constructor; unfold waits_on, unsettled in *; simpl; try done.
  - intros s w' [Hl | [_ Hl]]%lookup_app_Some; [eauto|].
    apply list_lookup_singleton_Some in Hl as [_ <-]. done.
  - intros s1 w1 s2 w2 [H1 | [Hlen1 H1]]%lookup_app_Some
      [H2 | [Hlen2 H2]]%lookup_app_Some Heq.
    + eauto.
    + apply list_lookup_singleton_Some in H2 as [_ <-]. by apply Hne in H1.
    + apply list_lookup_singleton_Some in H1 as [_ <-]. by apply Hne in H2.
    + apply list_lookup_singleton_Some in H1 as [H1 _].
      apply list_lookup_singleton_Some in H2 as [H2 _]. lia.
Qed.

Lemma Inv_wsConnect st : Inv st -> Inv (wsConnect st).1.
Proof.
  intros HI. unfold wsConnect. destruct (ws_open st); cbn [fst].
  - by apply Inv_add_connect.
  - apply Inv_set_ws, Inv_add_socket.
    + simpl. rewrite length_app. simpl. lia.
    + simpl. intros s w' Hw. destruct HI. specialize (inv_sock0 _ _ Hw). lia.
    + by apply Inv_add_connect.
Qed.

Lemma free_wsConnect st k : free st k -> free (wsConnect st).1 k.
Proof.
  intros (Hu & Hp & Hw). unfold wsConnect, free, unsettled, waits_on in *.
  destruct (ws_open st); simpl; split_and!; try done.
  all: intros c [Hl | [_ Hl]]%lookup_app_Some; [by eapply Hw|].
  all: by apply list_lookup_singleton_Some in Hl as [_ ?].
Qed.

Lemma Inv_chain st c k cp :
  Inv st -> free st k -> connects st !! c = Some cp ->
  c_state cp = PPending -> c_then cp = None ->
  Inv (set_connects (<[c := mkConnect PPending (Some k)]> (connects st)) st).
Proof.
  intros [] (Hu & Hp & Hw) Hc Hstate Hthen.
  assert (forall c' k', <[c := mkConnect PPending (Some k)]> (connects st) !! c' =
                          Some (mkConnect PPending (Some k')) ->
            c' = c /\ k' = k \/
            connects st !! c' = Some (mkConnect PPending (Some k'))) as Hcase.
  { intros c' k' [(-> & ? & _) | [_ ?]]%list_lookup_insert_Some;
      [left | right]; by simplify_eq. }
  constructor; unfold waits_on, unsettled in *; simpl; try done.
  - intros c' k' [[-> ->] | Hold]%Hcase; eauto.
  - intros c1 c2 k' [[-> ->] | H1]%Hcase [[-> Hk] | H2]%Hcase; try done.
    + exfalso. by eapply Hw.
    + subst. exfalso. by eapply Hw.
    + eauto.
  - intros s w Hs. rewrite length_insert. eauto.
  - intros c' cp' e [(-> & <- & _) | [_ ?]]%list_lookup_insert_Some;
      [done | eauto].
Qed.

Lemma Inv_resolve_connect st c : Inv st -> Inv (resolve_connect c st).
Proof.
  intros HI. unfold resolve_connect.
  destruct (connects st !! c) as [[cstate cthen]|] eqn:Hc; [|done].
  destruct cstate; try done. simpl.
  set (st1 := set_connects _ st).
  assert (forall c' k', waits_on st1 k' c' -> c' <> c /\ waits_on st k' c')
    as Hold.
  { unfold waits_on, st1. simpl.
    intros c' k' [(-> & ? & _) | [? ?]]%list_lookup_insert_Some; done. }
  assert (Inv st1) as HI1.
  { destruct HI. constructor; unfold unsettled in *; try done.
    - intros c' k' [_ Hw]%Hold. eauto.
    - intros c1 c2 k' [_ H1]%Hold [_ H2]%Hold. eauto.
    - intros s w Hs. unfold st1. simpl. rewrite length_insert. eauto.
    - unfold st1. simpl.
      intros c' cp' e [(-> & <- & _) | [_ ?]]%list_lookup_insert_Some;
        [done | eauto]. }
  destruct cthen as [k|]; [|done].
  apply Inv_ready; [done|].
  destruct HI. destruct (inv_wait0 c k Hc) as [Hu Hp].
  split_and!; try done.
  intros c' [Hne Hw]%Hold. apply Hne. by eapply inv_wait_inj0.
Qed.

Lemma wsConnect_closed st :
  ws_open st = false ->
  (wsConnect st).2 = length (connects st) /\
  connects (wsConnect st).1 !! length (connects st) =
    Some (mkConnect PPending None) /\
  sockets (wsConnect st).1 =
    sockets st ++ [mkSocket (ws_url st) CONNECTING (length (connects st)) []] /\
  _ws (wsConnect st).1 = Some (length (sockets st)).
Proof.
  intros Hopen. unfold wsConnect. rewrite Hopen. simpl. split_and!; try done.
  by rewrite lookup_app_r, Nat.sub_diag.
Qed.


Lemma Inv_connect_then st c k :
  Inv st -> free st k -> connects st !! c = Some (mkConnect PPending None) ->
  Inv (connect_then c k st).
Proof.
  intros HI Hfree Hc. unfold connect_then. rewrite Hc. simpl.
  by eapply Inv_chain.
Qed.

Lemma Inv_wsSend st action payload timeoutMs :
  Inv st -> Inv (wsSend action payload timeoutMs st).1.
Proof.
  intros HI. unfold wsSend.
  set (sp := mkSend _ _ _ _). set (st1 := set_sends _ st).
  assert (Inv st1) as HI1 by by apply Inv_add_send.
  assert (free st1 (length (sends st))) as Hfree by by apply free_add_send.
  destruct (ws_open st1) eqn:Hopen; cbn [fst].
  - by apply Inv_ready.
  - destruct (wsConnect st1) as [st2 c] eqn:Hconn. cbn [fst].
    destruct (wsConnect_closed st1 Hopen) as (Hc & Hl & _).
    rewrite Hconn in Hc, Hl. simpl in Hc, Hl. subst c.
    apply Inv_connect_then; [| |done].
    + replace st2 with (wsConnect st1).1 by by rewrite Hconn.
      by apply Inv_wsConnect.
    + replace st2 with (wsConnect st1).1 by by rewrite Hconn.
      by apply free_wsConnect.
Qed.

Lemma Inv_answer st id p c o :
  Inv st -> (id, p) ∈ _wsPending st -> Inv (answer id p c o st).
Proof.
  intros [] Hin.
  destruct (inv_pending0 id p Hin) as (sp & Hsp & Hcalls & Htm).
  assert (forall id' p', (id', p') ∈ Map_delete id (_wsPending st) ->
            (id', p') ∈ _wsPending st /\ id' <> id /\
            p_send p' <> p_send p /\ p_timer p' <> p_timer p) as Hsub.
  { intros id' p' Hin'.
    pose proof (Map_delete_ne _ _ _ _ inv_keys0 Hin') as Hne.
    apply Map_delete_elem_of in Hin'. split_and!; try done.
    - intros Heq. apply Hne. by eapply inv_send_inj0.
    - intros Heq. apply Hne.
      destruct (inv_pending0 id' p' Hin') as (sp' & _ & _ & Htm').
      rewrite Heq in Htm'. congruence. }
  constructor; unfold answer, clearTimeout, waits_on, unsettled in *; simpl;
    try done.
  - intros id' p' (Hin' & _ & Hs & Ht)%Hsub.
    destruct (inv_pending0 id' p' Hin') as (sp' & H1 & H2 & H3).
    exists sp'. by rewrite !list_lookup_alter_ne.
  - intros id' p' (Hin' & _)%Hsub. eauto.
  - by apply Map_delete_NoDup.
  - intros id1 p1 id2 p2 (H1 & _)%Hsub (H2 & _)%Hsub. eauto.
  - intros t id' k d (x & Hx & Hcase)%lookup_alter_Some_inv.
    destruct Hcase as [[_ ?] | [Hne <-]]; [done|].
    apply elem_of_Map_delete; [eauto|].
    intros ->. apply Hne.
    apply inv_timer0 in Hx.
    by rewrite (NoDup_keys_eq _ _ _ _ inv_keys0 Hin Hx).
  - intros c' k Hc. destruct (inv_wait0 c' k Hc) as [(sp' & H1 & H2) H3].
    split.
    + exists sp'. split; [|done]. rewrite list_lookup_alter_ne; [done|].
      by eapply H3.
    + intros id' p' (Hin' & _)%Hsub. eauto.
  - intros k sp' (x & Hx & Hcase)%lookup_alter_Some_inv.
    destruct Hcase as [[<- ->] | [_ ->]]; [|eauto].
    simplify_eq. simpl. rewrite Hcalls. simpl. lia.
  - unfold issued in *. simpl. by rewrite omap_alter_same.
Qed.

Lemma Inv_add_reconnect st d :
  Inv st -> Inv (setTimeout Reconnect d st).1.
Proof.
  intros []. constructor; unfold waits_on, unsettled in *; simpl; try done.
  - intros id p Hin. destruct (inv_pending0 id p Hin) as (sp' & H1 & H2 & H3).
    exists sp'. split_and!; try done. by apply lookup_app_l_Some.
  - intros t id k d' [Hl | [_ Hl]]%lookup_app_Some; [eauto|].
    by apply list_lookup_singleton_Some in Hl as [_ ?].
  - unfold issued in *. simpl. rewrite omap_app, inv_issued0. simpl.
    by rewrite app_nil_r.
Qed.

Lemma Inv_disarm_reconnect st t d :
  Inv st -> timers st !! t = Some (mkTimer Reconnect d true) ->
  Inv (disarm t st).
Proof.
  intros [] Ht. constructor; unfold waits_on, unsettled in *; simpl; try done.
  - intros id p Hin. destruct (inv_pending0 id p Hin) as (sp' & H1 & H2 & H3).
    exists sp'. split_and!; try done.
    rewrite list_lookup_alter_ne; [done|]. intros ->. congruence.
  - intros t' id k d' (x & Hx & Hcase)%lookup_alter_Some_inv.
    destruct Hcase as [[_ ?] | [Hne <-]]; [done | eauto].
  - unfold issued in *. simpl. by rewrite omap_alter_same.
Qed.

Lemma reject_all_set_wsPending l m st :
  reject_all l (set_wsPending m st) = set_wsPending m (reject_all l st).
Proof.
  revert st. induction l as [|[id p] l IH]; intros st; [done|].
  unfold reject_all in *. simpl. rewrite <- IH. done.
Qed.

Lemma set_wsPending_id st : set_wsPending (_wsPending st) st = st.
Proof. by destruct st. Qed.

Lemma set_wsPending_twice m m' st :
  set_wsPending m (set_wsPending m' st) = set_wsPending m st.
Proof. done. Qed.

Lemma Inv_reject_all l st :
  Inv st -> _wsPending st = l -> Inv (set_wsPending [] (reject_all l st)).
Proof.
  revert st. induction l as [|[id p] l IH]; intros st HI Hl.
  - simpl. rewrite <- Hl. by rewrite set_wsPending_id.
  - set (st' := answer id p ByClose (Rejected (Error "WebSocket closed")) st).
    assert (Inv st') as HI'.
    { apply Inv_answer; [done|]. rewrite Hl. left. }
    assert (st' = set_wsPending l
              (pending_reject p ByClose (Error "WebSocket closed") st)) as Hst'.
    { unfold st', answer. rewrite Hl. simpl. by rewrite decide_True. }
    specialize (IH st' HI'). rewrite Hst' in IH.
    rewrite reject_all_set_wsPending, set_wsPending_twice in IH.
    by apply IH.
Qed.

Lemma Inv_on_close st : Inv st -> Inv (on_close st).
Proof.
  intros HI. unfold on_close.
  apply Inv_set_wsReconnectDelay, Inv_add_reconnect.
  apply (Inv_reject_all (_wsPending st) (set_ws None st)); [|done].
  by apply Inv_set_ws.
Qed.

Lemma Inv_on_message st s msg : Inv st -> Inv (on_message s msg st).
Proof.
  intros HI. unfold on_message.
  destruct (prop msg "type") as [ty|]; [|done].
  destruct (is_str ty "auth").
  - destruct (sockets _ !! s); [apply Inv_resolve_connect|];
      by apply Inv_set_storage, Inv_set_wsToken.
  - destruct (field msg "id"); try done.
    destruct (Map_get s0 (_wsPending st)) as [p|] eqn:Hget; [|done].
    apply assoc_Some_elem_of in Hget.
    destruct (truthy (field msg "ok")).
    + by apply (Inv_answer st s0 p BySuccess).
    + by apply (Inv_answer st s0 p ByFailure).
Qed.

Lemma Inv_run_task st t tm :
  Inv st -> timers st !! t = Some tm -> t_armed tm = true ->
  Inv (run_task tm (disarm t st)).
Proof.
  intros HI Ht Harmed. destruct tm as [task d armed]. simpl in Harmed. subst.
  unfold run_task. destruct task as [|id k]; simpl.
  - apply Inv_wsConnect. by eapply Inv_disarm_reconnect.
  - pose proof HI as []. apply inv_timer0 in Ht.
    by apply (Inv_answer st id (mkPending k t) ByTimeout).
Qed.

Theorem step_Inv st e st' : Inv st -> step st e = Some st' -> Inv st'.
Proof.
  intros HI Hstep. destruct e; simpl in Hstep.
  - simplify_eq. by apply Inv_wsConnect.
  - simplify_eq. by apply Inv_wsSend.
  - socket_cases st s.
    by apply Inv_set_wsReconnectDelay, Inv_set_readyState.
  - socket_cases st s.
    by apply Inv_on_message.
  - by socket_cases st s.
  - socket_cases st s.
    by apply Inv_set_readyState.
  - socket_cases st s;
      by apply Inv_on_close, Inv_set_readyState.
  - destruct (timers st !! t) as [tm|] eqn:Ht; [|done].
    destruct (t_armed tm) eqn:Harmed; simplify_eq.
    by eapply Inv_run_task.
Qed.

Lemma run_Inv st evs st' : Inv st -> run st evs = Some st' -> Inv st'.
Proof.
  revert st. induction evs as [|e evs IH]; intros st HI Hrun; simpl in Hrun.
  - by simplify_eq.
  - destruct (step st e) as [st1|] eqn:Hstep; [|done].
    eauto using step_Inv.
Qed.

Lemma reachable_Inv st : reachable st -> Inv st.
Proof. intros (pg & stored & evs & Hrun). eauto using run_Inv, Inv_init. Qed.

Lemma run_app st evs1 evs2 :
  run st (evs1 ++ evs2) = run st evs1 ≫= fun st1 => run st1 evs2.
Proof.
  revert st. induction evs1 as [|e evs IH]; intros st; simpl; [done|].
  destruct (step st e); [apply IH | done].
Qed.

(** ** Reconnection backoff *)

Lemma backoff_settle k c o st : backoff_view (settle k c o st) = backoff_view st.
Proof. done. Qed.

Lemma backoff_disarm t st : backoff_view (disarm t st) = backoff_view st.
Proof.
  unfold backoff_view, scheduled_delays. simpl. by rewrite omap_alter_same.
Qed.

Lemma backoff_ready k st : backoff_view (ready k st) = backoff_view st.
Proof.
  unfold ready. destruct (sends st !! k) as [sp|]; [|done].
  destruct (ws_open st); simpl; [|done].
  unfold backoff_view, scheduled_delays.
  destruct (_ws st); simpl; by rewrite omap_app, app_nil_r.
Qed.

Lemma backoff_resolve_connect c st :
  backoff_view (resolve_connect c st) = backoff_view st.
Proof.
  unfold resolve_connect. destruct (connects st !! c) as [[[] [k|]]|]; try done.
  cbn [c_state c_then]. by rewrite backoff_ready.
Qed.

Lemma backoff_wsConnect st : backoff_view (wsConnect st).1 = backoff_view st.
Proof. unfold wsConnect. by destruct (ws_open st). Qed.

Lemma backoff_connect_then c k st :
  backoff_view (connect_then c k st) = backoff_view st.
Proof.
  unfold connect_then. destruct (connects st !! c) as [[[] ?]|]; try done.
  cbn [c_state]. by rewrite backoff_ready.
Qed.

Lemma backoff_wsSend a p t st :
  backoff_view (wsSend a p t st).1 = backoff_view st.
Proof.
  unfold wsSend. destruct (ws_open _); cbn [fst].
  - by rewrite backoff_ready.
  - destruct (wsConnect _) as [st2 c] eqn:Hc. cbn [fst].
    rewrite backoff_connect_then.
    replace st2 with (wsConnect (set_sends (sends st ++
      [mkSend a (default_payload p) (default DEFAULT_TIMEOUT_MS t) []]) st)).1
      by by rewrite Hc.
    by rewrite backoff_wsConnect.
Qed.

Lemma backoff_answer id p c o st :
  backoff_view (answer id p c o st) = backoff_view st.
Proof.
  unfold answer, clearTimeout.
  by rewrite backoff_settle, backoff_disarm.
Qed.

Lemma backoff_reject_all l st :
  backoff_view (reject_all l st) = backoff_view st.
Proof.
  revert st. induction l as [|[id p] l IH]; intros st; [done|].
  unfold reject_all in *. simpl. rewrite IH.
  unfold pending_reject, clearTimeout.
  by rewrite backoff_settle, backoff_disarm.
Qed.

Lemma backoff_on_message s msg st :
  backoff_view (on_message s msg st) = backoff_view st.
Proof.
  unfold on_message. destruct (prop msg "type") as [ty|]; [|done].
  destruct (is_str ty "auth").
  - destruct (sockets _ !! s); [|done]. by rewrite backoff_resolve_connect.
  - destruct (field msg "id"); try done.
    destruct (Map_get _ _) as [p|]; [|done].
    destruct (truthy _).
    + apply (backoff_answer s0 p BySuccess).
    + apply (backoff_answer s0 p ByFailure).
Qed.

Lemma backoff_run_task tm t st :
  backoff_view (run_task tm (disarm t st)) = backoff_view st.
Proof.
  unfold run_task. destruct (t_task tm) as [|id k].
  - by rewrite backoff_wsConnect, backoff_disarm.
  - rewrite <- (backoff_disarm t st). done.
Qed.

Lemma backoff_on_close st :
  backoff_view (on_close st) =
    (N.min (_wsReconnectDelay st * 2) WS_MAX_RECONNECT_DELAY,
     scheduled_delays st ++ [_wsReconnectDelay st]).
Proof.
  unfold on_close.
  pose proof (backoff_reject_all (_wsPending st) (set_ws None st)) as Hr.
  unfold backoff_view, scheduled_delays, reject_all in *. simpl in *.
  injection Hr as Hd Hs. rewrite omap_app, Hs, Hd. done.
Qed.

Lemma step_backoff st e st' :
  step st e = Some st' ->
  backoff_view st' =
    match e with
    | SockOpen _ => (500, scheduled_delays st)
    | SockClose _ =>
        (N.min (_wsReconnectDelay st * 2) WS_MAX_RECONNECT_DELAY,
         scheduled_delays st ++ [_wsReconnectDelay st])
    | _ => backoff_view st
    end.
Proof.
  intros Hstep. destruct e; simpl in Hstep.
  - simplify_eq. apply backoff_wsConnect.
  - simplify_eq. apply backoff_wsSend.
  - by socket_cases st s.
  - socket_cases st s.
    apply backoff_on_message.
  - by socket_cases st s.
  - by socket_cases st s.
  - socket_cases st s;
      by rewrite backoff_on_close.
  - destruct (timers st !! t) as [tm|]; [|done].
    destruct (t_armed tm); simplify_eq. apply backoff_run_task.
Qed.

Lemma attempt_delay_succ k :
  (1 <= k)%nat ->
  N.min (attempt_delay k * 2) WS_MAX_RECONNECT_DELAY = attempt_delay (S k).
Proof.
  intros Hk. unfold attempt_delay, WS_MAX_RECONNECT_DELAY.
  replace (N.of_nat (S k) - 1) with (N.succ (N.of_nat k - 1)) by lia.
  rewrite N.pow_succ_r'. lia.
Qed.

Lemma backoff_run k st evs st' :
  (1 <= k)%nat -> _wsReconnectDelay st = attempt_delay k ->
  forallb (fun e => negb (is_open_event e)) evs = true ->
  run st evs = Some st' ->
  scheduled_delays st' =
    scheduled_delays st ++ (attempt_delay <$> seq k (closes evs)) /\
  _wsReconnectDelay st' = attempt_delay (k + closes evs).
Proof.
  revert k st. induction evs as [|e evs IH]; intros k st Hk Hd Hno Hrun;
    simpl in Hrun.
  - simplify_eq. simpl. by rewrite app_nil_r, Nat.add_0_r.
  - destruct (step st e) as [st1|] eqn:Hstep; [|done].
    simpl in Hno. apply andb_prop in Hno as [He Hno].
    apply step_backoff in Hstep. unfold backoff_view in Hstep.
    destruct e; try done; simpl.
    all: injection Hstep as Hd1 Hs1.
    6: { rewrite Hd, attempt_delay_succ in Hd1 by done.
         destruct (IH (S k) st1) as [IH1 IH2]; [lia|done..|].
         rewrite IH1, IH2, Hs1, Hd, <- app_assoc. simpl.
         split; [done|]. f_equal. lia. }
    all: destruct (IH k st1) as [IH1 IH2]; [done|congruence|done..|].
    all: by rewrite IH1, IH2, Hs1.
Qed.

(** C3: over a run of events without a transport [open], started where the
    delay is at its floor of 500 ms (the initial state, or any state reached
    by an [open]), the k-th [close] schedules the reconnection after
    [min(500 * 2^(k-1), 16000)] ms; and every [open] puts the delay back to
    500 ms, whatever it was. *)
Theorem reconnect_backoff_growth_and_reset :
  (forall st evs st',
      _wsReconnectDelay st = 500 ->
      forallb (fun e => negb (is_open_event e)) evs = true ->
      run st evs = Some st' ->
      scheduled_delays st' =
        scheduled_delays st ++ (attempt_delay <$> seq 1 (closes evs))) /\
  (forall st s st',
      step st (SockOpen s) = Some st' -> _wsReconnectDelay st' = 500) /\
  (forall pg stored, _wsReconnectDelay (init pg stored) = 500).
Proof.
  split_and!.
  - intros st evs st' Hd Hno Hrun.
    by destruct (backoff_run 1 st evs st') as [-> _].
  - intros st s st' Hstep. apply step_backoff in Hstep.
    by injection Hstep as ->.
  - done.
Qed.

Lemma reconnect_backoff_witness :
  scheduled_delays <$> run (init page0 None) seven_failures =
    Some [500; 1000; 2000; 4000; 8000; 16000; 16000].
Proof.
  destruct (run (init page0 None) seven_failures) as [st'|] eqn:Hrun;
    [|by vm_compute in Hrun].
  simpl. f_equal.
  rewrite (proj1 reconnect_backoff_growth_and_reset
             (init page0 None) seven_failures st' eq_refl eq_refl Hrun).
  vm_compute. reflexivity.
Defined.

(** ** Correlation ids *)

Lemma counter_ready k st :
  (_wsReqId st <= _wsReqId (ready k st) <= _wsReqId st + 1)%nat.
Proof.
  unfold ready. destruct (sends st !! k) as [sp|]; [|lia].
  destruct (ws_open st); simpl; [|lia].
  destruct (_ws st); simpl; lia.
Qed.

Lemma counter_resolve_connect c st :
  (_wsReqId st <= _wsReqId (resolve_connect c st))%nat.
Proof.
  unfold resolve_connect. destruct (connects st !! c) as [[[] [k|]]|]; try done.
  cbn [c_state c_then]. etrans; [|apply counter_ready]. done.
Qed.

Lemma counter_wsConnect st : _wsReqId (wsConnect st).1 = _wsReqId st.
Proof. unfold wsConnect. by destruct (ws_open st). Qed.

Lemma counter_wsSend a p t st :
  (_wsReqId st <= _wsReqId (wsSend a p t st).1)%nat.
Proof.
  unfold wsSend. destruct (ws_open _); cbn [fst].
  - etrans; [|apply counter_ready]. done.
  - destruct (wsConnect _) as [st2 c] eqn:Hc. cbn [fst].
    assert (_wsReqId st2 = _wsReqId st) as <-.
    { replace st2 with (wsConnect (set_sends (sends st ++
        [mkSend a (default_payload p) (default DEFAULT_TIMEOUT_MS t) []]) st)).1
        by by rewrite Hc.
      by rewrite counter_wsConnect. }
    unfold connect_then. destruct (connects st2 !! c) as [[[] ?]|]; try done.
    cbn [c_state]. apply counter_ready.
Qed.

Lemma counter_reject_all l st : _wsReqId (reject_all l st) = _wsReqId st.
Proof.
  revert st. induction l as [|[id p] l IH]; intros st; [done|].
  unfold reject_all in *. simpl. by rewrite IH.
Qed.

Lemma counter_on_close st : _wsReqId (on_close st) = _wsReqId st.
Proof.
  unfold on_close. simpl.
  apply (counter_reject_all (_wsPending st) (set_ws None st)).
Qed.

Lemma counter_on_message s msg st :
  (_wsReqId st <= _wsReqId (on_message s msg st))%nat.
Proof.
  unfold on_message. destruct (prop msg "type") as [ty|]; [|done].
  destruct (is_str ty "auth").
  - destruct (sockets _ !! s); [|done].
    etrans; [|apply counter_resolve_connect]. done.
  - destruct (field msg "id"); try done.
    destruct (Map_get _ _) as [p|]; [|done].
    by destruct (truthy _).
Qed.

(** An event never lowers [_wsReqId], and the events of a reconnection
    (the transport closing, the reconnect timer, the transport opening)
    leave it as it is. *)
Lemma step_counter st e st' :
  step st e = Some st' ->
  (_wsReqId st <= _wsReqId st')%nat /\
  match e with
  | SockClose _ | SockOpen _ | SockError _ | SockClosing _ | CallConnect =>
      _wsReqId st' = _wsReqId st
  | TimerFire t =>
      (t_task <$> timers st !! t = Some Reconnect -> _wsReqId st' = _wsReqId st)
  | _ => True
  end.
Proof.
  intros Hstep. destruct e; simpl in Hstep.
  - simplify_eq. by rewrite counter_wsConnect.
  - simplify_eq. split; [apply counter_wsSend | done].
  - by socket_cases st s.
  - socket_cases st s.
    split; [apply counter_on_message | done].
  - by socket_cases st s.
  - by socket_cases st s.
  - socket_cases st s;
      by rewrite counter_on_close.
  - destruct (timers st !! t) as [tm|]; [|done].
    destruct (t_armed tm); simplify_eq.
    unfold run_task. destruct (t_task tm) as [|id k]; simpl.
    + by rewrite counter_wsConnect.
    + done.
Qed.

(** C6: in every reachable state no two entries of [_wsPending] have the
    same id; the ids handed out so far are exactly r1, r2, ..., rN for the
    current counter N, in this order, so they are strictly increasing and
    none was handed out twice, across all connections; every id in the
    table is one of them and the next id is in neither; and no event lowers
    the counter: a close, the reconnection it schedules and the following
    open leave it unchanged. *)
Theorem correlation_ids_unique st :
  reachable st ->
  NoDup (Map_keys (_wsPending st)) /\
  issued st = req_id <$> seq 1 (_wsReqId st) /\
  NoDup (issued st) /\
  (forall id, id ∈ Map_keys (_wsPending st) -> id ∈ issued st) /\
  (req_id (_wsReqId st + 1) ∉ Map_keys (_wsPending st)) /\
  (req_id (_wsReqId st + 1) ∉ issued st) /\
  (forall e st', step st e = Some st' ->
     (_wsReqId st <= _wsReqId st')%nat /\
     match e with
     | SockClose _ | SockOpen _ | SockError _ | SockClosing _ | CallConnect =>
         _wsReqId st' = _wsReqId st
     | TimerFire t =>
         (t_task <$> timers st !! t = Some Reconnect ->
          _wsReqId st' = _wsReqId st)
     | _ => True
     end).
Proof.
  intros HI%reachable_Inv. pose proof HI as [].
  assert (Inj (=) (=) req_id) as Hinj.
  { intros n m Heq. unfold req_id in Heq. by simplify_eq. }
  split_and!; try done.
  - rewrite inv_issued0. apply (NoDup_fmap_2 _), NoDup_seq.
  - intros id ([id' p] & -> & Hin)%list_elem_of_fmap. simpl.
    destruct (inv_ids0 _ _ Hin) as (n & -> & Hn).
    rewrite inv_issued0. apply list_elem_of_fmap. exists n. split; [done|].
    apply elem_of_seq. lia.
  - apply not_elem_of_pending_keys; [done | lia].
  - rewrite inv_issued0.
    intros (n & Heq%Hinj & Hn%elem_of_seq)%list_elem_of_fmap. lia.
  - apply step_counter.
Qed.

Lemma correlation_ids_unique_witness :
  issued after_three_requests = ["r1"; "r2"; "r3"] /\
  Map_keys (_wsPending after_three_requests) = ["r3"] /\
  NoDup (issued after_three_requests).
Proof.
  assert (reachable after_three_requests) as Hreach.
  { exists page0, None, three_requests. vm_compute. reflexivity. }
  destruct (correlation_ids_unique after_three_requests Hreach)
    as (_ & -> & Hnodup & _).
  split_and!; [vm_compute; reflexivity | vm_compute; reflexivity | exact Hnodup].
Defined.

(** ** Bulk rejection on close *)

Lemma pending_sends_NoDup st : Inv st -> NoDup (pending_sends st).
Proof.
  intros []. unfold pending_sends.
  apply NoDup_fmap_2_strong; [|by eapply NoDup_fmap_1].
  intros [id1 p1] [id2 p2] H1 H2 Heq. simpl in Heq.
  assert (id1 = id2) as -> by eauto.
  f_equal. by eapply NoDup_keys_eq.
Qed.

Lemma reject_all_sends l st :
  NoDup ((fun kp : string * PendingEntry => p_send kp.2) <$> l) ->
  (forall k, k ∉ (fun kp : string * PendingEntry => p_send kp.2) <$> l ->
             sends (reject_all l st) !! k = sends st !! k) /\
  (forall id p sp, (id, p) ∈ l -> sends st !! p_send p = Some sp ->
     sends (reject_all l st) !! p_send p =
       Some (mkSend (s_action sp) (s_payload sp) (s_timeoutMs sp)
               (s_calls sp ++ [closed_call]))).
Proof.
  revert st. induction l as [|[id0 p0] l IH]; intros st Hnd.
  - split; [done|]. intros id p sp Hin. by apply elem_of_nil in Hin.
  - rewrite fmap_cons in Hnd. apply NoDup_cons in Hnd as [Hhd Hnd]. simpl in Hhd.
    set (st1 := pending_reject p0 ByClose (Error "WebSocket closed") st).
    change (reject_all ((id0, p0) :: l) st) with (reject_all l st1).
    destruct (IH st1 Hnd) as [IH1 IH2].
    assert (forall k, k <> p_send p0 -> sends st1 !! k = sends st !! k) as Hne.
    { intros k Hk. unfold st1, pending_reject, settle. simpl.
      by rewrite list_lookup_alter_ne. }
    split.
    + intros k Hk. rewrite fmap_cons in Hk.
      apply not_elem_of_cons in Hk as [Hk1 Hk2].
      rewrite IH1 by done. by apply Hne.
    + intros id p sp [Heq | Hin]%elem_of_cons Hsp.
      * simplify_eq. rewrite IH1 by done.
        unfold st1, pending_reject, settle. simpl.
        by rewrite list_lookup_alter_eq, Hsp.
      * assert (p_send p <> p_send p0) as Hp.
        { intros Heq. apply Hhd. rewrite <- Heq.
          apply list_elem_of_fmap. by exists (id, p). }
        apply (IH2 id); [done|]. by rewrite Hne.
Qed.

Lemma reject_all_timers l st t tm :
  timers st !! t = Some tm ->
  exists tm', timers (reject_all l st) !! t = Some tm' /\
    t_task tm' = t_task tm /\ t_delay tm' = t_delay tm /\
    (t_armed tm' = true ->
     t_armed tm = true /\
     t ∉ (fun kp : string * PendingEntry => p_timer kp.2) <$> l).
Proof.
  revert st tm. induction l as [|[id0 p0] l IH]; intros st tm Ht.
  - exists tm. split_and!; try done. intros ?. split; [done|].
    apply not_elem_of_nil.
  - set (st1 := pending_reject p0 ByClose (Error "WebSocket closed") st).
    change (reject_all ((id0, p0) :: l) st) with (reject_all l st1).
    destruct (decide (p_timer p0 = t)) as [Heq | Hne].
    + destruct (IH st1 (mkTimer (t_task tm) (t_delay tm) false))
        as (tm' & H1 & H2 & H3 & H4).
      { unfold st1, pending_reject, settle, clearTimeout, disarm. simpl.
        by rewrite Heq, list_lookup_alter_eq, Ht. }
      exists tm'. split_and!; try done. intros Harmed.
      by destruct (H4 Harmed).
    + destruct (IH st1 tm) as (tm' & H1 & H2 & H3 & H4).
      { unfold st1, pending_reject, settle, clearTimeout, disarm. simpl.
        by rewrite list_lookup_alter_ne. }
      exists tm'. split_and!; try done. intros Harmed.
      destruct (H4 Harmed) as [? Hnot]. split; [done|].
      rewrite fmap_cons. apply not_elem_of_cons. done.
Qed.

(** C4: when a [close] event is processed in a reachable state, the N
    entries of [_wsPending] belong to N different promises, none of them
    settled yet; the close handler itself calls the [reject] of each with
    the error 'WebSocket closed' (the only call ever made on that promise),
    disarms its timer, and leaves [_wsPending] empty. *)
Theorem close_rejects_all_pending st s st' :
  reachable st -> step st (SockClose s) = Some st' ->
  _wsPending st' = [] /\
  NoDup (pending_sends st) /\
  forall id p, (id, p) ∈ _wsPending st ->
    unsettled st (p_send p) /\
    s_calls <$> sends st' !! p_send p = Some [closed_call] /\
    settlement <$> sends st' !! p_send p =
      Some (Some (Rejected (Error "WebSocket closed"))) /\
    t_armed <$> timers st' !! p_timer p = Some false.
Proof.
  intros HI%reachable_Inv Hstep.
  pose proof (pending_sends_NoDup st HI) as Hnd. pose proof HI as [].
  assert (st' = on_close (set_readyState s CLOSED st)) as ->.
  { simpl in Hstep. by socket_cases st s. }
  split_and!; try done.
  intros id p Hin.
  destruct (inv_pending0 id p Hin) as (sp & Hsp & Hcalls & Htm).
  set (st0 := set_ws None (set_readyState s CLOSED st)).
  assert (sends (on_close (set_readyState s CLOSED st)) =
            sends (reject_all (_wsPending st) st0)) as -> by done.
  assert (timers (on_close (set_readyState s CLOSED st)) =
            timers (reject_all (_wsPending st) st0) ++
              [mkTimer Reconnect (_wsReconnectDelay st) true]) as ->.
  { unfold on_close. simpl. do 3 f_equal.
    pose proof (backoff_reject_all (_wsPending st) st0) as Hb.
    injection Hb as Hd _. exact Hd. }
  destruct (reject_all_sends (_wsPending st) st0 Hnd) as [_ Hrej].
  rewrite (Hrej id p sp Hin Hsp).
  destruct (reject_all_timers (_wsPending st) st0 _ _ Htm)
    as (tm' & Htm' & _ & _ & Harmed).
  rewrite (lookup_app_l_Some _ _ _ _ Htm'). simpl.
  unfold settlement. simpl. rewrite Hcalls. split_and!; try done.
  - by exists sp.
  - f_equal. destruct (t_armed tm'); [|done].
    destruct Harmed as [_ Hnot]; [done|]. exfalso. apply Hnot.
    apply list_elem_of_fmap. by exists (id, p).
Qed.

Lemma with_two_pending_reachable : reachable with_two_pending.
Proof. exists page0, None, two_requests. vm_compute. reflexivity. Defined.

Lemma close_rejects_all_pending_witness :
  exists st',
    step with_two_pending (SockClose 0) = Some st' /\
    Map_keys (_wsPending with_two_pending) = ["r1"; "r2"] /\
    _wsPending st' = [] /\
    s_calls <$> sends st' !! 0%nat = Some [closed_call] /\
    s_calls <$> sends st' !! 1%nat = Some [closed_call].
Proof.
  destruct (step with_two_pending (SockClose 0)) as [st'|] eqn:Hstep;
    [|by vm_compute in Hstep].
  exists st'. split; [done|]. split; [vm_compute; reflexivity|].
  destruct (close_rejects_all_pending with_two_pending 0 st'
              with_two_pending_reachable Hstep) as (Hempty & _ & Hall).
  split; [done|]. split.
  - apply (Hall "r1" (mkPending 0 0)). vm_compute. left.
  - apply (Hall "r2" (mkPending 1 1)). vm_compute. right. left.
Defined.

(** ** Per-request timeouts *)

Lemma args_settle k' c o st k :
  call_args (settle k' c o st) k = call_args st k.
Proof.
  unfold call_args, settle. simpl.
  destruct (decide (k' = k)) as [->|Hne].
  - rewrite list_lookup_alter_eq. by destruct (sends st !! k).
  - by rewrite list_lookup_alter_ne.
Qed.

Lemma args_ready k' st k : call_args (ready k' st) k = call_args st k.
Proof.
  unfold ready. destruct (sends st !! k') as [sp|]; [|done].
  destruct (ws_open st); simpl; [|apply args_settle].
  by destruct (_ws st).
Qed.

Lemma args_wsConnect st k : call_args (wsConnect st).1 k = call_args st k.
Proof. unfold wsConnect. by destruct (ws_open st). Qed.

Lemma args_connect_then c k' st k :
  call_args (connect_then c k' st) k = call_args st k.
Proof.
  unfold connect_then. destruct (connects st !! c) as [[[] ?]|]; try done;
    cbn [c_state].
  - apply args_ready.
  - apply args_settle.
Qed.

Lemma wsSend_args action payload timeoutMs st :
  (wsSend action payload timeoutMs st).2 = length (sends st) /\
  call_args (wsSend action payload timeoutMs st).1 (length (sends st)) =
    Some (action, default_payload payload,
          default DEFAULT_TIMEOUT_MS timeoutMs).
Proof.
  unfold wsSend. set (sp := mkSend _ _ _ _). set (st1 := set_sends _ st).
  assert (call_args st1 (length (sends st)) =
            Some (action, default_payload payload,
                  default DEFAULT_TIMEOUT_MS timeoutMs)) as Hst1.
  { unfold call_args, st1. simpl. by rewrite lookup_app_r, Nat.sub_diag. }
  destruct (ws_open st1); cbn [fst snd].
  - by rewrite args_ready.
  - destruct (wsConnect st1) as [st2 c] eqn:Hc. cbn [fst snd].
    rewrite args_connect_then.
    replace st2 with (wsConnect st1).1 by by rewrite Hc.
    by rewrite args_wsConnect.
Qed.

Lemma Map_get_delete {V} (m : list (string * V)) k :
  NoDup m.*1 -> Map_get k (Map_delete k m) = None.
Proof. intros Hnd. by apply assoc_None, Map_delete_keys. Qed.

(** C8: a [wsSend] call captures the timeout 30000 ms unless the caller
    gives one, and the call made by [generateImage] captures 120000 ms; the
    timer of a pending request is armed with the captured timeout; and when
    that timer fires while still armed, the entry leaves [_wsPending] and
    the promise, unsettled until then, is rejected with the message
    'Request timed out after Ns', N being the timeout in seconds rounded
    by [Math.round]. *)
Theorem request_timeouts :
  (forall st action payload timeoutMs,
      call_args (wsSend action payload timeoutMs st).1
        (wsSend action payload timeoutMs st).2 =
      Some (action, default_payload payload,
            match timeoutMs with Some t => t | None => 30000 end)) /\
  (forall st payload,
      call_args (generateImage_send payload st).1
        (generateImage_send payload st).2 =
      Some (JStr "generate", default_payload (Some payload), 120000)) /\
  (forall st id p,
      reachable st -> (id, p) ∈ _wsPending st ->
      exists d, s_timeoutMs <$> sends st !! p_send p = Some d /\
        timers st !! p_timer p =
          Some (mkTimer (RequestTimeout id (p_send p)) d true)) /\
  (forall st t id k d,
      reachable st ->
      timers st !! t = Some (mkTimer (RequestTimeout id k) d true) ->
      exists st',
        step st (TimerFire t) = Some st' /\
        s_timeoutMs <$> sends st !! k = Some d /\
        unsettled st k /\
        Map_get id (_wsPending st') = None /\
        s_calls <$> sends st' !! k =
          Some [(ByTimeout,
                 Rejected (Error ("Request timed out after " +:+
                                  pretty (round_seconds d) +:+ "s")))]) /\
  timeout_message 30000 = "Request timed out after 30s" /\
  timeout_message GENERATION_TIMEOUT_MS = "Request timed out after 120s".
Proof.
  split_and!.
  - intros st action payload timeoutMs.
    destruct (wsSend_args action payload timeoutMs st) as [-> ->].
    by destruct timeoutMs.
  - intros st payload. unfold generateImage_send.
    by destruct (wsSend_args (JStr "generate") (Some payload)
                   (Some GENERATION_TIMEOUT_MS) st) as [-> ->].
  - intros st id p [] %reachable_Inv Hin.
    destruct (inv_pending0 id p Hin) as (sp & Hsp & _ & Htm).
    exists (s_timeoutMs sp). by rewrite Hsp.
  - intros st t id k d []%reachable_Inv Ht.
    pose proof (inv_timer0 _ _ _ _ Ht) as Hin.
    destruct (inv_pending0 _ _ Hin) as (sp & Hsp & Hcalls & Htm).
    simpl in *. rewrite Ht in Htm. injection Htm as Hd.
    eexists. split; [by rewrite Ht|]. simpl. split_and!.
    + by rewrite Hsp, Hd.
    + by exists sp.
    + by apply Map_get_delete.
    + rewrite list_lookup_alter_eq, Hsp. simpl. by rewrite Hcalls.
  - vm_compute. reflexivity.
  - vm_compute. reflexivity.
Qed.

Lemma request_timeouts_witness :
  exists st',
    step with_two_pending (TimerFire 1) = Some st' /\
    Map_get "r2" (_wsPending st') = None /\
    s_calls <$> sends st' !! 1%nat =
      Some [(ByTimeout, Rejected (Error "Request timed out after 30s"))].
Proof.
  destruct (proj1 (proj2 (proj2 (proj2 request_timeouts)))
              with_two_pending 1%nat "r2" 1%nat 30000
              with_two_pending_reachable eq_refl)
    as (st' & Hstep & _ & _ & Hget & Hcalls).
  exists st'. split_and!; [done | done |].
  rewrite Hcalls. vm_compute. reflexivity.
Defined.

(** ** Token precedence *)

Lemma token_ready k st : token_view (ready k st) = token_view st.
Proof.
  unfold ready. destruct (sends st !! k) as [sp|]; [|done].
  destruct (ws_open st); simpl; [|done]. by destruct (_ws st).
Qed.

Lemma token_resolve_connect c st :
  token_view (resolve_connect c st) = token_view st.
Proof.
  unfold resolve_connect. destruct (connects st !! c) as [[[] [k|]]|]; try done.
  cbn [c_state c_then]. by rewrite token_ready.
Qed.

Lemma token_wsConnect st : token_view (wsConnect st).1 = token_view st.
Proof. unfold wsConnect. by destruct (ws_open st). Qed.

Lemma token_connect_then c k st :
  token_view (connect_then c k st) = token_view st.
Proof.
  unfold connect_then. destruct (connects st !! c) as [[[] ?]|]; try done.
  cbn [c_state]. by rewrite token_ready.
Qed.

Lemma token_wsSend a p t st : token_view (wsSend a p t st).1 = token_view st.
Proof.
  unfold wsSend. destruct (ws_open _); cbn [fst].
  - by rewrite token_ready.
  - destruct (wsConnect _) as [st2 c] eqn:Hc. cbn [fst].
    rewrite token_connect_then.
    replace st2 with (wsConnect (set_sends (sends st ++
      [mkSend a (default_payload p) (default DEFAULT_TIMEOUT_MS t) []]) st)).1
      by by rewrite Hc.
    by rewrite token_wsConnect.
Qed.

Lemma token_reject_all l st : token_view (reject_all l st) = token_view st.
Proof.
  revert st. induction l as [|[id p] l IH]; intros st; [done|].
  unfold reject_all in *. simpl. by rewrite IH.
Qed.

Lemma token_on_close st : token_view (on_close st) = token_view st.
Proof.
  unfold on_close.
  pose proof (token_reject_all (_wsPending st) (set_ws None st)) as Hr.
  unfold token_view in *. simpl in *. done.
Qed.

Lemma token_on_message s msg st :
  is_auth msg = false -> token_view (on_message s msg st) = token_view st.
Proof.
  unfold is_auth, on_message. destruct (prop msg "type") as [ty|]; [|done].
  intros ->. destruct (field msg "id"); try done.
  destruct (Map_get _ _) as [p|]; [|done]. by destruct (truthy _).
Qed.

Lemma on_message_auth s msg st :
  is_auth msg = true ->
  token_view (on_message s msg st) =
    (field msg "token", Some (ToString (field msg "token")), page st).
Proof.
  unfold is_auth, on_message. destruct (prop msg "type") as [ty|]; [|done].
  intros ->. destruct (sockets _ !! s); [|done].
  by rewrite token_resolve_connect.
Qed.

Lemma step_token st e st' :
  step st e = Some st' -> is_auth_event e = false ->
  token_view st' = token_view st.
Proof.
  intros Hstep Hna. destruct e; simpl in Hstep, Hna.
  - simplify_eq. apply token_wsConnect.
  - simplify_eq. apply token_wsSend.
  - by socket_cases st s.
  - socket_cases st s.
    by apply token_on_message.
  - by socket_cases st s.
  - by socket_cases st s.
  - socket_cases st s;
      by rewrite token_on_close.
  - destruct (timers st !! t) as [tm|]; [|done].
    destruct (t_armed tm); simplify_eq.
    unfold run_task. destruct (t_task tm); [|done].
    by rewrite token_wsConnect.
Qed.

Lemma run_token st evs st' :
  run st evs = Some st' -> forallb (fun e => negb (is_auth_event e)) evs = true ->
  token_view st' = token_view st.
Proof.
  revert st. induction evs as [|e evs IH]; intros st Hrun Hna; simpl in *.
  - by simplify_eq.
  - destruct (step st e) as [st1|] eqn:Hstep; [|done].
    apply andb_prop in Hna as [He Hna]. apply negb_true_iff in He.
    rewrite (IH st1) by done. by eapply step_token.
Qed.

Lemma connect_url_closed st :
  ws_open st = false -> connect_url st = Some (ws_url st).
Proof.
  intros Hopen. unfold connect_url.
  destruct (wsConnect_closed st Hopen) as (_ & _ & -> & _).
  by rewrite lookup_app_r, Nat.sub_diag.
Qed.

Lemma ws_url_pushed st tok :
  _wsToken st = JStr tok -> tok <> "" ->
  ws_url st = ws_base (page st) +:+ "?token=" +:+ tok.
Proof.
  intros Htok Hne.
  assert (truthy (JStr tok) = true) as Ht.
  { simpl. by destruct (String.eqb_spec tok ""). }
  unfold ws_url, js_or. rewrite Htok, Ht. by rewrite Ht.
Qed.

Lemma ws_url_fresh st fresh :
  truthy (_wsToken st) = false ->
  meta_bs_token (page st) = Some fresh -> fresh <> "" ->
  ws_url st = ws_base (page st) +:+ "?token=" +:+ fresh.
Proof.
  intros Htok Hmeta Hne.
  assert (truthy (JStr fresh) = true) as Ht.
  { simpl. by destruct (String.eqb_spec fresh ""). }
  unfold ws_url, js_or, _getInitialToken. rewrite Htok, Hmeta, Ht.
  by rewrite Ht.
Qed.

(** The reconnection scheduled by the close handler, when its timer fires
    and the transport is not open: a new socket with the URL of the state. *)
Lemma reconnect_fires st t d :
  timers st !! t = Some (mkTimer Reconnect d true) -> ws_open st = false ->
  exists st', step st (TimerFire t) = Some st' /\
    sockets st' =
      sockets st ++ [mkSocket (ws_url st) CONNECTING (length (connects st)) []].
Proof.
  intros Ht Hopen. simpl. rewrite Ht. simpl. eexists. split; [done|].
  unfold run_task. simpl.
  assert (ws_open (disarm t st) = false) as Hopen' by done.
  by destruct (wsConnect_closed _ Hopen') as (_ & _ & -> & _).
Qed.

(** C5, counterexample: a push that delivers the empty string.  The
    page has the token 'fresh' in its meta tag and 'stale' in
    [sessionStorage]; the push is stored in [_wsToken] and overwrites the
    cache, and the connection made after the close sends the token of the
    meta tag, not the pushed one. *)
Lemma empty_pushed_token_not_sent :
  _wsToken lost_after_empty_token = JStr "" /\
  storage_bs_token lost_after_empty_token = Some "" /\
  connect_url lost_after_empty_token =
    Some "wss://example.test/ws?token=fresh" /\
  ~ pushed_token_sent.
Proof.
  assert (connect_url lost_after_empty_token =
            Some "wss://example.test/ws?token=fresh") as Hurl
    by (vm_compute; reflexivity).
  split_and!; [vm_compute; reflexivity | vm_compute; reflexivity | exact Hurl |].
  intros H.
  assert (reachable connected_with_meta) as Hreach.
  { exists page_with_meta, (Some "stale"), [CallConnect; SockOpen 0].
    vm_compute. reflexivity. }
  assert (step connected_with_meta (SockMessage 0 (auth_push "")) =
            Some pushed_empty_token) as Hstep by (vm_compute; reflexivity).
  assert (run pushed_empty_token [SockClose 0] = Some lost_after_empty_token)
    as Hrun by (vm_compute; reflexivity).
  assert (ws_open lost_after_empty_token = false) as Hopen
    by (vm_compute; reflexivity).
  pose proof (H connected_with_meta 0%nat (auth_push "") ""
                pushed_empty_token [SockClose 0] lost_after_empty_token
                Hreach eq_refl eq_refl Hstep eq_refl Hrun Hopen) as Hbad.
  rewrite Hurl in Hbad. vm_compute in Hbad. discriminate.
Qed.

(** C5, amended: the token in the connection URL.  Before any
    authentication push
    ([_wsToken] still unset), a non-empty token in the page's meta tag is
    the one sent, whatever [sessionStorage] holds.  Once a push has
    delivered a non-empty token, it is cached in [sessionStorage], and
    until the next push every connection attempt, the reconnection of the
    close handler included, sends the pushed token, whatever the meta tag
    and the earlier cache hold. *)
Theorem token_precedence :
  (forall pg stored evs st fresh,
      run (init pg stored) evs = Some st ->
      forallb (fun e => negb (is_auth_event e)) evs = true ->
      meta_bs_token pg = Some fresh -> fresh <> "" ->
      ws_open st = false ->
      connect_url st = Some (ws_base pg +:+ "?token=" +:+ fresh)) /\
  (forall st s msg tok st' evs st'',
      is_auth msg = true -> field msg "token" = JStr tok -> tok <> "" ->
      step st (SockMessage s msg) = Some st' ->
      forallb (fun e => negb (is_auth_event e)) evs = true ->
      run st' evs = Some st'' ->
      storage_bs_token st'' = Some tok /\
      (ws_open st'' = false ->
       connect_url st'' = Some (ws_base (page st) +:+ "?token=" +:+ tok)) /\
      (forall t d,
          timers st'' !! t = Some (mkTimer Reconnect d true) ->
          ws_open st'' = false ->
          exists st3, step st'' (TimerFire t) = Some st3 /\
            url <$> last (sockets st3) =
              Some (ws_base (page st) +:+ "?token=" +:+ tok))).
Proof.
  split.
  - intros pg stored evs st fresh Hrun Hna Hmeta Hne Hopen.
    pose proof (run_token _ _ _ Hrun Hna) as Hv.
    unfold token_view in Hv. simpl in Hv. injection Hv as Htok Hst Hpg.
    rewrite connect_url_closed by done.
    rewrite (ws_url_fresh st fresh); rewrite ?Htok, ?Hpg; done.
  - intros st s msg tok st' evs st'' Hauth Hfield Hne Hstep Hna Hrun.
    assert (token_view st'' = (JStr tok, Some tok, page st)) as Hv.
    { rewrite (run_token _ _ _ Hrun Hna).
      simpl in Hstep. socket_cases st s.
      rewrite on_message_auth by done. by rewrite Hfield. }
    unfold token_view in Hv. injection Hv as Htok Hst Hpg.
    assert (ws_url st'' = ws_base (page st) +:+ "?token=" +:+ tok) as Hurl.
    { rewrite <- Hpg. by apply ws_url_pushed. }
    split_and!; [done| |].
    + intros Hopen. by rewrite connect_url_closed, Hurl.
    + intros t d Ht Hopen.
      destruct (reconnect_fires st'' t d Ht Hopen) as (st3 & Hstep3 & Hsock).
      exists st3. split; [done|]. by rewrite Hsock, last_snoc, <- Hurl.
Qed.

Lemma token_precedence_witness :
  connect_url (init page_with_meta (Some "stale")) =
    Some "wss://example.test/ws?token=fresh" /\
  storage_bs_token lost_with_meta = Some "pushed" /\
  connect_url lost_with_meta = Some "wss://example.test/ws?token=pushed".
Proof.
  assert ("fresh" <> "") as Hfresh by discriminate.
  assert ("pushed" <> "") as Hpushed by discriminate.
  split.
  - exact (proj1 token_precedence page_with_meta (Some "stale") []
             (init page_with_meta (Some "stale")) "fresh"
             eq_refl eq_refl eq_refl Hfresh eq_refl).
  - destruct (proj2 token_precedence connected_with_meta 0%nat
                (auth_push "pushed") "pushed" pushed_with_meta [SockClose 0]
                lost_with_meta eq_refl eq_refl Hpushed eq_refl eq_refl eq_refl)
      as (Hstored & Hurl & _).
    split; [exact Hstored | exact (Hurl eq_refl)].
Defined.

(** ** Failure frames *)

Lemma field_prop msg k v : field msg k = v -> defined v = true -> is_Some (prop msg "type").
Proof.
  unfold field, prop. destruct msg; simpl; intros <-; try done; by eexists.
Qed.

Lemma failure_frame_rejects st s msg p :
  Inv st -> socket_state st s = Some OPEN -> failure_frame_for st msg p ->
  exists st',
    step st (SockMessage s msg) = Some st' /\
    unsettled st (p_send p) /\
    s_calls <$> sends st' !! p_send p =
      Some [(ByFailure, Rejected (failure_error msg))].
Proof.
  intros [] Hs (Hna & (id & Hid & Hget) & Hok).
  destruct (field_prop msg "id" (JStr id) Hid eq_refl) as [ty Hty].
  unfold is_auth in Hna. rewrite Hty in Hna.
  apply assoc_Some_elem_of in Hget as Hin.
  destruct (inv_pending0 id p Hin) as (sp & Hsp & Hcalls & _).
  eexists. split.
  { simpl. rewrite Hs. unfold on_message.
    rewrite Hty, Hna, Hid, Hget, Hok. done. }
  split; [by exists sp|].
  unfold pending_reject, settle. simpl.
  rewrite list_lookup_alter_eq, Hsp. simpl. by rewrite Hcalls.
Qed.

(** C7, counterexample: three failure frames for the pending request r1.
    One has [current] and [attempted] but no [limit], and the rejection
    carries neither; one has the code 0, and the rejection carries 500; one
    has an empty message, and the rejection carries 'Request failed'. *)
Lemma failure_fields_not_verbatim :
  (exists e, rejection_of frame_without_limit = Some (Rejected e) /\
     field frame_without_limit "current" = JNum 10 /\ current e = None /\
     field frame_without_limit "attempted" = JNum 1 /\ attempted e = None /\
     ~ forwards frame_without_limit e) /\
  (exists e, rejection_of frame_code_zero = Some (Rejected e) /\
     code e = Some (JNum 500) /\ ~ forwards frame_code_zero e) /\
  (exists e, rejection_of frame_empty_error = Some (Rejected e) /\
     message e = "Request failed" /\ ~ forwards frame_empty_error e).
Proof.
  split_and!; eexists; (split; [vm_compute; reflexivity|]).
  - split_and!; try done. intros (_ & _ & _ & Hc & _).
    specialize (Hc eq_refl). vm_compute in Hc. done.
  - split; [done|]. intros (_ & Hc & _).
    specialize (Hc eq_refl). vm_compute in Hc. done.
  - split; [done|]. intros (Hm & _).
    specialize (Hm "" eq_refl). vm_compute in Hm. done.
Qed.

(** C7, amended: the rejection of a failure frame matching a pending
    request, made when the frame is processed, carries the frame's message
    when that is a non-empty string, the frame's code when that is truthy,
    and, when the frame has a [limit], its [limit], [current] and
    [attempted] as they are; without a [limit] the error has none of the
    three. *)
Theorem failure_fields_forwarded st s msg p :
  reachable st -> socket_state st s = Some OPEN ->
  failure_frame_for st msg p ->
  exists st' e,
    step st (SockMessage s msg) = Some st' /\
    unsettled st (p_send p) /\
    s_calls <$> sends st' !! p_send p = Some [(ByFailure, Rejected e)] /\
    (forall m, field msg "error" = JStr m -> m <> "" -> message e = m) /\
    (truthy (field msg "code") = true -> code e = Some (field msg "code")) /\
    (defined (field msg "limit") = true ->
     limit e = Some (field msg "limit") /\
     current e = Some (field msg "current") /\
     attempted e = Some (field msg "attempted")) /\
    (field msg "limit" = JUndefined ->
     limit e = None /\ current e = None /\ attempted e = None).
Proof.
  intros HI%reachable_Inv Hs Hf.
  destruct (failure_frame_rejects st s msg p HI Hs Hf) as (st' & Hstep & Hu & Hc).
  exists st', (failure_error msg). split_and!; try done.
  - intros m Hm Hne. unfold failure_error, js_or. rewrite Hm.
    assert (truthy (JStr m) = true) as ->.
    { simpl. by destruct (String.eqb_spec m ""). }
    by destruct (defined _).
  - intros Ht. unfold failure_error, js_or. rewrite Ht. by destruct (defined _).
  - intros Hd. unfold failure_error. by rewrite Hd.
  - intros Hl. unfold failure_error. by rewrite Hl.
Qed.

Lemma with_two_pending_frame msg :
  is_auth msg = false -> field msg "id" = JStr "r1" ->
  truthy (field msg "ok") = false ->
  failure_frame_for with_two_pending msg (mkPending 0 0).
Proof.
  intros Hna Hid Hok. split_and!; [done | | done]. exists "r1". by split.
Defined.

Lemma failure_fields_forwarded_witness :
  exists e,
    rejection_of frame_rate_limited = Some (Rejected e) /\
    message e = "Rate limit exceeded" /\ code e = Some (JNum 429) /\
    limit e = Some (JNum 10) /\ current e = Some (JNum 10) /\
    attempted e = Some (JNum 1).
Proof.
  destruct (failure_fields_forwarded with_two_pending 0 frame_rate_limited
              (mkPending 0 0) with_two_pending_reachable eq_refl
              (with_two_pending_frame frame_rate_limited eq_refl eq_refl eq_refl))
    as (st' & e & Hstep & _ & Hcalls & Hm & Hc & Hl & _).
  exists e. split_and!.
  - unfold rejection_of. rewrite Hstep. simpl in *.
    destruct (sends st' !! 0%nat) as [sp|]; [|done]. simpl in *.
    unfold settlement. injection Hcalls as ->. done.
  - by apply Hm.
  - by apply Hc.
  - by apply Hl.
  - by apply Hl.
  - by apply Hl.
Defined.

Lemma failure_error_reference msg :
  error_field_typed msg -> failure_error msg = reference_error msg.
Proof.
  intros Herr. unfold failure_error, reference_error, js_or.
  assert (ToString (if truthy (field msg "error") then field msg "error"
                    else JStr "Request failed") =
          match field msg "error" with
          | JStr m => if decide (m = "") then "Request failed" else m
          | _ => "Request failed"
          end) as ->.
  { destruct Herr as [Hf | [m ->]].
    - rewrite Hf. destruct (field msg "error") as [| | | |m| |]; try done.
      simpl in Hf. apply negb_false_iff, String.eqb_eq in Hf as ->. done.
    - simpl. destruct (String.eqb_spec m ""); by case_decide. }
  by destruct (field msg "limit").
Qed.

(** C10: for a failure frame matching a pending request, with an [error]
    field that is a string or missing, the promise (unsettled until then)
    is rejected, by the only call ever made on it, with exactly the error
    of the reference definition.  (A truthy [error] that is not a string is
    outside the wire protocol; the source would use its string form.) *)
Theorem failure_error_is_reference st s msg p :
  reachable st -> socket_state st s = Some OPEN ->
  failure_frame_for st msg p -> error_field_typed msg ->
  exists st',
    step st (SockMessage s msg) = Some st' /\
    unsettled st (p_send p) /\
    s_calls <$> sends st' !! p_send p =
      Some [(ByFailure, Rejected (reference_error msg))].
Proof.
  intros HI%reachable_Inv Hs Hf Herr.
  rewrite <- (failure_error_reference msg Herr).
  by apply failure_frame_rejects.
Qed.

Lemma failure_error_is_reference_witness :
  rejection_of frame_without_limit =
    Some (Rejected (mkError "Rate limit exceeded" (Some (JNum 429))
                      None None None)) /\
  rejection_of frame_code_zero =
    Some (Rejected (mkError "Bad request" (Some (JNum 500)) None None None)).
Proof.
  assert (forall msg,
            is_auth msg = false -> field msg "id" = JStr "r1" ->
            truthy (field msg "ok") = false -> error_field_typed msg ->
            rejection_of msg = Some (Rejected (reference_error msg))) as Hgen.
  { intros msg Hna Hid Hok Herr.
    destruct (failure_error_is_reference with_two_pending 0 msg (mkPending 0 0)
                with_two_pending_reachable eq_refl
                (with_two_pending_frame msg Hna Hid Hok) Herr)
      as (st' & Hstep & _ & Hcalls).
    unfold rejection_of. rewrite Hstep. simpl in *.
    destruct (sends st' !! 0%nat) as [sp|]; [|done]. simpl in *.
    unfold settlement. injection Hcalls as ->. done. }
  split.
  - rewrite Hgen; [done..|]. right. by eexists.
  - rewrite Hgen; [done..|]. right. by eexists.
Defined.

(** ** The promise of [wsConnect] *)

Lemma keeps_sockets_refl st : keeps_sockets st st.
Proof. intros s w Hw. by exists w. Qed.

Lemma keeps_sockets_trans st1 st2 st3 :
  keeps_sockets st1 st2 -> keeps_sockets st2 st3 -> keeps_sockets st1 st3.
Proof.
  intros H12 H23 s w Hw.
  destruct (H12 s w Hw) as (w2 & Hw2 & <- & <- & <-).
  destruct (H23 s w2 Hw2) as (w3 & Hw3 & <- & <- & <-). by exists w3.
Qed.

Lemma keeps_sockets_eq st st' : sockets st' = sockets st -> keeps_sockets st st'.
Proof. intros Heq s w Hw. exists w. by rewrite Heq. Qed.

Lemma keeps_sockets_app st st' l :
  sockets st' = sockets st ++ l -> keeps_sockets st st'.
Proof.
  intros Heq s w Hw. exists w. rewrite Heq. split; [|done].
  by apply lookup_app_l_Some.
Qed.

Lemma keeps_sockets_send st s f : keeps_sockets st (socket_send s f st).
Proof.
  intros s' w Hw. unfold socket_send. simpl.
  destruct (decide (s = s')) as [->|Hne].
  - eexists. rewrite list_lookup_alter_eq, Hw. done.
  - exists w. by rewrite list_lookup_alter_ne.
Qed.

Lemma keeps_ready k st :
  keeps_sockets st (ready k st) /\ connects (ready k st) = connects st.
Proof.
  unfold ready. destruct (sends st !! k) as [sp|];
    [|split; [apply keeps_sockets_refl | done]].
  destruct (ws_open st); simpl; [|split; [by apply keeps_sockets_eq | done]].
  destruct (_ws st) as [s|]; [|split; [by apply keeps_sockets_eq | done]].
  split; [|done].
  eapply keeps_sockets_trans; [|apply keeps_sockets_send].
  by apply keeps_sockets_eq.
Qed.

Lemma keeps_resolve_connect c st :
  keeps_sockets st (resolve_connect c st).
Proof.
  unfold resolve_connect.
  destruct (connects st !! c) as [[[] [k|]]|];
    try apply keeps_sockets_refl; try by apply keeps_sockets_eq.
  cbn [c_state c_then].
  eapply keeps_sockets_trans; [|apply keeps_ready]. by apply keeps_sockets_eq.
Qed.

Lemma keeps_wsConnect st : keeps_sockets st (wsConnect st).1.
Proof.
  unfold wsConnect. destruct (ws_open st); cbn [fst].
  - by apply keeps_sockets_eq.
  - by eapply keeps_sockets_app.
Qed.

Lemma keeps_connect_then c k st : keeps_sockets st (connect_then c k st).
Proof.
  unfold connect_then.
  destruct (connects st !! c) as [[[] ?]|];
    try apply keeps_sockets_refl; try by apply keeps_sockets_eq.
  cbn [c_state]. apply keeps_ready.
Qed.

Lemma keeps_wsSend a p t st : keeps_sockets st (wsSend a p t st).1.
Proof.
  unfold wsSend. set (st1 := set_sends _ st).
  assert (keeps_sockets st st1) as H1 by by apply keeps_sockets_eq.
  destruct (ws_open st1); cbn [fst].
  - eapply keeps_sockets_trans; [done | apply keeps_ready].
  - destruct (wsConnect st1) as [st2 c] eqn:Hc. cbn [fst].
    eapply keeps_sockets_trans; [|apply keeps_connect_then].
    eapply keeps_sockets_trans; [done|].
    replace st2 with (wsConnect st1).1 by by rewrite Hc.
    apply keeps_wsConnect.
Qed.

Lemma fixed_reject_all l st :
  sockets (reject_all l st) = sockets st /\
  connects (reject_all l st) = connects st.
Proof.
  revert st. induction l as [|[id p] l IH]; intros st; [done|].
  unfold reject_all in *. simpl. by destruct (IH
    (pending_reject p ByClose (Error "WebSocket closed") st)) as [-> ->].
Qed.

Lemma keeps_on_close st :
  keeps_sockets st (on_close st) /\ connects (on_close st) = connects st.
Proof.
  unfold on_close. simpl.
  destruct (fixed_reject_all (_wsPending st) (set_ws None st)) as [Hs Hc].
  split; [by apply keeps_sockets_eq | done].
Qed.

Lemma keeps_on_message s msg st : keeps_sockets st (on_message s msg st).
Proof.
  unfold on_message. destruct (prop msg "type") as [ty|];
    [|apply keeps_sockets_refl].
  destruct (is_str ty "auth").
  - destruct (sockets _ !! s); [|by apply keeps_sockets_eq].
    eapply keeps_sockets_trans; [|apply keeps_resolve_connect].
    by apply keeps_sockets_eq.
  - destruct (field msg "id"); try apply keeps_sockets_refl.
    destruct (Map_get _ _) as [p|]; [|apply keeps_sockets_refl].
    destruct (truthy _); by apply keeps_sockets_eq.
Qed.

Lemma keeps_run_task tm t st : keeps_sockets st (run_task tm (disarm t st)).
Proof.
  unfold run_task. destruct (t_task tm).
  - eapply keeps_sockets_trans; [|apply keeps_wsConnect].
    by apply keeps_sockets_eq.
  - by apply keeps_sockets_eq.
Qed.

(** A socket that exists stays, with its URL and its [resolve]; once
    closed it stays closed. *)
Lemma step_socket st e st' s w :
  step st e = Some st' -> sockets st !! s = Some w ->
  exists w', sockets st' !! s = Some w' /\ ws_resolve w' = ws_resolve w /\
    url w' = url w /\ (readyState w = CLOSED -> readyState w' = CLOSED).
Proof.
  intros Hstep Hw.
  assert (forall st1, keeps_sockets st st1 ->
            exists w', sockets st1 !! s = Some w' /\
              ws_resolve w' = ws_resolve w /\ url w' = url w /\
              (readyState w = CLOSED -> readyState w' = CLOSED)) as Hkeep.
  { intros st1 Hk. destruct (Hk s w Hw) as (w' & ? & ? & ? & <-). by exists w'. }
  assert (forall s0 r st1,
            socket_state st s0 <> Some CLOSED ->
            keeps_sockets (set_readyState s0 r st) st1 ->
            exists w', sockets st1 !! s = Some w' /\
              ws_resolve w' = ws_resolve w /\ url w' = url w /\
              (readyState w = CLOSED -> readyState w' = CLOSED)) as Hset.
  { intros s0 r st1 Hs0 Hk.
    destruct (decide (s0 = s)) as [->|Hne].
    - destruct (Hk s (mkSocket (url w) r (ws_resolve w) (ws_sent w)))
        as (w' & ? & ? & ? & ?).
      { unfold set_readyState. simpl. by rewrite list_lookup_alter_eq, Hw. }
      exists w'. split_and!; try done. intros Hc. exfalso. apply Hs0.
      unfold socket_state. by rewrite Hw, <- Hc.
    - destruct (Hk s w) as (w' & ? & ? & ? & <-).
      { unfold set_readyState. simpl. by rewrite list_lookup_alter_ne. }
      by exists w'. }
  destruct e; simpl in Hstep.
  - simplify_eq. apply Hkeep, keeps_wsConnect.
  - simplify_eq. apply Hkeep, keeps_wsSend.
  - destruct (socket_state st s0) as [[]|] eqn:Hs0; simplify_eq.
    apply (Hset s0 OPEN); [by rewrite Hs0 | by apply keeps_sockets_eq].
  - destruct (socket_state st s0) as [[]|]; simplify_eq.
    apply Hkeep, keeps_on_message.
  - destruct (socket_state st s0) as [[]|]; simplify_eq;
      apply Hkeep, keeps_sockets_refl.
  - destruct (socket_state st s0) as [[]|] eqn:Hs0; simplify_eq.
    apply (Hset s0 CLOSING); [by rewrite Hs0 | apply keeps_sockets_refl].
  - destruct (socket_state st s0) as [[]|] eqn:Hs0; simplify_eq;
      (apply (Hset s0 CLOSED); [by rewrite Hs0 | apply keeps_on_close]).
  - destruct (timers st !! t) as [tm|]; [|done].
    destruct (t_armed tm); simplify_eq. apply Hkeep, keeps_run_task.
Qed.

Lemma connects_wsConnect st c cp :
  connects st !! c = Some cp -> connects (wsConnect st).1 !! c = Some cp.
Proof.
  intros Hc. unfold wsConnect.
  destruct (ws_open st); simpl; by apply lookup_app_l_Some.
Qed.

Lemma connects_wsSend a p t st c cp :
  connects st !! c = Some cp -> connects (wsSend a p t st).1 !! c = Some cp.
Proof.
  intros Hc. unfold wsSend. set (st1 := set_sends _ st).
  destruct (ws_open st1) eqn:Hopen; cbn [fst].
  - by destruct (keeps_ready (length (sends st)) st1) as [_ ->].
  - destruct (wsConnect st1) as [st2 c'] eqn:Hconn. cbn [fst].
    destruct (wsConnect_closed st1 Hopen) as (Hc' & Hl & _).
    rewrite Hconn in Hc', Hl. simpl in Hc', Hl. subst c'.
    assert (connects st2 !! c = Some cp) as Hc2.
    { replace st2 with (wsConnect st1).1 by by rewrite Hconn.
      by apply connects_wsConnect. }
    unfold connect_then. rewrite Hl. simpl.
    rewrite list_lookup_insert_ne; [done|].
    apply lookup_lt_Some in Hc. simpl. lia.
Qed.

Lemma connects_resolve_connect c' st c cp :
  connects st !! c = Some cp -> c_state cp = PPending ->
  connects (resolve_connect c' st) !! c =
    Some (if decide (c' = c) then mkConnect PFulfilled (c_then cp) else cp).
Proof.
  intros Hc Hpend. unfold resolve_connect.
  destruct (decide (c' = c)) as [->|Hne].
  - rewrite Hc, Hpend.
    assert (connects (set_connects
              (<[c:=mkConnect PFulfilled (c_then cp)]> (connects st)) st) !! c =
            Some (mkConnect PFulfilled (c_then cp))) as Hnew.
    { simpl. apply list_lookup_insert_eq. by eapply lookup_lt_Some. }
    destruct (c_then cp) as [k|]; [|done].
    by destruct (keeps_ready k (set_connects
      (<[c:=mkConnect PFulfilled (Some k)]> (connects st)) st)) as [_ ->].
  - destruct (connects st !! c') as [[cs ct]|] eqn:Hc'; [|done].
    destruct cs; try done. cbn [c_state c_then].
    assert (connects (set_connects
              (<[c':=mkConnect PFulfilled ct]> (connects st)) st) !! c =
            Some cp) as Hnew.
    { simpl. by rewrite list_lookup_insert_ne. }
    destruct ct as [k|]; [|done].
    by destruct (keeps_ready k (set_connects
      (<[c':=mkConnect PFulfilled (Some k)]> (connects st)) st)) as [_ ->].
Qed.

(** A pending [wsConnect] promise is left as it is by every event but one:
    an authentication push on an open socket whose message handler holds
    the promise's [resolve]. *)
Lemma step_connect st e st' c cp :
  step st e = Some st' -> connects st !! c = Some cp ->
  c_state cp = PPending ->
  connects st' !! c = Some cp \/
  exists s w msg,
    e = SockMessage s msg /\ is_auth msg = true /\
    sockets st !! s = Some w /\ readyState w = OPEN /\ ws_resolve w = c /\
    connects st' !! c = Some (mkConnect PFulfilled (c_then cp)).
Proof.
  intros Hstep Hc Hpend. destruct e; simpl in Hstep.
  - simplify_eq. left. by apply connects_wsConnect.
  - simplify_eq. left. by apply connects_wsSend.
  - socket_cases st s. by left.
  - unfold socket_state in Hstep.
    destruct (sockets st !! s) as [w|] eqn:Hw; [|done]. simpl in Hstep.
    destruct (readyState w) eqn:Hr; simplify_eq.
    unfold on_message.
    destruct (prop msg "type") as [ty|] eqn:Hty; [|by left].
    destruct (is_str ty "auth") eqn:Hauth.
    + simpl. rewrite Hw.
      rewrite (connects_resolve_connect _ _ c cp) by done.
      case_decide; [right | by left]. exists s, w, msg.
      unfold is_auth. by rewrite Hty.
    + left. destruct (field msg "id"); try done.
      destruct (Map_get _ _) as [p|]; [|done]. by destruct (truthy _).
  - socket_cases st s; by left.
  - socket_cases st s. by left.
  - left. socket_cases st s;
      by destruct (keeps_on_close (set_readyState s CLOSED st)) as [_ ->].
  - left. destruct (timers st !! t) as [tm|]; [|done].
    destruct (t_armed tm); simplify_eq.
    unfold run_task. destruct (t_task tm); [|done].
    by apply connects_wsConnect.
Qed.

Lemma orphaned_step st e st' c s cp :
  Inv st -> step st e = Some st' ->
  orphaned st c s -> connects st !! c = Some cp ->
  orphaned st' c s /\ connects st' !! c = Some cp.
Proof.
  intros HI Hstep (w & cp' & Hw & Hres & Hclosed & Hc & Hpend) Hcp.
  assert (cp' = cp) as -> by congruence.
  destruct (step_socket st e st' s w Hstep Hw) as (w' & Hw' & Hres' & _ & Hcl).
  assert (connects st' !! c = Some cp) as Hc'.
  { destruct (step_connect st e st' c cp Hstep Hc Hpend)
      as [? | (s0 & w0 & msg & -> & _ & Hw0 & Hopen & Hres0 & _)]; [done|].
    exfalso. destruct HI.
    assert (s0 = s) as -> by (eapply inv_sock_inj0; [done..|congruence]).
    congruence. }
  split; [|done]. exists w', cp. split_and!; try done; [congruence | auto].
Qed.

Lemma orphaned_run st evs st' c s cp :
  Inv st -> run st evs = Some st' ->
  orphaned st c s -> connects st !! c = Some cp ->
  connects st' !! c = Some cp.
Proof.
  revert st. induction evs as [|e evs IH]; intros st HI Hrun Ho Hcp;
    simpl in Hrun.
  - by simplify_eq.
  - destruct (step st e) as [st1|] eqn:Hstep; [|done].
    destruct (orphaned_step st e st1 c s cp) as [Ho1 Hc1]; try done.
    eapply (IH st1); eauto using step_Inv.
Qed.

(** The hang: the promise of an orphaned invocation stays pending for
    good, and so does the promise of the [wsSend] whose [ready] is chained
    on it. *)
Lemma orphaned_forever st evs st' c s k :
  Inv st -> orphaned st c s -> waits_on st k c -> run st evs = Some st' ->
  waits_on st' k c /\ unsettled st' k.
Proof.
  intros HI Ho Hw Hrun.
  pose proof (orphaned_run st evs st' c s _ HI Hrun Ho Hw) as Hw'.
  split; [done|].
  pose proof (run_Inv _ _ _ HI Hrun) as []. by apply (inv_wait0 c).
Qed.



Lemma after_early_close_reachable : reachable after_early_close.
Proof. exists page0, None, early_close. vm_compute. reflexivity. Defined.

Lemma after_early_close_orphaned : orphaned after_early_close 0 0.
Proof.
  exists (mkSocket "wss://example.test/ws" CLOSED 0 []),
    (mkConnect PPending (Some 0%nat)).
  vm_compute. by split_and!.
Defined.


(** C2, at the failing input: [wsSend] is called while disconnected and
    the transport it opened closes before the authentication push.
    Whatever happens afterwards, no [resolve] or [reject] of the returned
    promise is ever called: the promise never settles. *)
Theorem wsSend_never_settles_after_early_close evs st' :
  run (init page0 None) (early_close ++ evs) = Some st' ->
  exists sp, sends st' !! 0%nat = Some sp /\ s_calls sp = [] /\
    settlement sp = None.
Proof.
  rewrite run_app.
  change (run (init page0 None) early_close) with (Some after_early_close).
  simpl. intros Hrun.
  destruct (orphaned_forever after_early_close evs st' 0 0 0) as [_ Hu];
    try done.
  - apply reachable_Inv, after_early_close_reachable.
  - apply after_early_close_orphaned.
  - destruct Hu as (sp & Hsp & Hcalls). exists sp.
    unfold settlement. by rewrite Hcalls.
Qed.

Lemma wsSend_never_settles_witness :
  exists st',
    run (init page0 None) (early_close ++ reconnected) = Some st' /\
    ws_open st' = true /\ _wsToken st' = JStr "abc" /\
    settlement <$> sends st' !! 0%nat = Some None.
Proof.
  destruct (run (init page0 None) (early_close ++ reconnected))
    as [st'|] eqn:Hrun; [|by vm_compute in Hrun].
  exists st'. split; [done|].
  destruct (wsSend_never_settles_after_early_close reconnected st' Hrun)
    as (sp & Hsp & _ & Hnone).
  split_and!; [| |by rewrite Hsp; simpl; rewrite Hnone].
  all: vm_compute in Hrun; by simplify_eq.
Defined.

(** Whatever the history, at most one call of [resolve] or [reject] is
    ever made on the promise of a [wsSend] invocation. *)
Lemma wsSend_settles_at_most_once st k sp :
  reachable st -> sends st !! k = Some sp -> (length (s_calls sp) <= 1)%nat.
Proof. intros []%reachable_Inv. eauto. Qed.

(** ** Connection attempts in flight *)

(** C1, at the failing input: a [wsConnect] call made while the current
    socket is still connecting does not join the attempt in flight.  It
    returns a new promise, constructs a second WebSocket and stores it in
    [_ws], and the first socket stays as it is: two transports are live. *)
Theorem wsConnect_while_connecting st s :
  _ws st = Some s -> socket_state st s = Some CONNECTING ->
  (wsConnect st).2 = length (connects st) /\
  connects (wsConnect st).1 !! length (connects st) =
    Some (mkConnect PPending None) /\
  sockets (wsConnect st).1 =
    sockets st ++ [mkSocket (ws_url st) CONNECTING (length (connects st)) []] /\
  _ws (wsConnect st).1 = Some (length (sockets st)) /\
  socket_state (wsConnect st).1 s = Some CONNECTING /\
  (2 <= length (live_transports (wsConnect st).1))%nat.
Proof.
  intros Hws Hs.
  assert (ws_open st = false) as Hopen.
  { unfold ws_open. rewrite Hws, Hs. done. }
  destruct (wsConnect_closed st Hopen) as (H1 & H2 & H3 & H4).
  split_and!; try done.
  - unfold socket_state in *. rewrite H3.
    destruct (sockets st !! s) as [w|] eqn:Hw; [|done].
    by rewrite (lookup_app_l_Some _ _ _ _ Hw).
  - unfold live_transports. rewrite H3, filter_app, length_app.
    unfold socket_state in Hs.
    destruct (sockets st !! s) as [w|] eqn:Hw; [|done].
    simpl in Hs. injection Hs as Hr.
    assert (w ∈ filter (fun w => live w = true) (sockets st)) as Hin.
    { apply list_elem_of_filter. split.
      - unfold live. by rewrite Hr.
      - by eapply list_elem_of_lookup_2. }
    destruct (filter (fun w => live w = true) (sockets st)) as [|w0 l];
      [by apply elem_of_nil in Hin|].
    simpl. lia.
Qed.

Lemma wsConnect_while_connecting_witness :
  readyState <$> sockets (wsConnect connecting).1 = [CONNECTING; CONNECTING] /\
  _ws (wsConnect connecting).1 = Some 1%nat /\
  (2 <= length (live_transports (wsConnect connecting).1))%nat.
Proof.
  destruct (wsConnect_while_connecting connecting 0 eq_refl eq_refl)
    as (_ & _ & Hs & Hws & _ & Hlive).
  split_and!; [by rewrite Hs | exact Hws | exact Hlive].
Defined.

(** What the second transport leads to: the socket of the first attempt
    closes after the second one is open and authenticated; its close
    handler clears [_ws] and rejects the request pending on the live
    transport. *)
Example stale_close_drops_live_transport :
  exists st,
    run (init page0 None)
      [CallConnect; CallConnect; SockOpen 1; SockMessage 1 (auth_push "abc");
       CallSend (JStr "providers") None None; SockClose 0] = Some st /\
    readyState <$> sockets st = [CLOSED; OPEN] /\
    _ws st = None /\
    (s_calls <$> sends st !! 0%nat) = Some [closed_call].
Proof. eexists. split; [vm_compute; reflexivity|]. by vm_compute. Qed.

(** The guard at the head of [ready] is reached the same way: the push
    arrives on the first socket while [_ws] is the second one, still
    connecting. *)
Example not_connected_after_second_attempt :
  exists st,
    run (init page0 None)
      [CallSend (JStr "providers") None None; CallConnect; SockOpen 0;
       SockMessage 0 (auth_push "abc")] = Some st /\
    (s_calls <$> sends st !! 0%nat) =
      Some [(ByNotConnected, Rejected (Error "WebSocket not connected"))].
Proof. eexists. split; [vm_compute; reflexivity|]. by vm_compute. Qed.

(** * Further properties of the WebSocket manager *)

(** ** Responses *)

Lemma response_step st s msg id p :
  socket_state st s = Some OPEN -> is_auth msg = false ->
  field msg "id" = JStr id -> Map_get id (_wsPending st) = Some p ->
  step st (SockMessage s msg) =
    Some (if truthy (field msg "ok")
          then answer id p BySuccess (Fulfilled (field msg "result")) st
          else answer id p ByFailure (Rejected (failure_error msg)) st).
Proof.
  intros Hs Hna Hid Hget.
  destruct (field_prop msg "id" (JStr id) Hid eq_refl) as [ty Hty].
  unfold is_auth in Hna. rewrite Hty in Hna.
  simpl. rewrite Hs. unfold on_message. rewrite Hty, Hna, Hid, Hget.
  by destruct (truthy (field msg "ok")).
Qed.

(** What taking an entry out of the table and calling one of its closures
    does to the rest of the state. *)
Lemma answer_effect st id p c o :
  Inv st -> (id, p) ∈ _wsPending st ->
  unsettled st (p_send p) /\
  s_calls <$> sends (answer id p c o st) !! p_send p = Some [(c, o)] /\
  (forall k, k <> p_send p ->
     sends (answer id p c o st) !! k = sends st !! k) /\
  t_armed <$> timers (answer id p c o st) !! p_timer p = Some false /\
  (forall t, t <> p_timer p ->
     timers (answer id p c o st) !! t = timers st !! t) /\
  _wsPending (answer id p c o st) = Map_delete id (_wsPending st) /\
  Map_get id (_wsPending (answer id p c o st)) = None /\
  (forall id' p', (id', p') ∈ _wsPending st -> id' <> id ->
     (id', p') ∈ _wsPending (answer id p c o st)).
Proof.
  intros [] Hin.
  destruct (inv_pending0 id p Hin) as (sp & Hsp & Hcalls & Htm).
  unfold answer, clearTimeout, settle, disarm. simpl. split_and!.
  - by exists sp.
  - rewrite list_lookup_alter_eq, Hsp. simpl. by rewrite Hcalls.
  - intros k Hk. by rewrite list_lookup_alter_ne.
  - by rewrite list_lookup_alter_eq, Htm.
  - intros t Ht. by rewrite list_lookup_alter_ne.
  - done.
  - by apply Map_get_delete.
  - intros id' p' Hin' Hne. by apply elem_of_Map_delete.
Qed.

(** X1: a frame that is not an authentication push, carries the id of a
    pending request and has a truthy [ok] fulfils that request's promise
    (unsettled until then) with the frame's [result], whichever open socket
    delivers it; the entry leaves the table and its timer is disarmed, and
    every other promise, timer and entry is left as it was, so responses
    are matched by id and not by the order of the requests. *)
Theorem success_response_resolves st s msg id p :
  reachable st -> socket_state st s = Some OPEN -> is_auth msg = false ->
  field msg "id" = JStr id -> Map_get id (_wsPending st) = Some p ->
  truthy (field msg "ok") = true ->
  exists st',
    step st (SockMessage s msg) = Some st' /\
    unsettled st (p_send p) /\
    s_calls <$> sends st' !! p_send p =
      Some [(BySuccess, Fulfilled (field msg "result"))] /\
    (forall k, k <> p_send p -> sends st' !! k = sends st !! k) /\
    t_armed <$> timers st' !! p_timer p = Some false /\
    (forall t, t <> p_timer p -> timers st' !! t = timers st !! t) /\
    Map_get id (_wsPending st') = None /\
    (forall id' p', (id', p') ∈ _wsPending st -> id' <> id ->
       (id', p') ∈ _wsPending st').
Proof.
  intros HI%reachable_Inv Hs Hna Hid Hget Hok.
  eexists. split.
  { rewrite (response_step st s msg id p) by done. by rewrite Hok. }
  apply assoc_Some_elem_of in Hget.
  destruct (answer_effect st id p BySuccess (Fulfilled (field msg "result"))
              HI Hget) as (? & ? & ? & ? & ? & _ & ? & ?).
  by split_and!.
Qed.

Lemma success_response_resolves_witness :
  exists st',
    step with_two_pending (SockMessage 0 response_r1) = Some st' /\
    s_calls <$> sends st' !! 0%nat =
      Some [(BySuccess, Fulfilled (JObj [("providers", JObj [])]))] /\
    Map_keys (_wsPending st') = ["r2"].
Proof.
  destruct (success_response_resolves with_two_pending 0 response_r1 "r1"
              (mkPending 0 0) with_two_pending_reachable
              eq_refl eq_refl eq_refl eq_refl eq_refl)
    as (st' & Hstep & _ & Hcalls & _).
  exists st'. split_and!; [done | exact Hcalls |].
  vm_compute in Hstep. by simplify_eq.
Defined.

(** A frame that is no push and names no pending request does nothing. *)
Lemma on_message_unmatched s msg st :
  is_auth msg = false ->
  (forall id, field msg "id" = JStr id -> Map_get id (_wsPending st) = None) ->
  on_message s msg st = st.
Proof.
  intros Hna Hnone. unfold on_message, is_auth in *.
  destruct (prop msg "type") as [ty|]; [|done]. rewrite Hna.
  destruct (field msg "id") as [| | | |id| |] eqn:Hid; try done.
  by rewrite (Hnone id).
Qed.

(** X2: an inbound frame that is not an authentication push and whose [id]
    is not a string naming a pending request (a late or duplicate
    response, a frame without an id, [null], a number) is dropped: the
    state after the event is the state before it. *)
Theorem unmatched_frame_discarded st s msg :
  socket_state st s = Some OPEN -> is_auth msg = false ->
  (forall id, field msg "id" = JStr id -> Map_get id (_wsPending st) = None) ->
  step st (SockMessage s msg) = Some st.
Proof.
  intros Hs Hna Hnone. simpl. rewrite Hs. by rewrite on_message_unmatched.
Qed.

Lemma unmatched_frame_discarded_witness :
  step with_two_pending (SockMessage 0 response_r9) = Some with_two_pending /\
  step with_two_pending (SockMessage 0 JNull) = Some with_two_pending /\
  step with_two_pending (SockMessage 0 (JObj [("id", JNum 1)])) =
    Some with_two_pending.
Proof.
  split_and!; apply unmatched_frame_discarded; try done.
  intros id [= <-]. done.
Defined.

(** X3: a response and the timeout of the same request exclude each other.
    Once the response (success or failure) was processed, the request's
    timer cannot fire and a second copy of the response is dropped; once
    the timer has fired, it cannot fire again and the late response is
    dropped. *)
Theorem response_and_timeout_exclude st s msg id p :
  reachable st -> socket_state st s = Some OPEN -> is_auth msg = false ->
  field msg "id" = JStr id -> Map_get id (_wsPending st) = Some p ->
  (exists st1,
     step st (SockMessage s msg) = Some st1 /\
     step st1 (TimerFire (p_timer p)) = None /\
     step st1 (SockMessage s msg) = Some st1) /\
  (exists st2,
     step st (TimerFire (p_timer p)) = Some st2 /\
     step st2 (TimerFire (p_timer p)) = None /\
     step st2 (SockMessage s msg) = Some st2).
Proof.
  intros HI%reachable_Inv Hs Hna Hid Hget.
  apply assoc_Some_elem_of in Hget as Hin.
  pose proof HI as [].
  destruct (inv_pending0 id p Hin) as (sp & Hsp & Hcalls & Htm).
  assert (forall c o,
            step (answer id p c o st) (TimerFire (p_timer p)) = None /\
            step (answer id p c o st) (SockMessage s msg) =
              Some (answer id p c o st)) as Hafter.
  { intros c o.
    destruct (answer_effect st id p c o HI Hin)
      as (_ & _ & _ & Harmed & _ & _ & Hnone & _).
    split.
    - apply fmap_Some in Harmed as (tm & Htm' & Hfalse).
      unfold step. by rewrite Htm', <- Hfalse.
    - apply unmatched_frame_discarded; [done | done |].
      intros id' Hid'. rewrite Hid in Hid'. by injection Hid' as <-. }
  split.
  - eexists. split; [by apply response_step|].
    destruct (truthy (field msg "ok")); apply Hafter.
  - exists (answer id p ByTimeout
              (Rejected (Error (timeout_message (s_timeoutMs sp)))) st).
    split; [|apply Hafter].
    simpl. rewrite Htm. simpl. done.
Qed.

Lemma response_and_timeout_exclude_witness :
  (exists st1,
     step with_two_pending (SockMessage 0 response_r1) = Some st1 /\
     step st1 (TimerFire 0) = None /\
     step st1 (SockMessage 0 response_r1) = Some st1) /\
  (exists st2,
     step with_two_pending (TimerFire 0) = Some st2 /\
     step st2 (TimerFire 0) = None /\
     step st2 (SockMessage 0 response_r1) = Some st2).
Proof.
  exact (response_and_timeout_exclude with_two_pending 0 response_r1 "r1"
           (mkPending 0 0) with_two_pending_reachable
           eq_refl eq_refl eq_refl eq_refl).
Defined.

(** X4: in every reachable state at most one call of [resolve] or [reject]
    was ever made on the promise of a [wsSend] invocation, and once it was
    made nothing of the request is left behind: no entry of [_wsPending]
    belongs to it, no armed timer belongs to it, and its [ready] waits on
    no connection. *)
Theorem settled_once_and_released st k sp :
  reachable st -> sends st !! k = Some sp ->
  (length (s_calls sp) <= 1)%nat /\
  (s_calls sp <> [] ->
   (forall id p, (id, p) ∈ _wsPending st -> p_send p <> k) /\
   (forall t id d,
      timers st !! t <> Some (mkTimer (RequestTimeout id k) d true)) /\
   (forall c, ~ waits_on st k c)).
Proof.
  intros []%reachable_Inv Hsp. split; [eauto|]. intros Hne.
  assert (forall id p, (id, p) ∈ _wsPending st -> p_send p <> k) as Hpend.
  { intros id p Hin <-.
    destruct (inv_pending0 id p Hin) as (sp' & Hsp' & Hcalls & _). congruence. }
  split_and!; [done | |].
  - intros t id d Ht. apply inv_timer0 in Ht. by apply Hpend in Ht.
  - intros c Hw. destruct (inv_wait0 c k Hw) as [(sp' & Hsp' & Hcalls) _].
    congruence.
Qed.

Lemma after_three_requests_reachable : reachable after_three_requests.
Proof. exists page0, None, three_requests. vm_compute. reflexivity. Defined.

Lemma settled_once_and_released_witness :
  exists sp,
    sends after_three_requests !! 0%nat = Some sp /\
    s_calls sp = [closed_call] /\
    (forall id p, (id, p) ∈ _wsPending after_three_requests ->
                  p_send p <> 0%nat).
Proof.
  eexists. split; [vm_compute; reflexivity|]. split; [reflexivity|].
  apply (settled_once_and_released after_three_requests 0 _
           after_three_requests_reachable eq_refl).
  discriminate.
Defined.

(** ** Frames written to the transport *)

Lemma ready_open_fresh st k sp :
  sends st !! k = Some sp -> ws_open st = true ->
  req_id (_wsReqId st + 1) ∉ Map_keys (_wsPending st) ->
  exists s, _ws st = Some s /\ socket_state st s = Some OPEN /\
    ready k st =
      socket_send s
        (mkFrame (req_id (_wsReqId st + 1)) (s_action sp) (s_payload sp))
        (register k sp st).
Proof.
  intros Hsp Hopen Hfresh. unfold ready. rewrite Hsp, Hopen. simpl.
  rewrite Map_set_fresh by done.
  unfold ws_open in Hopen. destruct (_ws st) as [s|] eqn:Hws; [|done].
  exists s. split; [done|]. split; [|done].
  by apply bool_decide_eq_true in Hopen.
Qed.

Lemma ready_sent st k s w :
  req_id (_wsReqId st + 1) ∉ Map_keys (_wsPending st) ->
  sockets st !! s = Some w ->
  exists w', sockets (ready k st) !! s = Some w' /\
    readyState w' = readyState w /\
    frame_written st (ready k st) s w w'.
Proof.
  intros Hfresh Hw.
  destruct (sends st !! k) as [sp|] eqn:Hsp;
    [|exists w; unfold ready; rewrite Hsp; split_and!; [done..|by left]].
  destruct (ws_open st) eqn:Hopen;
    [|exists w; rewrite (ready_closed st k sp) by done;
      split_and!; [done..|by left]].
  destruct (ready_open_fresh st k sp Hsp Hopen Hfresh)
    as (s0 & Hws & Hs0 & ->).
  unfold socket_send, register. simpl.
  destruct (decide (s0 = s)) as [->|Hne].
  - rewrite list_lookup_alter_eq, Hw. simpl. eexists. split_and!; try done.
    right. exists k, sp, (length (timers st)). simpl. split_and!; try done.
    + unfold socket_state in Hs0. rewrite Hw in Hs0. simpl in Hs0. congruence.
    + lia.
    + apply elem_of_app. right. by apply list_elem_of_singleton.
  - rewrite list_lookup_alter_ne by done. exists w. split_and!; try done.
    by left.
Qed.

Lemma fresh_id st : Inv st -> req_id (_wsReqId st + 1) ∉ Map_keys (_wsPending st).
Proof. intros HI. apply not_elem_of_pending_keys; [done | lia]. Qed.

(** The frames of an existing socket over one event *)
Lemma step_sent st e st' s w :
  Inv st -> step st e = Some st' -> sockets st !! s = Some w ->
  exists w', sockets st' !! s = Some w' /\ frame_written st st' s w w'.
Proof.
  intros HI Hstep Hw. pose proof (fresh_id st HI) as Hfresh.
  assert (forall st1, sockets st1 = sockets st ->
            exists w', sockets st1 !! s = Some w' /\ frame_written st st1 s w w')
    as Hsame.
  { intros st1 ->. exists w. split; [done | by left]. }
  assert (forall st1 l, sockets st1 = sockets st ++ l ->
            exists w', sockets st1 !! s = Some w' /\ frame_written st st1 s w w')
    as Happ.
  { intros st1 l ->. exists w. split; [by apply lookup_app_l_Some | by left]. }
  assert (forall s0 r st1,
            sockets st1 = sockets (set_readyState s0 r st) ->
            exists w', sockets st1 !! s = Some w' /\ frame_written st st1 s w w')
    as Hset.
  { intros s0 r st1 ->. unfold set_readyState. simpl.
    destruct (decide (s0 = s)) as [->|Hne].
    - rewrite list_lookup_alter_eq, Hw. simpl. eexists. split; [done | by left].
    - rewrite list_lookup_alter_ne by done. exists w. split; [done | by left]. }
  assert (forall k st1,
            sockets st1 = sockets st -> _ws st1 = _ws st ->
            _wsReqId st1 = _wsReqId st -> _wsPending st1 = _wsPending st ->
            exists w', sockets (ready k st1) !! s = Some w' /\
              frame_written st (ready k st1) s w w') as Hready.
  { intros k st1 Hs1 Hws1 Hn1 Hp1.
    destruct (ready_sent st1 k s w) as (w' & Hw' & _ & Hfw).
    - by rewrite Hn1, Hp1.
    - by rewrite Hs1.
    - exists w'. split; [done|]. unfold frame_written in *.
      by rewrite Hws1, Hn1 in Hfw. }
  destruct e; simpl in Hstep.
  - simplify_eq. unfold wsConnect. destruct (ws_open st); cbn [fst].
    + by apply Hsame.
    + by eapply Happ.
  - simplify_eq. unfold wsSend. set (st1 := set_sends _ st).
    destruct (ws_open st1) eqn:Hopen; cbn [fst].
    + by apply Hready.
    + destruct (wsConnect st1) as [st2 c] eqn:Hconn. cbn [fst].
      destruct (wsConnect_closed st1 Hopen) as (Hc & Hl & Hsock & _).
      rewrite Hconn in Hc, Hl, Hsock. simpl in Hc, Hl, Hsock. subst c.
      unfold connect_then. rewrite Hl. cbn [c_state].
      eapply Happ. simpl. exact Hsock.
  - socket_cases st s0. by eapply Hset.
  - socket_cases st s0. unfold on_message.
    destruct (prop msg "type") as [ty|]; [|by apply Hsame].
    destruct (is_str ty "auth").
    + cbn zeta.
      set (st0 := set_storage _ (set_wsToken _ st)).
      change (sockets st0) with (sockets st).
      destruct (sockets st !! s0) as [w0|]; [|by apply Hsame].
      unfold resolve_connect.
      destruct (connects st0 !! ws_resolve w0) as [[[] [k|]]|];
        try by apply Hsame.
      cbn [c_state c_then]. by apply Hready.
    + destruct (field msg "id"); try by apply Hsame.
      destruct (Map_get _ _) as [p|]; [|by apply Hsame].
      destruct (truthy _); by apply Hsame.
  - socket_cases st s0; by apply Hsame.
  - socket_cases st s0. by eapply Hset.
  - socket_cases st s0;
      (apply (Hset s0 CLOSED);
       exact (proj1 (fixed_reject_all (_wsPending st)
                       (set_ws None (set_readyState s0 CLOSED st))))).
  - destruct (timers st !! t) as [tm|]; [|done].
    destruct (t_armed tm); simplify_eq.
    unfold run_task. destruct (t_task tm); [|by apply Hsame].
    unfold wsConnect.
    destruct (ws_open (disarm t st)); cbn [fst];
      [by apply Hsame | by eapply Happ].
Qed.

(** X5: one event writes at most one frame to the transport, and only to
    the socket that is [_ws] and open at that moment; the frame carries the
    id just drawn from the counter and the action and payload of a
    [wsSend] call whose entry is in [_wsPending] under that id. *)
Theorem one_frame_on_current_open_socket st e st' s w :
  reachable st -> step st e = Some st' -> sockets st !! s = Some w ->
  exists w', sockets st' !! s = Some w' /\
    (ws_sent w' = ws_sent w \/
     exists k sp t,
       ws_sent w' =
         ws_sent w ++
           [mkFrame (req_id (_wsReqId st + 1)) (s_action sp) (s_payload sp)] /\
       _ws st = Some s /\ readyState w = OPEN /\
       _wsReqId st' = S (_wsReqId st) /\
       sends st' !! k = Some sp /\
       (req_id (_wsReqId st + 1), mkPending k t) ∈ _wsPending st').
Proof. intros HI%reachable_Inv. by apply step_sent. Qed.

Lemma one_frame_on_current_open_socket_witness :
  exists st' w',
    step with_two_pending (CallSend (JStr "tts") None None) = Some st' /\
    sockets st' !! 0%nat = Some w' /\
    f_id <$> ws_sent w' = ["r1"; "r2"; "r3"].
Proof.
  destruct (step with_two_pending (CallSend (JStr "tts") None None))
    as [st'|] eqn:Hstep; [|by vm_compute in Hstep].
  destruct (one_frame_on_current_open_socket with_two_pending
              (CallSend (JStr "tts") None None) st' 0
              (mkSocket "wss://example.test/ws" OPEN 0
                 [mkFrame "r1" (JStr "providers") (JObj []);
                  mkFrame "r2" (JStr "tts") (JObj [])])
              with_two_pending_reachable Hstep eq_refl)
    as (w' & Hw' & Hcase).
  exists st', w'. split_and!; [done | done |].
  destruct Hcase as [Hsame | (k & sp & t & -> & _)].
  - exfalso. vm_compute in Hstep. simplify_eq. vm_compute in Hw'.
    by simplify_eq.
  - rewrite fmap_app. vm_compute. reflexivity.
Defined.

(** ** The current socket *)

Lemma shape_ready k st :
  _ws (ready k st) = _ws st /\
  length (sockets (ready k st)) = length (sockets st).
Proof.
  unfold ready. destruct (sends st !! k) as [sp|]; [|done].
  destruct (ws_open st); simpl; [|done].
  destruct (_ws st) eqn:Hws; simpl; rewrite ?Hws; split; try done.
  by rewrite length_alter.
Qed.

Lemma shape_reject_all l st :
  _ws (reject_all l st) = _ws st.
Proof.
  revert st. induction l as [|[id p] l IH]; intros st; [done|].
  unfold reject_all in *. simpl. by rewrite IH.
Qed.

Lemma ws_newest_wsConnect st : ws_newest st -> ws_newest (wsConnect st).1.
Proof.
  intros Hn. unfold wsConnect, ws_newest in *.
  destruct (ws_open st); simpl; [done|].
  intros s [= <-]. rewrite length_app. simpl. lia.
Qed.

Lemma ws_newest_ready k st : ws_newest st -> ws_newest (ready k st).
Proof.
  intros Hn. unfold ws_newest. by destruct (shape_ready k st) as [-> ->].
Qed.

Lemma ws_newest_step st e st' :
  ws_newest st -> step st e = Some st' -> ws_newest st'.
Proof.
  intros Hn Hstep.
  assert (forall s r, ws_newest (set_readyState s r st)) as Hset.
  { intros s r s0 Hs0. unfold set_readyState. simpl. rewrite length_alter.
    by apply Hn. }
  destruct e; simpl in Hstep.
  - simplify_eq. by apply ws_newest_wsConnect.
  - simplify_eq. unfold wsSend. set (st1 := set_sends _ st).
    assert (ws_newest st1) as Hn1 by done.
    destruct (ws_open st1) eqn:Hopen; cbn [fst].
    + by apply ws_newest_ready.
    + destruct (wsConnect st1) as [st2 c] eqn:Hconn. cbn [fst].
      assert (ws_newest st2) as Hn2.
      { replace st2 with (wsConnect st1).1 by by rewrite Hconn.
        by apply ws_newest_wsConnect. }
      unfold connect_then. destruct (connects st2 !! c) as [[[] ?]|]; try done.
      cbn [c_state]. by apply ws_newest_ready.
  - socket_cases st s. apply Hset.
  - socket_cases st s. unfold on_message.
    destruct (prop msg "type") as [ty|]; [|done].
    destruct (is_str ty "auth").
    + simpl. destruct (sockets st !! s) as [w0|]; [|done].
      unfold resolve_connect. simpl.
      destruct (connects st !! ws_resolve w0) as [[[] [k|]]|]; try done.
      cbn [c_state c_then]. by apply ws_newest_ready.
    + destruct (field msg "id"); try done.
      destruct (Map_get _ _) as [p|]; [|done]. by destruct (truthy _).
  - by socket_cases st s.
  - socket_cases st s. apply Hset.
  - assert (_ws st' = None) as Hnone.
    { socket_cases st s; unfold on_close; simpl; apply shape_reject_all. }
    intros s0 Hs0. congruence.
  - destruct (timers st !! t) as [tm|]; [|done].
    destruct (t_armed tm); simplify_eq.
    unfold run_task. destruct (t_task tm); [|done].
    by apply ws_newest_wsConnect.
Qed.

Lemma ws_newest_run st evs st' :
  ws_newest st -> run st evs = Some st' -> ws_newest st'.
Proof.
  revert st. induction evs as [|e evs IH]; intros st Hn Hrun; simpl in Hrun.
  - by simplify_eq.
  - destruct (step st e) as [st1|] eqn:Hstep; [|done].
    eauto using ws_newest_step.
Qed.

Lemma reachable_ws_newest st : reachable st -> ws_newest st.
Proof.
  intros (pg & stored & evs & Hrun). eapply ws_newest_run; [|done].
  intros s Hs. done.
Qed.

Lemma sockets_grow_step st e st' :
  step st e = Some st' -> (length (sockets st) <= length (sockets st'))%nat.
Proof.
  intros Hstep.
  destruct (decide (length (sockets st) = 0%nat)) as [->|Hne]; [lia|].
  destruct (lookup_lt_is_Some_2 (sockets st) (length (sockets st) - 1))
    as [w Hw]; [lia|].
  destruct (step_socket st e st' _ w Hstep Hw) as (w' & Hw' & _).
  apply lookup_lt_Some in Hw'. lia.
Qed.

(** X6: in every reachable state [_ws] is null or the socket constructed
    last; a socket that is no longer the last one is never written to
    again, whatever follows, even while it stays open. *)
Theorem superseded_socket_never_written st :
  reachable st ->
  (forall s, _ws st = Some s -> S s = length (sockets st)) /\
  (forall s w evs st',
      sockets st !! s = Some w -> (S s < length (sockets st))%nat ->
      run st evs = Some st' ->
      ws_sent <$> sockets st' !! s = Some (ws_sent w)).
Proof.
  intros Hreach. split; [by apply reachable_ws_newest|].
  intros s w evs. revert st Hreach w.
  induction evs as [|e evs IH]; intros st Hreach w st' Hw Hlt Hrun;
    simpl in Hrun.
  - simplify_eq. by rewrite Hw.
  - destruct (step st e) as [st1|] eqn:Hstep; [|done].
    destruct (step_sent st e st1 s w (reachable_Inv st Hreach) Hstep Hw)
      as (w1 & Hw1 & Hcase).
    assert (ws_sent w1 = ws_sent w) as <-.
    { destruct Hcase as [? | (k & sp & t & _ & Hws & _)]; [done|].
      apply (reachable_ws_newest st Hreach) in Hws. lia. }
    apply (IH st1); [|done| |done].
    + destruct Hreach as (pg & stored & evs0 & Hrun0).
      exists pg, stored, (evs0 ++ [e]). rewrite run_app, Hrun0. simpl.
      by rewrite Hstep.
    + pose proof (sockets_grow_step st e st1 Hstep). lia.
Qed.

Lemma superseded_socket_never_written_witness :
  _ws with_two_sockets = Some 1%nat /\
  (readyState <$> sockets after_second_socket !! 0%nat) = Some CLOSING /\
  (ws_sent <$> sockets after_second_socket !! 0%nat) =
    Some [mkFrame "r1" (JStr "providers") (JObj [])] /\
  ((fun w => f_id <$> ws_sent w) <$> sockets after_second_socket !! 1%nat) =
    Some ["r2"; "r3"].
Proof.
  assert (reachable with_two_sockets) as Hreach.
  { exists page0, None, two_sockets_open. vm_compute. reflexivity. }
  destruct (superseded_socket_never_written with_two_sockets Hreach)
    as [_ Hnever].
  split_and!;
    [vm_compute; reflexivity | vm_compute; reflexivity | |
     vm_compute; reflexivity].
  assert (sockets with_two_sockets !! 0%nat =
            Some (mkSocket "wss://example.test/ws" CLOSING 0
                    [mkFrame "r1" (JStr "providers") (JObj [])])) as Hw
    by (vm_compute; reflexivity).
  assert (run with_two_sockets on_second_socket = Some after_second_socket)
    as Hrun by (vm_compute; reflexivity).
  assert (1 < length (sockets with_two_sockets))%nat as Hlt
    by (vm_compute; lia).
  exact (Hnever _ _ _ _ Hw Hlt Hrun).
Defined.

(** ** Closing and reconnecting *)





(** ** The cached token on the next page load *)

(** X8: the token of the last authentication push is the one cached in
    [sessionStorage], and it is what a later page load in the same tab
    connects with when that page brings no token of its own: the state of
    a freshly loaded page whose meta tag is missing or empty, started from
    the [sessionStorage] the earlier session left, builds the URL with the
    pushed token, and without any token parameter when the pushed token
    was the empty string. *)
Theorem cached_token_used_after_reload st s msg tok st' evs st'' pg' :
  is_auth msg = true -> field msg "token" = JStr tok ->
  step st (SockMessage s msg) = Some st' ->
  forallb (fun e => negb (is_auth_event e)) evs = true ->
  run st' evs = Some st'' ->
  meta_bs_token pg' = None \/ meta_bs_token pg' = Some "" ->
  storage_bs_token st'' = Some tok /\
  connect_url (init pg' (storage_bs_token st'')) =
    Some (ws_base pg' +:+
          (if String.eqb tok "" then "" else "?token=" +:+ tok)).
Proof.
  intros Hauth Hfield Hstep Hna Hrun Hmeta.
  assert (storage_bs_token st'' = Some tok) as Hsto.
  { simpl in Hstep. socket_cases st s.
    pose proof (run_token _ _ _ Hrun Hna) as Hv.
    rewrite on_message_auth in Hv by done. rewrite Hfield in Hv.
    unfold token_view in Hv. by injection Hv as _ -> _. }
  split; [done|]. rewrite Hsto.
  rewrite connect_url_closed by done.
  unfold ws_url, js_or, _getInitialToken. simpl.
  destruct Hmeta as [-> | ->]; simpl; by destruct (String.eqb tok "").
Qed.

Lemma cached_token_used_after_reload_witness :
  connect_url (init page_without_meta (storage_bs_token lost_with_meta)) =
    Some "ws://shop.test/ws?token=pushed" /\
  connect_url
    (init page_without_meta (storage_bs_token lost_after_empty_token)) =
    Some "ws://shop.test/ws".
Proof.
  assert (step connected_with_meta (SockMessage 0 (auth_push "pushed")) =
            Some pushed_with_meta) as H1 by (vm_compute; reflexivity).
  assert (run pushed_with_meta [SockClose 0] = Some lost_with_meta) as H2
    by (vm_compute; reflexivity).
  assert (step connected_with_meta (SockMessage 0 (auth_push "")) =
            Some pushed_empty_token) as H3 by (vm_compute; reflexivity).
  assert (run pushed_empty_token [SockClose 0] = Some lost_after_empty_token)
    as H4 by (vm_compute; reflexivity).
  split.
  - exact (proj2 (cached_token_used_after_reload connected_with_meta 0
                    (auth_push "pushed") "pushed" pushed_with_meta
                    [SockClose 0] lost_with_meta page_without_meta
                    eq_refl eq_refl H1 eq_refl H2 (or_introl eq_refl))).
  - exact (proj2 (cached_token_used_after_reload connected_with_meta 0
                    (auth_push "") "" pushed_empty_token
                    [SockClose 0] lost_after_empty_token page_without_meta
                    eq_refl eq_refl H3 eq_refl H4 (or_introl eq_refl))).
Defined.

(** ** Authentication pushes *)

Lemma on_message_auth_eq s msg st :
  is_auth msg = true ->
  on_message s msg st =
    let st2 := set_storage (Some (ToString (field msg "token")))
                 (set_wsToken (field msg "token") st) in
    match sockets st !! s with
    | Some w => resolve_connect (ws_resolve w) st2
    | None => st2
    end.
Proof.
  unfold is_auth, on_message. destruct (prop msg "type") as [ty|]; [|done].
  by intros ->.
Qed.

Lemma ready_keeps_pending k st x :
  req_id (_wsReqId st + 1) ∉ Map_keys (_wsPending st) ->
  x ∈ _wsPending st -> x ∈ _wsPending (ready k st).
Proof.
  intros Hfresh Hx.
  destruct (sends st !! k) as [sp|] eqn:Hsp;
    [|by unfold ready; rewrite Hsp].
  destruct (ws_open st) eqn:Hopen; [|by rewrite (ready_closed st k sp)].
  destruct (ready_open_fresh st k sp Hsp Hopen Hfresh) as (s & _ & _ & ->).
  simpl. apply elem_of_app. by left.
Qed.

(** X9: an authentication push is never taken for a response.  Whatever
    else the frame carries (an [id] of a pending request, an [ok]), the
    handler stores the token in [_wsToken] and in [sessionStorage], and
    every pending request stays in the table, unsettled and with its timer
    armed. *)
Theorem auth_push_is_no_response st s msg st' :
  reachable st -> is_auth msg = true ->
  step st (SockMessage s msg) = Some st' ->
  _wsToken st' = field msg "token" /\
  storage_bs_token st' = Some (ToString (field msg "token")) /\
  forall id p, (id, p) ∈ _wsPending st ->
    (id, p) ∈ _wsPending st' /\ unsettled st' (p_send p) /\
    t_armed <$> timers st' !! p_timer p = Some true.
Proof.
  intros HI%reachable_Inv Hauth Hstep.
  pose proof (step_Inv _ _ _ HI Hstep) as HI'.
  simpl in Hstep. socket_cases st s.
  pose proof (on_message_auth s msg st Hauth) as Hv.
  unfold token_view in Hv. injection Hv as Htok Hsto _.
  split_and!; [done | done |].
  intros id p Hin.
  assert ((id, p) ∈ _wsPending (on_message s msg st)) as Hin'.
  { rewrite on_message_auth_eq by done. cbn zeta.
    destruct (sockets st !! s) as [w|]; [|done].
    unfold resolve_connect. simpl.
    destruct (connects st !! ws_resolve w) as [[[] [k|]]|]; try done.
    cbn [c_state c_then]. apply ready_keeps_pending; [|done].
    exact (fresh_id st HI). }
  split; [done|].
  destruct (inv_pending _ HI' id p Hin') as (sp & Hsp & Hcalls & ->).
  split; [by exists sp | done].
Qed.

Lemma auth_push_is_no_response_witness :
  exists st',
    step with_two_pending (SockMessage 0 push_with_id) = Some st' /\
    _wsToken st' = JStr "renewed" /\
    Map_keys (_wsPending st') = ["r1"; "r2"] /\
    unsettled st' 0.
Proof.
  destruct (step with_two_pending (SockMessage 0 push_with_id))
    as [st'|] eqn:Hstep; [|by vm_compute in Hstep].
  destruct (auth_push_is_no_response with_two_pending 0 push_with_id st'
              with_two_pending_reachable eq_refl Hstep)
    as (Htok & _ & Hkeep).
  exists st'. split_and!; [done | done | |].
  - vm_compute in Hstep. by simplify_eq.
  - apply (Hkeep "r1" (mkPending 0 0)). vm_compute. left.
Defined.

(** ** Whole exchanges *)

Lemma assoc_snoc_fresh {V} (m : list (string * V)) k v :
  k ∉ m.*1 -> assoc k (m ++ [(k, v)]) = Some v.
Proof.
  induction m as [|[k' v'] m IH]; simpl.
  - intros _. by rewrite decide_True.
  - rewrite not_elem_of_cons. intros [Hne Hk].
    rewrite decide_False by done. auto.
Qed.

Lemma Map_delete_snoc_fresh {V} (m : list (string * V)) k v :
  k ∉ m.*1 -> Map_delete k (m ++ [(k, v)]) = m.
Proof.
  induction m as [|[k' v'] m IH]; simpl.
  - intros _. by rewrite decide_True.
  - rewrite not_elem_of_cons. intros [Hne Hk].
    rewrite decide_False by done. by rewrite IH.
Qed.

Lemma Map_delete_app_fresh {V} (m l : list (string * V)) k :
  k ∉ m.*1 -> Map_delete k (m ++ l) = m ++ Map_delete k l.
Proof.
  induction m as [|[k' v'] m IH]; simpl; [done|].
  rewrite not_elem_of_cons. intros [Hne Hk].
  rewrite decide_False by done. by rewrite IH.
Qed.

Lemma assoc_app_fresh {V} (m l : list (string * V)) k :
  k ∉ m.*1 -> assoc k (m ++ l) = assoc k l.
Proof.
  induction m as [|[k' v'] m IH]; simpl; [done|].
  rewrite not_elem_of_cons. intros [Hne Hk].
  rewrite decide_False by done. auto.
Qed.


(** [wsSend] while the transport is open: the request is registered and
    its frame written at once. *)
Lemma wsSend_open action payload timeoutMs st :
  Inv st -> ws_open st = true ->
  exists s, _ws st = Some s /\ socket_state st s = Some OPEN /\
    (wsSend action payload timeoutMs st).1 =
      let sp := mkSend action (default_payload payload)
                  (default DEFAULT_TIMEOUT_MS timeoutMs) [] in
      socket_send s
        (mkFrame (req_id (_wsReqId st + 1)) action (default_payload payload))
        (register (length (sends st)) sp (set_sends (sends st ++ [sp]) st)).
Proof.
  intros HI Hopen. unfold wsSend. set (sp := mkSend _ _ _ _).
  set (st1 := set_sends _ st).
  assert (ws_open st1 = true) as Hopen1 by done. rewrite Hopen1. cbn [fst].
  destruct (ready_open_fresh st1 (length (sends st)) sp) as (s & ? & ? & ->);
    try done.
  - unfold st1. simpl. by rewrite lookup_app_r, Nat.sub_diag.
  - exact (fresh_id st HI).
  - by exists s.
Qed.

Lemma run_cons_Some st e st1 evs :
  step st e = Some st1 -> run st (e :: evs) = run st1 evs.
Proof. intros Hstep. simpl. by rewrite Hstep. Qed.

Lemma sent_registered s f k sp st :
  let st' := socket_send s f (register k sp st) in
  _wsPending st' =
    _wsPending st ++
      [(req_id (_wsReqId st + 1), mkPending k (length (timers st)))] /\
  timers st' =
    timers st ++
      [mkTimer (RequestTimeout (req_id (_wsReqId st + 1)) k)
         (s_timeoutMs sp) true] /\
  sends st' = sends st /\
  sockets st' =
    alter (fun w => mkSocket (url w) (readyState w) (ws_resolve w)
                      (ws_sent w ++ [f])) s (sockets st) /\
  _wsToken st' = _wsToken st /\
  _wsReqId st' = (_wsReqId st + 1)%nat /\
  _ws st' = _ws st.
Proof. done. Qed.

Lemma answered id p c o st :
  let st' := answer id p c o st in
  _wsPending st' = Map_delete id (_wsPending st) /\
  sends st' =
    alter (fun sp => mkSend (s_action sp) (s_payload sp) (s_timeoutMs sp)
                       (s_calls sp ++ [(c, o)])) (p_send p) (sends st) /\
  sockets st' = sockets st /\ _wsToken st' = _wsToken st /\
  _wsReqId st' = _wsReqId st /\ _ws st' = _ws st.
Proof. done. Qed.






(** What [wsSend] leaves behind on an open transport. *)
Lemma wsSend_open_fields action payload timeoutMs st :
  Inv st -> ws_open st = true ->
  let st1 := (wsSend action payload timeoutMs st).1 in
  _wsPending st1 =
    _wsPending st ++
      [(req_id (_wsReqId st + 1),
        mkPending (length (sends st)) (length (timers st)))] /\
  sends st1 =
    sends st ++ [mkSend action (default_payload payload)
                   (default DEFAULT_TIMEOUT_MS timeoutMs) []] /\
  length (timers st1) = S (length (timers st)) /\
  _wsReqId st1 = (_wsReqId st + 1)%nat /\
  ws_open st1 = true /\
  forall s', socket_state st1 s' = socket_state st s'.
Proof.
  intros HI Hopen.
  destruct (wsSend_open action payload timeoutMs st HI Hopen)
    as (s & Hws & Hs & ->).
  cbn zeta.
  set (sp := mkSend action (default_payload payload)
               (default DEFAULT_TIMEOUT_MS timeoutMs) []).
  set (f := mkFrame (req_id (_wsReqId st + 1)) action (default_payload payload)).
  set (st0 := set_sends (sends st ++ [sp]) st).
  destruct (sent_registered s f (length (sends st)) sp st0)
    as (Hp & Ht & Hse & Hso & _ & Hn & Hws').
  assert (forall s', socket_state (socket_send s f (register (length (sends st)) sp st0)) s'
                     = socket_state st s') as Hss.
  { intros s'. unfold socket_state. rewrite Hso.
    change (sockets st0) with (sockets st).
    destruct (decide (s = s')) as [->|Hne].
    - rewrite list_lookup_alter_eq. by destruct (sockets st !! s').
    - by rewrite list_lookup_alter_ne. }
  split_and!; try done.
  - rewrite Ht, length_app. simpl. change (timers st0) with (timers st). lia.
  - unfold ws_open. rewrite Hws'. change (_ws st0) with (_ws st).
    rewrite Hws, Hss. by apply bool_decide_eq_true.
Qed.

(** X11: two calls made back to back on an open transport and answered in
    the opposite order.  Each promise is fulfilled with the [result] of
    the response that carries its own id, and [_wsPending] is afterwards
    what it was before the calls. *)
Theorem responses_matched_out_of_order st s a1 p1 a2 p2 v1 v2 :
  reachable st -> ws_open st = true -> socket_state st s = Some OPEN ->
  let k := length (sends st) in
  let id1 := req_id (_wsReqId st + 1) in
  let id2 := req_id (_wsReqId st + 2) in
  exists st',
    run st [CallSend a1 p1 None; CallSend a2 p2 None;
            SockMessage s (success_frame id2 v2);
            SockMessage s (success_frame id1 v1)] = Some st' /\
    s_calls <$> sends st' !! k = Some [(BySuccess, Fulfilled v1)] /\
    s_calls <$> sends st' !! S k = Some [(BySuccess, Fulfilled v2)] /\
    _wsPending st' = _wsPending st.
Proof.
  intros Hreach Hopen Hs k id1 id2.
  pose proof (reachable_Inv st Hreach) as HI.
  pose proof (fresh_id st HI) as Hfresh1. fold id1 in Hfresh1.
  set (sp1 := mkSend a1 (default_payload p1) DEFAULT_TIMEOUT_MS []).
  set (sp2 := mkSend a2 (default_payload p2) DEFAULT_TIMEOUT_MS []).
  set (t := length (timers st)).
  (* the first call *)
  set (st1 := (wsSend a1 p1 None st).1).
  assert (step st (CallSend a1 p1 None) = Some st1) as E1 by done.
  assert (Inv st1) as HI1 by exact (step_Inv st _ _ HI E1).
  destruct (wsSend_open_fields a1 p1 None st HI Hopen)
    as (Hp1 & Hse1 & Ht1 & Hn1 & Hopen1 & Hss1).
  fold st1 in Hp1, Hse1, Ht1, Hn1, Hopen1, Hss1.
  clearbody st1.
  (* the second call *)
  set (st2 := (wsSend a2 p2 None st1).1).
  assert (step st1 (CallSend a2 p2 None) = Some st2) as E2 by done.
  destruct (wsSend_open_fields a2 p2 None st1 HI1 Hopen1)
    as (Hp2 & Hse2 & _ & _ & _ & Hss2).
  fold st2 in Hp2, Hse2, Hss2.
  clearbody st2.
  assert (req_id (_wsReqId st1 + 1) = id2) as Hid2.
  { unfold id2. rewrite Hn1. f_equal. lia. }
  assert (length (sends st1) = S k) as Hk2.
  { rewrite Hse1, length_app. simpl. unfold k. lia. }
  rewrite Hid2, Hk2, Ht1, Hp1, <- app_assoc in Hp2.
  rewrite Hse1, <- app_assoc in Hse2.
  change (default DEFAULT_TIMEOUT_MS None) with DEFAULT_TIMEOUT_MS in Hse2.
  fold sp1 sp2 in Hse2. fold id1 k t in Hp2. cbn [app] in Hp2, Hse2.
  assert (id1 <> id2) as Hne12.
  { unfold id1, id2, req_id. intros Heq. simplify_eq. lia. }
  assert (id2 ∉ (_wsPending st).*1) as Hfresh2.
  { apply (not_elem_of_pending_keys st); [done | lia]. }
  (* the response to the second call *)
  assert (Map_get id2 (_wsPending st2) = Some (mkPending (S k) (S t))) as Hget2.
  { rewrite Hp2. unfold Map_get. rewrite assoc_app_fresh by done. simpl.
    rewrite decide_False by done. by rewrite decide_True. }
  assert (socket_state st2 s = Some OPEN) as Hs2 by (by rewrite Hss2, Hss1).
  pose proof (response_step st2 s (success_frame id2 v2) id2 _
                Hs2 eq_refl eq_refl Hget2) as E3.
  change (truthy (field (success_frame id2 v2) "ok")) with true in E3.
  cbn iota in E3.
  change (field (success_frame id2 v2) "result") with v2 in E3.
  set (st3 := answer id2 (mkPending (S k) (S t)) BySuccess (Fulfilled v2) st2).
  fold st3 in E3.
  destruct (answered id2 (mkPending (S k) (S t)) BySuccess (Fulfilled v2) st2)
    as (Hp3 & Hse3 & Hso3 & _).
  fold st3 in Hp3, Hse3, Hso3.
  change (p_send (mkPending (S k) (S t))) with (S k) in Hse3.
  clearbody st3.
  rewrite Hp2, Map_delete_app_fresh in Hp3 by done.
  assert (Map_delete id2 [(id1, mkPending k t); (id2, mkPending (S k) (S t))]
          = [(id1, mkPending k t)]) as Hdel.
  { simpl. rewrite decide_False by done. by rewrite decide_True. }
  rewrite Hdel in Hp3.
  (* the response to the first call *)
  assert (Map_get id1 (_wsPending st3) = Some (mkPending k t)) as Hget1.
  { rewrite Hp3. by apply assoc_snoc_fresh. }
  assert (socket_state st3 s = Some OPEN) as Hs3.
  { unfold socket_state. rewrite Hso3. exact Hs2. }
  pose proof (response_step st3 s (success_frame id1 v1) id1 _
                Hs3 eq_refl eq_refl Hget1) as E4.
  change (truthy (field (success_frame id1 v1) "ok")) with true in E4.
  cbn iota in E4.
  change (field (success_frame id1 v1) "result") with v1 in E4.
  eexists. split.
  { rewrite (run_cons_Some _ _ _ _ E1), (run_cons_Some _ _ _ _ E2),
      (run_cons_Some _ _ _ _ E3), (run_cons_Some _ _ _ _ E4). done. }
  destruct (answered id1 (mkPending k t) BySuccess (Fulfilled v1) st3)
    as (-> & -> & _).
  change (p_send (mkPending k t)) with k.
  rewrite Hp3, Hse3, Hse2.
  assert (length (sends st) = k) as Hk by done.
  split_and!.
  - rewrite list_lookup_alter_eq, list_lookup_alter_ne by lia.
    rewrite lookup_app_r by lia. by rewrite Hk, Nat.sub_diag.
  - rewrite list_lookup_alter_ne, list_lookup_alter_eq by lia.
    rewrite lookup_app_r by lia. rewrite Hk.
    by replace (S k - k)%nat with 1%nat by lia.
  - by apply Map_delete_snoc_fresh.
Qed.

Lemma responses_matched_out_of_order_witness :
  exists st',
    run connected
      [CallSend (JStr "providers") None None;
       CallSend (JStr "tts") (Some (JObj [("text", JStr "hi")])) None;
       SockMessage 0 (success_frame "r2" (JStr "audio"));
       SockMessage 0 (success_frame "r1" (JStr "list"))] = Some st' /\
    s_calls <$> sends st' !! 0%nat = Some [(BySuccess, Fulfilled (JStr "list"))] /\
    s_calls <$> sends st' !! 1%nat = Some [(BySuccess, Fulfilled (JStr "audio"))] /\
    _wsPending st' = [].
Proof.
  assert (reachable connected) as Hreach.
  { exists page0, None,
      [CallConnect; SockOpen 0; SockMessage 0 (auth_push "abc")].
    vm_compute. reflexivity. }
  destruct (responses_matched_out_of_order connected 0
              (JStr "providers") None (JStr "tts")
              (Some (JObj [("text", JStr "hi")])) (JStr "list") (JStr "audio")
              Hreach eq_refl eq_refl)
    as (st' & Hrun & H1 & H2 & Hp).
  exists st'. by split_and!.
Defined.

(** ** The reference gallery *)

(** [((index % n) + n) % n] is the mathematical [index mod n]. *)
Lemma bounded_mod index n : (0 < n)%Z -> bounded index n = (index mod n)%Z.
Proof.
  intros Hn. unfold bounded.
  pose proof (Z.rem_bound_abs index n ltac:(lia)) as Habs.
  pose proof (Z.quot_rem' index n) as Hqr.
  rewrite Z.rem_mod_nonneg by lia.
  rewrite <- (Z_mod_plus_full (Z.rem index n + n) (Z.quot index n - 1) n).
  f_equal. lia.
Qed.

Lemma bounded_range index n : (0 < n)%Z -> (0 <= bounded index n < n)%Z.
Proof. intros Hn. rewrite bounded_mod by done. by apply Z.mod_pos_bound. Qed.

Lemma foldl_push_fields g files :
  length (referenceItems (foldl push_reference g files)) =
    (length (referenceItems g) + length files)%nat /\
  selectedReferenceIndex (foldl push_reference g files) =
    selectedReferenceIndex g /\
  revoked_urls (foldl push_reference g files) = revoked_urls g /\
  generatedImageDataUrl (foldl push_reference g files) =
    generatedImageDataUrl g /\
  generatedFilename (foldl push_reference g files) = generatedFilename g.
Proof.
  revert g. induction files as [|file files IH]; intros g; simpl.
  - split_and!; try done; lia.
  - destruct (IH (push_reference g file)) as (-> & -> & -> & -> & ->).
    simpl. rewrite length_app. simpl. split_and!; try done; lia.
Qed.

Lemma ids_push g file : ids_increasing g -> ids_increasing (push_reference g file).
Proof.
  intros [Hinc Hlt]. split.
  - intros i j x y Hx Hy Hij. simpl in Hx, Hy.
    apply lookup_app_Some in Hy as [Hy | [Hlen Hy]].
    + apply lookup_app_Some in Hx as [Hx | [Hlen' _]].
      * by eapply Hinc.
      * apply lookup_lt_Some in Hy. lia.
    + apply list_lookup_singleton_Some in Hy as [Hj <-]. simpl.
      apply lookup_app_Some in Hx as [Hx | [Hlen' Hx]].
      * by apply Hlt in Hx.
      * apply list_lookup_singleton_Some in Hx as [Hx _]. lia.
  - intros i x Hx. simpl in Hx |- *.
    apply lookup_app_Some in Hx as [Hx | [_ Hx]].
    + apply Hlt in Hx. lia.
    + apply list_lookup_singleton_Some in Hx as [_ <-]. simpl. lia.
Qed.

Lemma urls_push g file : urls_accounted g -> urls_accounted (push_reference g file).
Proof.
  unfold urls_accounted, push_reference. intros Hp.
  cbn [referenceItems object_urls revoked_urls].
  rewrite fmap_app, seq_S, <- Hp. simpl. solve_Permutation.
Qed.

Lemma ids_foldl_push g files :
  ids_increasing g -> ids_increasing (foldl push_reference g files).
Proof.
  revert g. induction files as [|file files IH]; intros g Hg; [done|].
  simpl. by apply IH, ids_push.
Qed.

Lemma urls_foldl_push g files :
  urls_accounted g -> urls_accounted (foldl push_reference g files).
Proof.
  revert g. induction files as [|file files IH]; intros g Hg; [done|].
  simpl. by apply IH, urls_push.
Qed.

(** [addReferenceFiles] differs from the pushes in the selection only. *)
Lemma addReferenceFiles_fields files selectLast g :
  let g1 := foldl push_reference g files in
  let g' := addReferenceFiles files selectLast g in
  referenceItems g' = referenceItems g1 /\
  nextReferenceId g' = nextReferenceId g1 /\
  object_urls g' = object_urls g1 /\
  revoked_urls g' = revoked_urls g /\
  generatedImageDataUrl g' = generatedImageDataUrl g /\
  generatedFilename g' = generatedFilename g /\
  selectedReferenceIndex g' =
    (if selectLast && negb (length (referenceItems g1) =? 0)%nat
     then Z.of_nat (length (referenceItems g1)) - 1
     else selectedReferenceIndex g)%Z.
Proof.
  cbn zeta. unfold addReferenceFiles.
  destruct (foldl_push_fields g files) as (_ & Hsel & Hrev & Hgen & Hname).
  destruct (selectLast && _); simpl; by rewrite ?Hsel, ?Hrev, ?Hgen, ?Hname.
Qed.

Lemma ids_same_items g g' :
  referenceItems g' = referenceItems g -> nextReferenceId g' = nextReferenceId g ->
  ids_increasing g -> ids_increasing g'.
Proof. unfold ids_increasing. by intros -> ->. Qed.

Lemma urls_same g g' :
  referenceItems g' = referenceItems g -> object_urls g' = object_urls g ->
  revoked_urls g' = revoked_urls g ->
  urls_accounted g -> urls_accounted g'.
Proof. unfold urls_accounted. by intros -> -> ->. Qed.

Lemma ids_addReferenceFiles files selectLast g :
  ids_increasing g -> ids_increasing (addReferenceFiles files selectLast g).
Proof.
  intros Hg.
  destruct (addReferenceFiles_fields files selectLast g) as (H1 & H2 & _).
  eapply ids_same_items; [done | done |]. by apply ids_foldl_push.
Qed.

Lemma urls_addReferenceFiles files selectLast g :
  urls_accounted g -> urls_accounted (addReferenceFiles files selectLast g).
Proof.
  intros Hg.
  destruct (addReferenceFiles_fields files selectLast g)
    as (H1 & _ & H3 & H4 & _).
  eapply urls_same; [done | done | | by apply urls_foldl_push].
  rewrite H4. by destruct (foldl_push_fields g files) as (_ & _ & -> & _).
Qed.

(** [removeReferenceAt] on an index of the list, and elsewhere. *)
Lemma removeReferenceAt_outside index g :
  (index < 0 \/ Z.of_nat (length (referenceItems g)) <= index)%Z ->
  removeReferenceAt index g = g.
Proof.
  intros Hout. unfold removeReferenceAt.
  destruct (index <? 0)%Z eqn:H1; [done|].
  destruct (Z.of_nat (length (referenceItems g)) <=? index)%Z eqn:H2; [done|].
  lia.
Qed.

Lemma removeReferenceAt_inside i item g :
  referenceItems g !! i = Some item ->
  removeReferenceAt (Z.of_nat i) g =
    mkGallery (delete i (referenceItems g))
      (if (length (delete i (referenceItems g)) =? 0)%nat then -1
       else Z.min (Z.of_nat i)
              (Z.of_nat (length (delete i (referenceItems g))) - 1))%Z
      (nextReferenceId g) (generatedImageDataUrl g) (generatedFilename g)
      (object_urls g) (revoked_urls g ++ [r_url item]).
Proof.
  intros Hi. pose proof (lookup_lt_Some _ _ _ Hi) as Hlt.
  unfold removeReferenceAt.
  destruct (Z.of_nat i <? 0)%Z eqn:H1; [lia|].
  destruct (Z.of_nat (length (referenceItems g)) <=? Z.of_nat i)%Z eqn:H2;
    [lia|].
  simpl. rewrite Nat2Z.id, Hi. done.
Qed.

Lemma removeReferenceAt_cases index g :
  removeReferenceAt index g = g \/
  exists i item, index = Z.of_nat i /\ referenceItems g !! i = Some item.
Proof.
  destruct (decide (index < 0 \/ Z.of_nat (length (referenceItems g)) <= index)%Z)
    as [Hout|Hin].
  - left. by apply removeReferenceAt_outside.
  - right. exists (Z.to_nat index).
    destruct (lookup_lt_is_Some_2 (referenceItems g) (Z.to_nat index))
      as [item Hitem]; [lia|].
    exists item. split; [lia | done].
Qed.

Lemma ids_removeReferenceAt index g :
  ids_increasing g -> ids_increasing (removeReferenceAt index g).
Proof.
  intros [Hinc Hlt].
  destruct (removeReferenceAt_cases index g) as [-> | (i & item & -> & Hi)];
    [done|].
  rewrite (removeReferenceAt_inside i item g Hi).
  assert (forall j x, delete i (referenceItems g) !! j = Some x ->
            exists j', referenceItems g !! j' = Some x /\
                       j' = if decide (j < i)%nat then j else S j) as Hdel.
  { intros j x Hx. destruct (decide (j < i)%nat).
    - rewrite list_lookup_delete_lt in Hx by done. by exists j.
    - rewrite list_lookup_delete_ge in Hx by lia. by exists (S j). }
  split; simpl.
  - intros j1 j2 x y Hx Hy Hlt12.
    apply Hdel in Hx as (j1' & Hx & ->). apply Hdel in Hy as (j2' & Hy & ->).
    eapply Hinc; [done | done |]. repeat case_decide; lia.
  - intros j x Hx. apply Hdel in Hx as (j' & Hx & _). by eapply Hlt.
Qed.

Lemma urls_removeReferenceAt index g :
  urls_accounted g -> urls_accounted (removeReferenceAt index g).
Proof.
  unfold urls_accounted. intros Hp.
  destruct (removeReferenceAt_cases index g) as [-> | (i & item & -> & Hi)];
    [done|].
  rewrite (removeReferenceAt_inside i item g Hi). simpl.
  rewrite <- Hp.
  rewrite (delete_Permutation (referenceItems g) i item Hi) at 2.
  simpl. solve_Permutation.
Qed.

Lemma urls_clearReferences g :
  urls_accounted g -> urls_accounted (clearReferences g).
Proof.
  unfold urls_accounted. intros Hp. simpl. rewrite <- Hp. solve_Permutation.
Qed.

Lemma ids_clearReferences g : ids_increasing (clearReferences g).
Proof. split; simpl; intros *; by rewrite lookup_nil. Qed.

Lemma gallery_step_ids g e : ids_increasing g -> ids_increasing (gallery_step g e).
Proof.
  intros Hg. destruct e as [files sl|index| |index|url name]; simpl.
  - by apply ids_addReferenceFiles.
  - by apply ids_removeReferenceAt.
  - apply ids_clearReferences.
  - unfold selectReference. by destruct (_ =? _)%nat.
  - by apply ids_addReferenceFiles.
Qed.

Lemma gallery_step_urls g e : urls_accounted g -> urls_accounted (gallery_step g e).
Proof.
  intros Hg. destruct e as [files sl|index| |index|url name]; simpl.
  - by apply urls_addReferenceFiles.
  - by apply urls_removeReferenceAt.
  - by apply urls_clearReferences.
  - unfold selectReference. by destruct (_ =? _)%nat.
  - by apply urls_addReferenceFiles.
Qed.

Lemma gallery_run_snoc g evs e :
  gallery_run g (evs ++ [e]) = gallery_step (gallery_run g evs) e.
Proof. unfold gallery_run. by rewrite foldl_app. Qed.

Lemma selection_addReferenceFiles files selectLast g :
  selection_valid g ->
  selection_valid (addReferenceFiles files selectLast g) /\
  (selectLast = true -> selection_present g ->
   selection_present (addReferenceFiles files selectLast g)).
Proof.
  intros Hv. unfold selection_valid, selection_present in *.
  destruct (addReferenceFiles_fields files selectLast g)
    as (-> & _ & _ & _ & _ & _ & ->).
  destruct (foldl_push_fields g files) as (Hlen & _).
  destruct (referenceItems (foldl push_reference g files)) as [|x l] eqn:Hitems;
    simpl in *.
  - rewrite andb_false_r. split; [lia|]. intros _ Hp.
    destruct (referenceItems g); [|simpl in Hlen; lia]. tauto.
  - destruct selectLast; simpl.
    + split; [lia|]. intros _ _. split; [lia | done].
    + split; [lia | done].
Qed.

Lemma selection_removeReferenceAt index g :
  selection_valid g ->
  selection_valid (removeReferenceAt index g) /\
  (selection_present g -> selection_present (removeReferenceAt index g)).
Proof.
  intros Hv.
  destruct (removeReferenceAt_cases index g) as [-> | (i & item & -> & Hi)];
    [done|].
  rewrite (removeReferenceAt_inside i item g Hi).
  unfold selection_valid, selection_present. simpl.
  destruct (delete i (referenceItems g)) as [|x l]; simpl.
  - split; [by left | done].
  - split; [lia|]. intros _. split; [lia | done].
Qed.

Lemma selection_selectReference index g :
  selection_valid (selectReference index g) /\
  selection_present (selectReference index g).
Proof.
  unfold selectReference, selection_valid, selection_present.
  destruct (referenceItems g) as [|x l] eqn:Hitems;
    cbn [length Nat.eqb]; unfold set_selectedReferenceIndex;
    cbn [selectedReferenceIndex referenceItems].
  - rewrite Hitems. split; [by left | done].
  - rewrite Hitems.
    assert (0 < Z.of_nat (length (x :: l)))%Z as Hpos by (cbn [length]; lia).
    pose proof (bounded_range index _ Hpos) as Hb. cbn [length] in Hb.
    split; [by right|]. split; [lia | done].
Qed.

Lemma gallery_step_selection g e :
  selection_valid g ->
  selection_valid (gallery_step g e) /\
  (selects_last e -> selection_present g ->
   selection_present (gallery_step g e)).
Proof.
  intros Hv. destruct e as [files sl|index| |index|url name]; simpl.
  - by apply selection_addReferenceFiles.
  - destruct (selection_removeReferenceAt index g Hv). by split.
  - split; [by left | done].
  - destruct (selection_selectReference index g). by split.
  - destruct (selection_addReferenceFiles [mkFile name] true
                (set_generated url name g) Hv) as [H1 H2].
    split; [done|]. intros _ Hp. by apply H2.
Qed.

(** X12: [selectedReferenceIndex] is always -1 or the index of an
    existing reference, whatever is added, removed, selected or cleared,
    in whatever order; and as long as [addReferenceFiles] is called with
    [selectLast] true, as every call site does, it is -1 exactly when
    there is no reference. *)
Theorem selection_tracks_references evs :
  let g := gallery_run gallery0 evs in
  selection_valid g /\ (Forall selects_last evs -> selection_present g).
Proof.
  cbn zeta. induction evs as [|e evs IH] using rev_ind.
  - split; [by left | done].
  - rewrite gallery_run_snoc. destruct IH as [Hv Hp].
    destruct (gallery_step_selection (gallery_run gallery0 evs) e Hv)
      as [Hv' Hp'].
    split; [done|]. intros [Hevs He]%Forall_app.
    rewrite Forall_singleton in He. apply Hp'; [done | by apply Hp].
Qed.

Lemma selection_tracks_references_witness :
  let g := gallery_run gallery0 gallery_history in
  selection_valid g /\ selection_present g.
Proof.
  destruct (selection_tracks_references gallery_history) as [Hv Hp].
  split; [exact Hv|]. apply Hp. unfold gallery_history.
  repeat constructor.
Defined.

Lemma gallery_run_ids evs : ids_increasing (gallery_run gallery0 evs).
Proof.
  induction evs as [|e evs IH] using rev_ind.
  - split; simpl; intros *; by rewrite lookup_nil.
  - rewrite gallery_run_snoc. by apply gallery_step_ids.
Qed.

Lemma gallery_run_urls evs : urls_accounted (gallery_run gallery0 evs).
Proof.
  induction evs as [|e evs IH] using rev_ind.
  - unfold urls_accounted. simpl. reflexivity.
  - rewrite gallery_run_snoc. by apply gallery_step_urls.
Qed.

Lemma push_reference_fresh g file :
  (nextReferenceId g <= nextReferenceId (push_reference g file))%Z /\
  (forall item, item ∈ referenceItems (push_reference g file) ->
     item ∈ referenceItems g \/ (nextReferenceId g <= r_id item)%Z).
Proof.
  split; [simpl; lia|]. simpl. intros item [Hin | Hin]%elem_of_app; [by left|].
  apply list_elem_of_singleton in Hin as ->. right. simpl. lia.
Qed.

Lemma foldl_push_fresh g files :
  (nextReferenceId g <= nextReferenceId (foldl push_reference g files))%Z /\
  (forall item, item ∈ referenceItems (foldl push_reference g files) ->
     item ∈ referenceItems g \/ (nextReferenceId g <= r_id item)%Z).
Proof.
  revert g. induction files as [|file files IH]; intros g; simpl.
  - split; [lia | by left].
  - destruct (IH (push_reference g file)) as [Hn Hitems].
    destruct (push_reference_fresh g file) as [Hn' Hitems'].
    split; [lia|]. intros item [Hin | Hge]%Hitems.
    + destruct (Hitems' item Hin) as [|]; [by left | by right].
    + right. lia.
Qed.

(** One event: [nextReferenceId] never goes down, and a reference found
    afterwards was there before or has an id that was not given out
    yet. *)
Lemma gallery_step_fresh g e :
  (nextReferenceId g <= nextReferenceId (gallery_step g e))%Z /\
  (forall item, item ∈ referenceItems (gallery_step g e) ->
     item ∈ referenceItems g \/ (nextReferenceId g <= r_id item)%Z).
Proof.
  assert (forall files sl g0,
            (nextReferenceId g0 <=
               nextReferenceId (addReferenceFiles files sl g0))%Z /\
            (forall item,
               item ∈ referenceItems (addReferenceFiles files sl g0) ->
               item ∈ referenceItems g0 \/ (nextReferenceId g0 <= r_id item)%Z))
    as Hadd.
  { intros files sl g0.
    destruct (addReferenceFiles_fields files sl g0) as (-> & -> & _).
    apply foldl_push_fresh. }
  destruct e as [files sl|index| |index|url name]; simpl.
  - apply Hadd.
  - destruct (removeReferenceAt_cases index g) as [-> | (i & item & -> & Hi)].
    { split; [lia | by left]. }
    rewrite (removeReferenceAt_inside i item g Hi). simpl.
    split; [lia|]. intros x (j & Hj)%list_elem_of_lookup. left.
    destruct (decide (j < i)%nat).
    + rewrite list_lookup_delete_lt in Hj by done.
      by eapply list_elem_of_lookup_2.
    + rewrite list_lookup_delete_ge in Hj by lia.
      by eapply list_elem_of_lookup_2.
  - split; [lia|]. intros item Hin. by apply elem_of_nil in Hin.
  - unfold selectReference. destruct (_ =? _)%nat; (split; [simpl; lia | by left]).
  - apply (Hadd [mkFile name] true (set_generated url name g)).
Qed.

Lemma gallery_run_fresh g evs :
  (nextReferenceId g <= nextReferenceId (gallery_run g evs))%Z /\
  (forall item, item ∈ referenceItems (gallery_run g evs) ->
     item ∈ referenceItems g \/ (nextReferenceId g <= r_id item)%Z).
Proof.
  induction evs as [|e evs [Hn Hitems]] using rev_ind.
  - split; [simpl; lia | by left].
  - rewrite gallery_run_snoc.
    destruct (gallery_step_fresh (gallery_run g evs) e) as [Hn' Hitems'].
    split; [lia|]. intros item [Hin | Hge]%Hitems'.
    + by apply Hitems.
    + right. lia.
Qed.

Lemma gallery_run_app g evs evs' :
  gallery_run (gallery_run g evs) evs' = gallery_run g (evs ++ evs').
Proof. unfold gallery_run. by rewrite foldl_app. Qed.

(** X13: no id is given out twice.  At every moment the ids of the
    references grow along [referenceItems] and lie below
    [nextReferenceId], which never goes down; so whatever happens
    afterwards, a reference of the gallery either was there already, with
    the same id, file and URL, or has an id that had not been given out:
    the id of a reference, removed or not, is never given to another
    one. *)
Theorem reference_ids_never_reused evs evs' :
  let g := gallery_run gallery0 evs in
  let g' := gallery_run g evs' in
  ids_increasing g' /\ NoDup (r_id <$> referenceItems g') /\
  (nextReferenceId g <= nextReferenceId g')%Z /\
  (forall item, item ∈ referenceItems g -> (r_id item < nextReferenceId g)%Z) /\
  (forall item, item ∈ referenceItems g' ->
     item ∈ referenceItems g \/ (nextReferenceId g <= r_id item)%Z) /\
  (forall old new,
     old ∈ referenceItems g -> new ∈ referenceItems g' ->
     r_id new = r_id old -> new = old).
Proof.
  cbn zeta. rewrite gallery_run_app.
  pose proof (gallery_run_ids (evs ++ evs')) as Hids'.
  pose proof (gallery_run_ids evs) as [Hinc Hlt].
  rewrite <- gallery_run_app in Hids' |- *.
  destruct (gallery_run_fresh (gallery_run gallery0 evs) evs') as [Hn Hitems].
  assert (forall item, item ∈ referenceItems (gallery_run gallery0 evs) ->
            (r_id item < nextReferenceId (gallery_run gallery0 evs))%Z) as Hbelow.
  { intros item (i & Hi)%list_elem_of_lookup. by eapply Hlt. }
  split_and!; try done.
  - destruct Hids' as [Hinc' _].
    apply NoDup_alt. intros i j x Hi Hj.
    apply list_lookup_fmap_Some in Hi as (a & -> & Ha).
    apply list_lookup_fmap_Some in Hj as (b & Hab & Hb).
    destruct (Nat.lt_trichotomy i j) as [Hij | [-> | Hij]]; [|done|].
    + pose proof (Hinc' _ _ _ _ Ha Hb Hij). lia.
    + pose proof (Hinc' _ _ _ _ Hb Ha Hij). lia.
  - intros old new Hold Hnew Hid.
    destruct (Hitems new Hnew) as [Hin | Hge].
    + apply list_elem_of_lookup in Hin as (i & Hi).
      apply list_elem_of_lookup in Hold as (j & Hj).
      destruct (Nat.lt_trichotomy i j) as [Hij | [-> | Hij]].
      * pose proof (Hinc _ _ _ _ Hi Hj Hij). lia.
      * congruence.
      * pose proof (Hinc _ _ _ _ Hj Hi Hij). lia.
    + specialize (Hbelow old Hold). lia.
Qed.

Lemma reference_ids_never_reused_witness :
  r_id <$> referenceItems (gallery_run gallery0 [AddFiles three_files true]) =
    [1; 2; 3]%Z /\
  r_id <$> referenceItems
             (gallery_run (gallery_run gallery0 [AddFiles three_files true])
                [ClearAll; AddFiles three_files true]) = [4; 5; 6]%Z /\
  NoDup (r_id <$> referenceItems
                    (gallery_run (gallery_run gallery0 [AddFiles three_files true])
                       [ClearAll; AddFiles three_files true])).
Proof.
  split; [vm_compute; reflexivity|]. split; [vm_compute; reflexivity|].
  apply (reference_ids_never_reused [AddFiles three_files true]
           [ClearAll; AddFiles three_files true]).
Defined.

(** X14: the object URLs are accounted for.  At every moment the URLs of
    the references together with the URLs revoked so far are, up to
    order, exactly the URLs [URL.createObjectURL] has handed out, each of
    them once: no URL is revoked twice, none is revoked while its
    reference is still in the gallery, and none is left behind by a
    removed reference. *)
Theorem object_urls_accounted evs :
  let g := gallery_run gallery0 evs in
  urls_accounted g /\
  NoDup (revoked_urls g) /\
  (forall item, item ∈ referenceItems g -> r_url item ∉ revoked_urls g) /\
  (forall u, (u < object_urls g)%nat ->
     u ∈ r_url <$> referenceItems g \/ u ∈ revoked_urls g).
Proof.
  cbn zeta. pose proof (gallery_run_urls evs) as Hp.
  split; [done|]. unfold urls_accounted in Hp.
  assert (NoDup ((r_url <$> referenceItems (gallery_run gallery0 evs)) ++
                 revoked_urls (gallery_run gallery0 evs))) as Hnd.
  { rewrite Hp. apply NoDup_seq. }
  apply NoDup_app in Hnd as (_ & Hdisj & Hrev).
  split_and!; [done | |].
  - intros item Hin. apply Hdisj. by apply list_elem_of_fmap_2.
  - intros u Hu. apply elem_of_app. rewrite Hp. apply elem_of_seq. lia.
Qed.

Lemma object_urls_accounted_witness :
  let g := gallery_run gallery0 gallery_history in
  object_urls g = 5%nat /\ r_url <$> referenceItems g = [2; 3; 4]%nat /\
  revoked_urls g = [1; 0]%nat /\ urls_accounted g.
Proof.
  cbn zeta. split_and!; [vm_compute; reflexivity ..|].
  apply (object_urls_accounted gallery_history).
Defined.

(** X15: [removeReferenceAt] outside the list changes nothing.  On an
    index of the list it removes that reference and no other, revokes its
    URL and no other, and moves the selection to the reference that
    followed the removed one, or to the new last one, or to -1 when none
    is left, whichever reference was selected before. *)
Theorem removeReferenceAt_effect index g :
  let g' := removeReferenceAt index g in
  match (if (index <? 0)%Z then None else referenceItems g !! Z.to_nat index) with
  | None => g' = g
  | Some removed =>
      referenceItems g' = delete (Z.to_nat index) (referenceItems g) /\
      revoked_urls g' = revoked_urls g ++ [r_url removed] /\
      match referenceItems g !! S (Z.to_nat index) with
      | Some next =>
          selectedReferenceIndex g' = index /\
          referenceItems g' !! Z.to_nat index = Some next
      | None =>
          selectedReferenceIndex g' = (index - 1)%Z /\
          S (Z.to_nat index) = length (referenceItems g)
      end
  end.
Proof.
  cbn zeta. destruct (index <? 0)%Z eqn:Hneg.
  { apply removeReferenceAt_outside. lia. }
  assert (exists i, index = Z.of_nat i) as [i ->]
    by (exists (Z.to_nat index); lia).
  rewrite Nat2Z.id.
  destruct (referenceItems g !! i) as [removed|] eqn:Hi.
  2:{ apply removeReferenceAt_outside. apply lookup_ge_None in Hi. lia. }
  rewrite (removeReferenceAt_inside _ _ _ Hi). simpl.
  split; [done|]. split; [done|].
  pose proof (lookup_lt_Some _ _ _ Hi) as Hlt.
  pose proof (length_delete (referenceItems g) i ltac:(by eexists)) as Hlen.
  destruct (referenceItems g !! S i) as [next|] eqn:Hnext.
  - pose proof (lookup_lt_Some _ _ _ Hnext) as Hlt'.
    rewrite list_lookup_delete_ge by lia. split; [|done].
    destruct (Nat.eqb_spec (length (delete i (referenceItems g))) 0); lia.
  - apply lookup_ge_None in Hnext. split; [|lia].
    destruct (Nat.eqb_spec (length (delete i (referenceItems g))) 0); lia.
Qed.

Lemma removeReferenceAt_effect_witness :
  selectedReferenceIndex three_references = 2%Z /\
  selectedReferenceIndex (removeReferenceAt 0 three_references) = 0%Z /\
  referenceItems (removeReferenceAt 0 three_references) !! 0%nat =
    Some (mkReference 2 (mkFile "b.png") 1) /\
  revoked_urls (removeReferenceAt 0 three_references) = [0%nat].
Proof.
  pose proof (removeReferenceAt_effect 0 three_references) as H.
  vm_compute in H. destruct H as (_ & Hrev & Hsel & Hnext).
  split; [vm_compute; reflexivity|]. vm_compute. by split_and!.
Defined.

(** X16: [selectReference] wraps around.  With [n] references, [n > 0],
    it selects [index mod n] for every integer [index], next after the
    last being the first and -1 the last; the references themselves stay
    as they are. *)
Theorem selectReference_wraps index g :
  referenceItems g <> [] ->
  let n := Z.of_nat (length (referenceItems g)) in
  selectedReferenceIndex (selectReference index g) = (index mod n)%Z /\
  (0 <= selectedReferenceIndex (selectReference index g) < n)%Z /\
  referenceItems (selectReference index g) = referenceItems g /\
  revoked_urls (selectReference index g) = revoked_urls g.
Proof.
  intros Hne. cbn zeta. unfold selectReference.
  destruct (referenceItems g) as [|x l] eqn:Hitems; [done|].
  simpl length. cbn [Nat.eqb]. simpl selectedReferenceIndex.
  rewrite bounded_mod by lia.
  pose proof (Z.mod_pos_bound index (Z.of_nat (S (length l))) ltac:(lia)).
  split_and!; try done; lia.
Qed.

Lemma selectReference_wraps_witness :
  selectedReferenceIndex (selectReference 3 three_references) = 0%Z /\
  selectedReferenceIndex (selectReference (-1) three_references) = 2%Z.
Proof.
  assert (referenceItems three_references <> []) as Hne by done.
  destruct (selectReference_wraps 3 three_references Hne) as (-> & _).
  destruct (selectReference_wraps (-1) three_references Hne) as (-> & _).
  done.
Defined.

(** ** The lightbox *)

Lemma item_at_Some items index item :
  item_at items index = Some item <->
  (0 <= index)%Z /\ items !! Z.to_nat index = Some item.
Proof.
  unfold item_at. destruct (index <? 0)%Z eqn:Hneg.
  - split; [done | lia].
  - split; [split; [lia | done] | by intros [_ ?]].
Qed.

Lemma showLightboxItem_Some index lb item :
  item_at (lightboxItems lb) index = Some item ->
  lightboxItems (showLightboxItem index lb) = lightboxItems lb /\
  lightboxIndex (showLightboxItem index lb) = index /\
  lightbox_src (showLightboxItem index lb) = Some (l_url item) /\
  lightbox_hidden (showLightboxItem index lb) = lightbox_hidden lb.
Proof. unfold showLightboxItem. by intros ->. Qed.

Lemma showLightboxItem_None index lb :
  item_at (lightboxItems lb) index = None -> showLightboxItem index lb = lb.
Proof. unfold showLightboxItem. by intros ->. Qed.

Lemma cycleLightbox_many step lb :
  (1 < length (lightboxItems lb))%nat ->
  let next := ((lightboxIndex lb + step) mod
               Z.of_nat (length (lightboxItems lb)))%Z in
  exists item,
    item_at (lightboxItems lb) next = Some item /\
    lightboxItems (cycleLightbox step lb) = lightboxItems lb /\
    lightboxIndex (cycleLightbox step lb) = next /\
    lightbox_src (cycleLightbox step lb) = Some (l_url item).
Proof.
  intros Hn. cbn zeta. unfold cycleLightbox.
  destruct (Nat.leb_spec (length (lightboxItems lb)) 1) as [|_]; [lia|].
  rewrite bounded_mod by lia.
  pose proof (Z.mod_pos_bound (lightboxIndex lb + step)
                (Z.of_nat (length (lightboxItems lb))) ltac:(lia)) as Hb.
  destruct (lookup_lt_is_Some_2 (lightboxItems lb)
              (Z.to_nat ((lightboxIndex lb + step) mod
                         Z.of_nat (length (lightboxItems lb)))))
    as [item Hitem]; [lia|].
  assert (item_at (lightboxItems lb)
            ((lightboxIndex lb + step) mod
             Z.of_nat (length (lightboxItems lb))) = Some item) as Hat.
  { apply item_at_Some. split; [lia | done]. }
  exists item. split; [done|].
  by destruct (showLightboxItem_Some _ lb item Hat) as (-> & -> & -> & _).
Qed.

(** X17: [cycleLightbox] always lands on an item.  With more than one
    item, whatever [lightboxIndex] holds (even -1, or an index of an
    earlier and longer list) and whatever the step, the new index is
    [(lightboxIndex + step) mod n], an index of [lightboxItems], and the
    picture displayed is the one of that item; with one item or none,
    nothing changes. *)
Theorem cycleLightbox_lands_on_item step lb :
  let n := Z.of_nat (length (lightboxItems lb)) in
  if (length (lightboxItems lb) <=? 1)%nat then cycleLightbox step lb = lb
  else
    lightboxIndex (cycleLightbox step lb) = ((lightboxIndex lb + step) mod n)%Z /\
    (0 <= lightboxIndex (cycleLightbox step lb) < n)%Z /\
    lightbox_src (cycleLightbox step lb) =
      l_url <$> lightboxItems lb !! Z.to_nat (lightboxIndex (cycleLightbox step lb)).
Proof.
  cbn zeta.
  destruct (Nat.leb_spec (length (lightboxItems lb)) 1) as [Hle|Hlt].
  - unfold cycleLightbox. by destruct (Nat.leb_spec (length (lightboxItems lb)) 1);
      [|lia].
  - destruct (cycleLightbox_many step lb Hlt)
      as (item & [Hpos Hitem]%item_at_Some & _ & -> & ->).
    rewrite Hitem. split_and!; try done.
    apply Z.mod_pos_bound. lia.
Qed.

Lemma cycleLightbox_lands_on_item_witness :
  lightboxIndex lightbox_on_three = 2%Z /\
  lightboxIndex (cycleLightbox 1 lightbox_on_three) = 0%Z /\
  lightbox_src (cycleLightbox 1 lightbox_on_three) = Some (ObjectUrl 0).
Proof.
  pose proof (cycleLightbox_lands_on_item 1 lightbox_on_three) as H.
  vm_compute in H. destruct H as (Hidx & _ & Hsrc).
  split; [vm_compute; reflexivity|]. vm_compute. by split.
Defined.

(** X18: next and previous undo each other.  With more than one item and
    [lightboxIndex] on an item, [cycleLightbox(1)] followed by
    [cycleLightbox(-1)], or the other way round, is back on the same
    index with the picture of that item; so is [cycleLightbox(1)]
    repeated as many times as there are items. *)
Theorem cycleLightbox_there_and_back lb item :
  (1 < length (lightboxItems lb))%nat ->
  item_at (lightboxItems lb) (lightboxIndex lb) = Some item ->
  forall lb',
    lb' = cycleLightbox (-1) (cycleLightbox 1 lb) \/
    lb' = cycleLightbox 1 (cycleLightbox (-1) lb) \/
    lb' = Nat.iter (length (lightboxItems lb)) (cycleLightbox 1) lb ->
    lightboxIndex lb' = lightboxIndex lb /\
    lightbox_src lb' = Some (l_url item) /\
    lightboxItems lb' = lightboxItems lb.
Proof.
  intros Hn [Hpos Hitem]%item_at_Some lb' Hlb'.
  set (n := Z.of_nat (length (lightboxItems lb))).
  pose proof (lookup_lt_Some _ _ _ Hitem) as Hlt.
  assert (forall a b lb1,
            lightboxItems lb1 = lightboxItems lb ->
            lightboxIndex lb1 = ((lightboxIndex lb + a) mod n)%Z ->
            lightboxItems (cycleLightbox b lb1) = lightboxItems lb /\
            lightboxIndex (cycleLightbox b lb1) =
              ((lightboxIndex lb + (a + b)) mod n)%Z /\
            lightbox_src (cycleLightbox b lb1) =
              l_url <$> lightboxItems lb !!
                Z.to_nat ((lightboxIndex lb + (a + b)) mod n)) as Hstep.
  { intros a b lb1 Hitems Hidx.
    destruct (cycleLightbox_many b lb1 ltac:(by rewrite Hitems))
      as (it & [_ Hit]%item_at_Some & -> & -> & ->).
    rewrite Hitems, Hidx in Hit |- *. fold n in Hit |- *.
    rewrite Z.add_mod_idemp_l in Hit |- * by lia.
    rewrite <- Z.add_assoc in Hit |- *. by rewrite Hit. }
  assert (lightboxIndex lb = ((lightboxIndex lb + 0) mod n)%Z) as H0.
  { rewrite Z.add_0_r, Z.mod_small; lia. }
  assert (forall lb1,
            lightboxItems lb1 = lightboxItems lb ->
            lightboxIndex lb1 = lightboxIndex lb ->
            lightbox_src lb1 =
              l_url <$> lightboxItems lb !! Z.to_nat (lightboxIndex lb) ->
            lightboxIndex lb1 = lightboxIndex lb /\
            lightbox_src lb1 = Some (l_url item) /\
            lightboxItems lb1 = lightboxItems lb) as Hend.
  { intros lb1 H1 H2 H3. by rewrite H3, Hitem. }
  destruct Hlb' as [-> | [-> | ->]].
  - destruct (Hstep 0%Z 1%Z lb eq_refl H0) as (H1 & H2 & _).
    destruct (Hstep (0 + 1)%Z (-1)%Z _ H1 H2) as (H3 & H4 & H5).
    change (0 + 1 + -1)%Z with 0%Z in H4, H5. rewrite <- H0 in H4, H5.
    by apply Hend.
  - destruct (Hstep 0%Z (-1)%Z lb eq_refl H0) as (H1 & H2 & _).
    destruct (Hstep (0 + -1)%Z 1%Z _ H1 H2) as (H3 & H4 & H5).
    change (0 + -1 + 1)%Z with 0%Z in H4, H5. rewrite <- H0 in H4, H5.
    by apply Hend.
  - assert (forall k, (0 < k)%nat ->
              lightboxItems (Nat.iter k (cycleLightbox 1) lb) = lightboxItems lb /\
              lightboxIndex (Nat.iter k (cycleLightbox 1) lb) =
                ((lightboxIndex lb + Z.of_nat k) mod n)%Z /\
              lightbox_src (Nat.iter k (cycleLightbox 1) lb) =
                l_url <$> lightboxItems lb !!
                  Z.to_nat ((lightboxIndex lb + Z.of_nat k) mod n)) as Hiter.
    { induction k as [|k IH]; [lia|]. intros _.
      destruct k as [|k].
      - apply (Hstep 0%Z 1%Z lb eq_refl H0).
      - destruct (IH ltac:(lia)) as (H1 & H2 & _).
        change (Nat.iter (S (S k)) (cycleLightbox 1) lb)
          with (cycleLightbox 1 (Nat.iter (S k) (cycleLightbox 1) lb)).
        replace (Z.of_nat (S (S k))) with (Z.of_nat (S k) + 1)%Z by lia.
        by apply Hstep. }
    destruct (Hiter (length (lightboxItems lb)) ltac:(lia)) as (H1 & H2 & H3).
    fold n in H2, H3.
    assert (((lightboxIndex lb + n) mod n)%Z = lightboxIndex lb) as Hback.
    { rewrite <- (Z.mul_1_l n) at 1. rewrite Z.mod_add by lia.
      apply Z.mod_small. lia. }
    rewrite Hback in H2, H3. by apply Hend.
Qed.

Lemma cycleLightbox_there_and_back_witness :
  lightboxIndex (cycleLightbox (-1) (cycleLightbox 1 lightbox_on_three)) = 2%Z /\
  lightbox_src (cycleLightbox (-1) (cycleLightbox 1 lightbox_on_three)) =
    Some (ObjectUrl 2).
Proof.
  assert (1 < length (lightboxItems lightbox_on_three))%nat as Hn
    by (vm_compute; lia).
  assert (item_at (lightboxItems lightbox_on_three)
            (lightboxIndex lightbox_on_three) =
            Some (mkItem (ObjectUrl 2) "c.png")) as Hat
    by (vm_compute; reflexivity).
  destruct (cycleLightbox_there_and_back lightbox_on_three _ Hn Hat
              (cycleLightbox (-1) (cycleLightbox 1 lightbox_on_three))
              (or_introl eq_refl)) as (Hidx & Hsrc & _).
  split; [|exact Hsrc]. rewrite Hidx. vm_compute. reflexivity.
Defined.

Lemma filter_lookup_prefix {A} (P : A -> Prop) `{!forall x, Decision (P x)}
    (l : list A) i x :
  Forall P (take (S i) l) -> l !! i = Some x -> filter P l !! i = Some x.
Proof.
  intros Hall Hi. pose proof (lookup_lt_Some _ _ _ Hi) as Hlt.
  rewrite <- (take_drop (S i) l), filter_app.
  assert (filter P (take (S i) l) = take (S i) l) as ->.
  { clear Hi Hlt. induction Hall as [|y k Hy _ IH]; [done|].
    by rewrite filter_cons_True, IH. }
  rewrite lookup_app_l by (rewrite length_take; lia).
  rewrite lookup_take_lt by lia. done.
Qed.

Lemma length_filter_le {A} (P : A -> Prop) `{!forall x, Decision (P x)}
    (l : list A) :
  (length (filter P l) <= length l)%nat.
Proof.
  induction l as [|x l IH]; [done|].
  rewrite filter_cons. destruct (decide (P x)); simpl; lia.
Qed.

(** The list [openLightbox] builds, and the index it starts on, for a
    click on the thumbnail of reference [i]. *)
Lemma openLightbox_reference i g lb :
  openLightbox "references" (Z.of_nat i) g lb =
    let items := buildLightboxItems g in
    let lb1 := mkLightbox items (lightboxIndex lb) (lightbox_src lb)
                 (lightbox_hidden lb) (lightbox_nav_disabled lb) in
    if (length items =? 0)%nat then lb1
    else
      showLightboxItem
        ((if String.eqb (generatedImageDataUrl g) "" then 0 else 1) +
         Z.of_nat i)%Z
        (mkLightbox items (lightboxIndex lb) (lightbox_src lb) false
           (lightbox_nav_disabled lb)).
Proof.
  unfold openLightbox. cbn zeta.
  change (String.eqb "references" "generated") with false. cbn iota.
  destruct (Z.leb_spec 0 (Z.of_nat i)) as [_|]; [|lia].
  by rewrite Z.max_r by lia.
Qed.

(** X19: a double click on the thumbnail of reference [i] opens the
    lightbox on that reference, provided no picture was generated yet or
    none of the references up to [i] carries the name of the generated
    picture. *)
Theorem openLightbox_shows_clicked_reference g lb i item :
  referenceItems g !! i = Some item ->
  generatedImageDataUrl g = "" \/
  Forall (fun r => file_name (r_file r) <> generatedFilename g)
    (take (S i) (referenceItems g)) ->
  let lb' := openLightbox "references" (Z.of_nat i) g lb in
  lightbox_hidden lb' = false /\
  lightbox_src lb' = Some (ObjectUrl (r_url item)) /\
  item_at (lightboxItems lb') (lightboxIndex lb') =
    Some (mkItem (ObjectUrl (r_url item)) (file_name (r_file item))).
Proof.
  intros Hi Hfree. cbn zeta. rewrite openLightbox_reference. cbn zeta.
  pose proof (lookup_lt_Some _ _ _ Hi) as Hlt.
  set (shown := mkItem (ObjectUrl (r_url item)) (file_name (r_file item))).
  assert (item_at (buildLightboxItems g)
            ((if String.eqb (generatedImageDataUrl g) "" then 0 else 1) +
             Z.of_nat i)%Z = Some shown) as Hat.
  { apply item_at_Some. unfold buildLightboxItems.
    destruct (String.eqb_spec (generatedImageDataUrl g) "") as [Hgen|Hgen].
    - split; [lia|].
      replace (Z.to_nat (0 + Z.of_nat i)) with i by lia. simpl.
      by rewrite list_lookup_fmap, Hi.
    - destruct Hfree as [?|Hfree]; [done|]. split; [lia|].
      replace (Z.to_nat (1 + Z.of_nat i)) with (S i) by lia. simpl.
      by rewrite list_lookup_fmap, filter_lookup_prefix with (x := item). }
  assert (length (buildLightboxItems g) <> 0%nat) as Hlen.
  { apply item_at_Some in Hat as [_ Hat%lookup_lt_Some]. lia. }
  destruct (Nat.eqb_spec (length (buildLightboxItems g)) 0) as [|_]; [done|].
  destruct (showLightboxItem_Some _
              (mkLightbox (buildLightboxItems g) (lightboxIndex lb)
                 (lightbox_src lb) false (lightbox_nav_disabled lb))
              shown Hat) as (-> & -> & -> & ->).
  done.
Qed.

Lemma openLightbox_shows_clicked_reference_witness :
  lightbox_src (openLightbox "references" 1 three_references lightbox0) =
    Some (ObjectUrl 1) /\
  lightbox_src (openLightbox "references" 1 after_generation lightbox0) =
    Some (ObjectUrl 1).
Proof.
  assert (referenceItems three_references !! 1%nat =
            Some (mkReference 2 (mkFile "b.png") 1)) as H1
    by (vm_compute; reflexivity).
  assert (referenceItems after_generation !! 1%nat =
            Some (mkReference 2 (mkFile "b.png") 1)) as H2
    by (vm_compute; reflexivity).
  assert (Forall (fun r => file_name (r_file r) <> generatedFilename after_generation)
            (take 2 (referenceItems after_generation))) as Hfree.
  { vm_compute. repeat constructor; discriminate. }
  split.
  - apply (openLightbox_shows_clicked_reference three_references lightbox0
             1 _ H1 (or_introl eq_refl)).
  - apply (openLightbox_shows_clicked_reference after_generation lightbox0
             1 _ H2 (or_intror Hfree)).
Defined.

(** X20: the thumbnail of the picture just generated opens the lightbox
    on nothing.  [generateImage] adds the generated picture to the
    references under [generatedFilename] and selects it; a double click on
    that thumbnail makes the lightbox visible, but [lightboxIndex] and the
    picture displayed stay what they were, since the index computed lies
    beyond the list once the references of that name are filtered out. *)
Theorem generated_thumbnail_opens_nothing g image_data_url filename lb :
  image_data_url <> "" ->
  let g' := generateImage_done image_data_url filename g in
  let i := length (referenceItems g) in
  selectedReferenceIndex g' = Z.of_nat i /\
  (file_name ∘ r_file <$> referenceItems g' !! i) = Some filename /\
  let lb' := openLightbox "references" (Z.of_nat i) g' lb in
  lightbox_hidden lb' = false /\
  lightboxIndex lb' = lightboxIndex lb /\
  lightbox_src lb' = lightbox_src lb /\
  (DataUrl image_data_url) ∈ l_url <$> lightboxItems lb'.
Proof.
  intros Hurl. cbn zeta.
  set (g' := generateImage_done image_data_url filename g).
  assert (referenceItems g' =
            referenceItems g ++
              [mkReference (nextReferenceId g) (mkFile filename) (object_urls g)]
          /\ selectedReferenceIndex g' = Z.of_nat (length (referenceItems g))
          /\ generatedImageDataUrl g' = image_data_url
          /\ generatedFilename g' = filename) as (Hitems & Hsel & Hgen & Hname).
  { unfold g', generateImage_done, addReferenceFiles. simpl.
    rewrite length_app. simpl.
    destruct (Nat.eqb_spec (length (referenceItems g) + 1) 0) as [|_]; [lia|].
    simpl. split_and!; try done. lia. }
  split; [done|]. split.
  { by rewrite Hitems, lookup_app_r, Nat.sub_diag. }
  rewrite openLightbox_reference. cbn zeta.
  assert (buildLightboxItems g' =
            mkItem (DataUrl image_data_url) filename ::
            ((fun item => mkItem (ObjectUrl (r_url item)) (file_name (r_file item)))
               <$> filter (fun item => file_name (r_file item) <> filename)
                     (referenceItems g))) as Hbuild.
  { unfold buildLightboxItems. rewrite Hgen, Hname, Hitems.
    destruct (String.eqb_spec image_data_url "") as [|_]; [done|].
    rewrite filter_app, filter_cons_False, filter_nil, app_nil_r by (simpl; tauto).
    done. }
  rewrite Hbuild, Hgen.
  destruct (String.eqb_spec image_data_url "") as [|_]; [done|].
  simpl length. cbn [Nat.eqb].
  rewrite showLightboxItem_None.
  - simpl. split_and!; try done. left.
  - apply eq_None_not_Some. intros [it [_ Hit%lookup_lt_Some]%item_at_Some].
    simpl in Hit. rewrite length_fmap in Hit.
    pose proof (length_filter_le
                  (fun item => file_name (r_file item) <> filename)
                  (referenceItems g)).
    lia.
Qed.

Lemma generated_thumbnail_opens_nothing_witness :
  selectedReferenceIndex after_generation = 3%Z /\
  lightbox_hidden (openLightbox "references" 3 after_generation lightbox0) = false /\
  lightbox_src (openLightbox "references" 3 after_generation lightbox0) = None /\
  lightboxIndex (openLightbox "references" 3 after_generation lightbox0) = (-1)%Z.
Proof.
  assert ("data:image/png;base64,AAAA" <> "") as Hurl by discriminate.
  destruct (generated_thumbnail_opens_nothing three_references
              "data:image/png;base64,AAAA" "cat.png" lightbox0 Hurl)
    as (Hsel & _ & Hhid & Hidx & Hsrc & _).
  split; [vm_compute; reflexivity|].
  split; [exact Hhid|]. split; [exact Hsrc | exact Hidx].
Defined.

(** ** File names *)

Lemma all_chars_impl (P Q : Ascii.ascii -> bool) s :
  (forall c, P c = true -> Q c = true) ->
  all_chars P s = true -> all_chars Q s = true.
Proof.
  intros HPQ. induction s as [|c r IH]; simpl; [done|].
  intros [Hc Hr]%andb_prop. by rewrite (HPQ c Hc), IH.
Qed.

Lemma all_chars_remove_unless keep s : all_chars keep (remove_unless keep s) = true.
Proof.
  induction s as [|c r IH]; simpl; [done|].
  destruct (keep c) eqn:Hc; simpl; [by rewrite Hc|done].
Qed.

Lemma all_chars_trimStart P s : all_chars P s = true -> all_chars P (trimStart s) = true.
Proof.
  induction s as [|c r IH]; simpl; [done|].
  intros [Hc Hr]%andb_prop. destruct (is_space c); [auto|].
  simpl. by rewrite Hc, Hr.
Qed.

Lemma all_chars_trimEnd P s : all_chars P s = true -> all_chars P (trimEnd s) = true.
Proof.
  induction s as [|c r IH]; simpl; [done|].
  intros [Hc Hr]%andb_prop. specialize (IH Hr).
  destruct (trimEnd r) as [|c' r'].
  - destruct (is_space c); simpl; [done | by rewrite Hc].
  - change (all_chars P (String c (String c' r'))) with
      (P c && all_chars P (String c' r')). by rewrite Hc, IH.
Qed.

Lemma all_chars_trim P s : all_chars P s = true -> all_chars P (trim s) = true.
Proof. intros Hs. by apply all_chars_trimEnd, all_chars_trimStart. Qed.

Lemma is_safe_hyphen : is_safe hyphen = true.
Proof. done. Qed.

Lemma all_chars_collapse_runs b s :
  all_chars is_kept s = true -> all_chars is_safe (collapse_runs b s) = true.
Proof.
  revert b. induction s as [|c r IH]; intros b; simpl; [done|].
  intros [Hc Hr]%andb_prop.
  destruct (is_hyphen c || is_space c) eqn:Hsep.
  - destruct b; simpl; auto.
  - simpl. rewrite IH by done. rewrite andb_true_r.
    unfold is_kept in Hc. unfold is_safe.
    destruct (is_lower c), (is_digit c), (is_hyphen c), (is_space c); done.
Qed.

Lemma single_hyphens_collapse_runs b s :
  single_hyphens b (collapse_runs b s) = true.
Proof.
  revert b. induction s as [|c r IH]; intros b; simpl; [done|].
  destruct (is_hyphen c || is_space c) eqn:Hsep.
  - destruct b; [apply IH|].
    change (single_hyphens false (String hyphen (collapse_runs true r)))
      with (single_hyphens true (collapse_runs true r)). apply IH.
  - apply orb_false_elim in Hsep as [Hh _]. simpl. rewrite Hh. apply IH.
Qed.

Lemma all_chars_slice0 P n s :
  all_chars P s = true -> all_chars P (slice0 n s) = true.
Proof.
  revert s. induction n as [|n IH]; intros [|c r]; simpl; try done.
  intros [Hc Hr]%andb_prop. by rewrite Hc, IH.
Qed.

Lemma single_hyphens_slice0 b n s :
  single_hyphens b s = true -> single_hyphens b (slice0 n s) = true.
Proof.
  revert b s. induction n as [|n IH]; intros b [|c r]; simpl; try done.
  destruct (is_hyphen c).
  - intros [Hb Hr]%andb_prop. by rewrite Hb, IH.
  - apply IH.
Qed.

Lemma length_slice0 n s : (String.length (slice0 n s) <= n)%nat.
Proof.
  revert s. induction n as [|n IH]; intros [|c r]; simpl; try lia.
  specialize (IH r). lia.
Qed.

(** The stem the description gives, before the default is put in. *)
Lemma description_stem_safe description :
  let fallback :=
    slice0 80
      (collapse_runs false
         (trim (remove_unless is_kept (toLowerCase description)))) in
  (String.length fallback <= 80)%nat /\
  all_chars is_safe fallback = true /\
  single_hyphens false fallback = true.
Proof.
  cbn zeta. split_and!.
  - apply length_slice0.
  - apply all_chars_slice0, all_chars_collapse_runs, all_chars_trim,
      all_chars_remove_unless.
  - apply single_hyphens_slice0, single_hyphens_collapse_runs.
Qed.

Lemma str_or_stem_safe fallback :
  (String.length fallback <= 80)%nat ->
  all_chars is_safe fallback = true ->
  single_hyphens false fallback = true ->
  let stem := str_or fallback "generated-image" in
  stem <> "" /\ (String.length stem <= 80)%nat /\
  all_chars is_safe stem = true /\ single_hyphens false stem = true.
Proof.
  intros Hlen Hsafe Hsingle. cbn zeta. unfold str_or.
  destruct (String.eqb_spec fallback "") as [->|Hne].
  - split_and!; [done | simpl; lia | done | done].
  - done.
Qed.

(** X21: the name computed from a description is a safe file name.
    Whatever the description (capitals, punctuation, line breaks, Latin-1
    letters), [fallbackFilenameFromDescription] returns a non-empty stem,
    a dot and the extension, where the stem has at most 80 characters,
    all of them lower-case ASCII letters, digits or hyphens, and never two
    hyphens in a row. *)
Theorem fallback_filename_safe description ext :
  exists stem,
    fallbackFilenameFromDescription description ext = stem +:+ "." +:+ ext /\
    stem <> "" /\ (String.length stem <= 80)%nat /\
    all_chars is_safe stem = true /\ single_hyphens false stem = true.
Proof.
  destruct (description_stem_safe description) as (Hlen & Hsafe & Hsingle).
  eexists. split; [reflexivity|].
  by apply str_or_stem_safe.
Qed.







Lemma str_or_nonempty a b : b <> "" -> str_or a b <> "".
Proof. unfold str_or. by destruct (String.eqb_spec a ""). Qed.

(** [suggestFilename] always returns a stem, a dot and the extension. *)
Lemma suggestFilename_shape outcome description ext :
  exists stem,
    suggestFilename outcome description ext = stem +:+ "." +:+ ext /\
    stem <> "".
Proof.
  assert ("generated-image" <> "") as Hdef by done.
  assert (exists stem,
            suggestFilename_catch description ext = stem +:+ "." +:+ ext /\
            stem <> "") as Hcatch.
  { eexists. split; [reflexivity|]. by apply str_or_nonempty. }
  destruct outcome as [result|e]; [|done]. unfold suggestFilename.
  destruct (prop result "filename") as [filename|]; [|done].
  destruct (js_or filename (JStr "generated-image")); try done.
  eexists. split; [reflexivity|]. by apply str_or_nonempty.
Qed.



Lemma endsWith_app stem suffix : endsWith suffix (stem +:+ suffix) = true.
Proof.
  induction stem as [|c r IH]; simpl.
  - destruct suffix as [|a s]; [done|].
    change (endsWith (String a s) ("" +:+ String a s))
      with (String.eqb (String a s) (String a s) || endsWith (String a s) s).
    by rewrite String.eqb_refl.
  - by rewrite IH, orb_true_r.
Qed.

Lemma endsWith_app_assoc stem ext :
  endsWith ("." +:+ ext) (stem +:+ "." +:+ ext) = true.
Proof. apply (endsWith_app stem ("." +:+ ext)). Qed.

Lemma fileExt_cases activeFormat :
  (activeFormat = "Vector" /\ fileExt activeFormat = "svg") \/
  (activeFormat <> "Vector" /\ fileExt activeFormat = "png").
Proof.
  unfold fileExt. destruct (String.eqb_spec activeFormat "Vector"); auto.
Qed.

(** X24: the name of a generated picture carries the extension of the
    format chosen.  Whether the suggestion arrived in time, arrived late
    or failed, [generatedFilename] ends in [.svg] when the active format
    is Vector and in [.png] otherwise. *)
Theorem generated_filename_extension outcome description activeFormat :
  let ext := fileExt activeFormat in
  let suggested :=
    (fun o => suggestFilename o description ext) <$> outcome in
  endsWith ("." +:+ ext)
    (generatedFilename_of suggested description activeFormat) = true /\
  (ext = "svg" <-> activeFormat = "Vector") /\ (ext = "svg" \/ ext = "png").
Proof.
  cbn zeta. split.
  - unfold generatedFilename_of.
    destruct outcome as [o|]; simpl.
    + destruct (suggestFilename_shape o description (fileExt activeFormat))
        as (stem' & -> & Hne).
      unfold str_or.
      destruct (String.eqb_spec (stem' +:+ "." +:+ fileExt activeFormat) "")
        as [Heq|_].
      * by destruct stem'.
      * apply endsWith_app_assoc.
    + apply endsWith_app_assoc.
  - destruct (fileExt_cases activeFormat) as [[-> ->] | [Hne ->]].
    + split; [done | by left].
    + split; [split; [done | by intros ->] | by right].
Qed.

Lemma generated_filename_extension_witness :
  generatedFilename_of None "A red fox" "Vector" = "a-red-fox.svg" /\
  endsWith ".png"
    (generatedFilename_of
       (Some (suggestFilename (Fulfilled (JObj [("filename", JStr "fox")]))
                "A red fox" "png"))
       "A red fox" "Photo") = true.
Proof.
  split; [vm_compute; reflexivity|].
  apply (generated_filename_extension
           (Some (Fulfilled (JObj [("filename", JStr "fox")])))
           "A red fox" "Photo").
Defined.

Lemma all_chars_app P a b :
  all_chars P (a +:+ b) = all_chars P a && all_chars P b.
Proof.
  induction a as [|c r IH]; simpl; [done|]. by rewrite IH, andb_assoc.
Qed.

Lemma replace_extension_swap repl stem e :
  e <> "" -> all_chars is_word e = true ->
  replace_extension repl (stem +:+ "." +:+ e) = stem +:+ repl.
Proof.
  intros Hne Hword. induction stem as [|c r IH].
  - simpl. change ("" +:+ e) with e. change ("" +:+ repl) with repl.
    rewrite Hword. by destruct (String.eqb_spec e "").
  - change (String c r +:+ "." +:+ e) with (String c (r +:+ "." +:+ e)).
    change (String c r +:+ repl) with (String c (r +:+ repl)).
    cbn [replace_extension]. rewrite IH.
    assert (all_chars is_word (r +:+ "." +:+ e) = false) as ->.
    { rewrite all_chars_app. apply andb_false_iff. by right. }
    by rewrite andb_false_r.
Qed.

Lemma replace_extension_no_dot repl filename :
  all_chars (fun c => negb (charCode c =? 46)%nat) filename = true ->
  replace_extension repl filename = filename.
Proof.
  induction filename as [|c r IH]; simpl; [done|].
  intros [Hc Hr]%andb_prop. apply negb_true_iff in Hc. rewrite Hc. simpl.
  by rewrite IH.
Qed.

(** X25: the download names of a vector picture.  For a file name with an
    extension (a last dot followed by letters, digits or underscores)
    [downloadAsPng] swaps exactly the extension for [.png], and the name
    [downloadAsSvg] uses ends in [.svg], being the name itself when it
    already did; a name without any dot is used as it is, without an
    extension. *)
Theorem download_names stem e :
  e <> "" -> all_chars is_word e = true ->
  downloadAsPng_name (stem +:+ "." +:+ e) = stem +:+ ".png" /\
  endsWith ".svg" (downloadAsSvg_name (stem +:+ "." +:+ e)) = true /\
  downloadAsSvg_name (stem +:+ ".svg") = stem +:+ ".svg" /\
  (all_chars (fun c => negb (charCode c =? 46)%nat) stem = true ->
   downloadAsPng_name stem = stem /\
   (downloadAsSvg_name stem = stem)).
Proof.
  intros Hne Hword. unfold downloadAsPng_name, downloadAsSvg_name.
  split_and!.
  - by apply replace_extension_swap.
  - destruct (endsWith ".svg" (stem +:+ "." +:+ e)) eqn:Hends; [done|].
    rewrite replace_extension_swap by done. apply endsWith_app.
  - by rewrite (endsWith_app stem ".svg").
  - intros Hdot. rewrite !replace_extension_no_dot by done.
    split; [done|]. by destruct (endsWith ".svg" stem).
Qed.

Lemma download_names_witness :
  downloadAsPng_name "a-red-fox.svg" = "a-red-fox.png" /\
  downloadAsPng_name (fallbackFilenameFromDescription "v1.2 logo" "svg") =
    "v12-logo.png".
Proof.
  assert ("svg" <> "") as Hne by discriminate.
  destruct (download_names "a-red-fox" "svg" Hne eq_refl) as (H1 & _).
  destruct (download_names "v12-logo" "svg" Hne eq_refl) as (H2 & _).
  split; [exact H1 | exact H2].
Defined.

(** ** The component and the document *)

Lemma find_app {A} (f : A -> bool) (l k : list A) :
  find f (l ++ k) =
    match find f l with
    | Some x => Some x
    | None => find f k
    end.
Proof. induction l as [|x l IH]; simpl; [done|]. by destruct (f x). Qed.

Lemma find_None_existsb {A} (f : A -> bool) (l : list A) :
  find f l = None <-> existsb f l = false.
Proof.
  induction l as [|x l IH]; simpl; [done|]. destruct (f x); simpl; [|done].
  split; discriminate.
Qed.

Lemma existsb_strip f l : content_blind f -> existsb f (strip <$> l) = existsb f l.
Proof.
  intros Hf. induction l as [|e l IH]; [done|].
  rewrite fmap_cons. cbn [existsb]. by rewrite Hf, IH.
Qed.

Lemma blind_is_meta name : content_blind (is_meta name).
Proof. by intros []. Qed.

Lemma blind_is_link href : content_blind (is_link href).
Proof. by intros []. Qed.

Lemma blind_is_script src : content_blind (is_script src).
Proof. by intros []. Qed.

Lemma has_shape f doc doc' :
  content_blind f -> shape doc' = shape doc -> has f doc -> has f doc'.
Proof.
  unfold has, shape, elements. intros Hf [= Hh Hb].
  rewrite <- (existsb_strip f (doc_head doc' ++ doc_body doc')) by done.
  rewrite <- (existsb_strip f (doc_head doc ++ doc_body doc)) by done.
  by rewrite !fmap_app, Hh, Hb.
Qed.

Lemma set_content_None name content l :
  set_content name content l = None <-> existsb (is_meta name) l = false.
Proof.
  induction l as [|e l IH]; simpl; [done|].
  destruct (is_meta name e); simpl; [split; discriminate|].
  rewrite <- IH. by destruct (set_content name content l).
Qed.

Lemma set_content_Some name content l l' :
  set_content name content l = Some l' ->
  strip <$> l' = strip <$> l /\
  find (is_meta name) l' = Some (MetaEl name content).
Proof.
  revert l'. induction l as [|e l IH]; intros l'; simpl; [done|].
  destruct (is_meta name e) eqn:He.
  - intros [= <-]. rewrite !fmap_cons. cbn [find is_meta strip].
    rewrite bool_decide_eq_true_2 by done.
    split; [|done]. destruct e; try done. simpl in He.
    apply bool_decide_eq_true in He. by subst.
  - destruct (set_content name content l) as [l0|]; [|done].
    intros [= <-]. destruct (IH l0 eq_refl) as [Hs Hf].
    rewrite !fmap_cons. cbn [find]. by rewrite He, Hs.
Qed.

(** [_setMeta] changes contents only, unless it has to add the element;
    afterwards the first [meta] of that name holds the value as a
    string. *)
Lemma _setMeta_effect name content doc :
  (shape (_setMeta name content doc) =
     if existsb (is_meta name) (elements doc) then shape doc
     else (strip <$> (doc_head doc ++ [MetaEl name ""]), strip <$> doc_body doc)) /\
  meta_content name (_setMeta name content doc) = Some (ToString content).
Proof.
  unfold _setMeta, meta_content, shape, elements. rewrite existsb_app.
  destruct (set_content name (ToString content) (doc_head doc)) as [h|] eqn:Hh.
  - destruct (set_content_Some _ _ _ _ Hh) as [Hs Hf]. simpl.
    rewrite find_app, Hf, Hs.
    assert (existsb (is_meta name) (doc_head doc) = true) as ->; [|done].
    destruct (existsb (is_meta name) (doc_head doc)) eqn:Hex; [done|].
    apply set_content_None with (content := ToString content) in Hex.
    congruence.
  - pose proof (proj1 (set_content_None _ _ _) Hh) as Hex. rewrite Hex.
    pose proof (proj2 (find_None_existsb _ _) Hex) as Hfind.
    destruct (set_content name (ToString content) (doc_body doc)) as [b|] eqn:Hb.
    + destruct (set_content_Some _ _ _ _ Hb) as [Hs Hf]. simpl.
      rewrite find_app, Hfind, Hf, Hs.
      assert (existsb (is_meta name) (doc_body doc) = true) as ->; [|done].
      destruct (existsb (is_meta name) (doc_body doc)) eqn:Hex'; [done|].
      apply set_content_None with (content := ToString content) in Hex'.
      congruence.
    + pose proof (proj1 (set_content_None _ _ _) Hb) as Hex'. rewrite Hex'.
      simpl. rewrite !find_app, Hfind. simpl.
      rewrite bool_decide_eq_true_2 by done. split; [|done].
      by rewrite !fmap_app.
Qed.

Lemma meta_content_shape_other name name' content doc :
  name' <> name ->
  meta_content name' (_setMeta name content doc) = meta_content name' doc.
Proof.
  intros Hne.
  assert (forall l l', set_content name (ToString content) l = Some l' ->
            forall k, find (is_meta name') (l' ++ k) = find (is_meta name') (l ++ k))
    as Hset.
  { induction l as [|e l IH]; intros l'; simpl; [done|].
    destruct (is_meta name e) eqn:He.
    - intros [= <-] k. simpl. rewrite bool_decide_eq_false_2 by done.
      destruct e; try done. simpl in He. apply bool_decide_eq_true in He.
      subst. simpl. by rewrite bool_decide_eq_false_2 by done.
    - destruct (set_content name (ToString content) l) as [l0|]; [|done].
      intros [= <-] k. simpl. by rewrite (IH l0 eq_refl k). }
  unfold _setMeta, meta_content, elements.
  destruct (set_content name (ToString content) (doc_head doc)) as [h|] eqn:Hh.
  - simpl. by rewrite (Hset _ _ Hh).
  - destruct (set_content name (ToString content) (doc_body doc)) as [b|] eqn:Hb.
    + simpl. rewrite !find_app. pose proof (Hset _ _ Hb []) as Hb'.
      rewrite !app_nil_r in Hb'. by rewrite Hb'.
    + simpl. rewrite !find_app. simpl.
      rewrite bool_decide_eq_false_2 by done.
      by destruct (find (is_meta name') (doc_head doc)).
Qed.

Lemma _loadCSS_effect href doc :
  has (is_link href) (_loadCSS href doc) /\
  (has (is_link href) doc -> _loadCSS href doc = doc) /\
  (forall f, has f doc -> has f (_loadCSS href doc)) /\
  (forall name, meta_content name (_loadCSS href doc) = meta_content name doc).
Proof.
  unfold _loadCSS, has, meta_content, elements.
  destruct (existsb (is_link href) (doc_head doc ++ doc_body doc)) eqn:Hex.
  - done.
  - simpl. split_and!.
    + rewrite !existsb_app. simpl. rewrite bool_decide_eq_true_2 by done.
      by rewrite !orb_true_r.
    + done.
    + intros f. rewrite !existsb_app. intros [->| ->]%orb_prop; [done|].
      by rewrite !orb_true_r.
    + intros name. rewrite !find_app. simpl.
      by destruct (find (is_meta name) (doc_head doc)).
Qed.

Lemma _ensureScript_effect src doc :
  has (is_script src) (_ensureScript src doc) /\
  (has (is_script src) doc -> _ensureScript src doc = doc) /\
  (forall f, has f doc -> has f (_ensureScript src doc)) /\
  (forall name, meta_content name (_ensureScript src doc) = meta_content name doc).
Proof.
  unfold _ensureScript, has, meta_content, elements.
  destruct (existsb (is_script src) (doc_head doc ++ doc_body doc)) eqn:Hex.
  - done.
  - simpl. split_and!.
    + rewrite !existsb_app. simpl. rewrite bool_decide_eq_true_2 by done.
      by rewrite !orb_true_r.
    + done.
    + intros f. rewrite !existsb_app. intros [->| ->]%orb_prop; [done|].
      by rewrite !orb_true_r.
    + intros name. rewrite !find_app. simpl.
      destruct (find (is_meta name) (doc_head doc)); [done|].
      by destruct (find (is_meta name) (doc_body doc)).
Qed.

Lemma _setMeta_has name content doc :
  has (is_meta name) (_setMeta name content doc) /\
  (forall f, content_blind f -> has f doc -> has f (_setMeta name content doc)).
Proof.
  destruct (_setMeta_effect name content doc) as [Hshape Hmeta]. split.
  - unfold meta_content in Hmeta. unfold has.
    destruct (existsb (is_meta name) (elements (_setMeta name content doc)))
      eqn:Hex; [done|].
    apply find_None_existsb in Hex. by rewrite Hex in Hmeta.
  - intros f Hf Hhas.
    destruct (existsb (is_meta name) (elements doc)) eqn:Hex.
    + by apply (has_shape f doc).
    + unfold has, elements in *.
      rewrite <- existsb_strip by done. rewrite fmap_app.
      injection Hshape as -> ->.
      rewrite <- fmap_app, existsb_strip by done.
      rewrite <- app_assoc, existsb_app.
      rewrite existsb_app in Hhas. apply orb_prop in Hhas as [->| Hb]; [done|].
      simpl. by rewrite Hb, !orb_true_r.
Qed.

(** What [mounted] leaves in the three [meta] elements. *)
Lemma mounted_metas props doc :
  meta_content "bs-token" (mounted props doc) = Some (ToString (token props)) /\
  meta_content "bs-lang" (mounted props doc) = Some (ToString (lang props)) /\
  meta_content "bs-lang-fallback" (mounted props doc) =
    Some (ToString (fallback props)).
Proof.
  unfold mounted. cbn zeta.
  set (d2 := _loadCSS "/static/fonts/phosphor/style.css"
               (_loadCSS "/static/styles.css" doc)).
  set (d3 := _setMeta "bs-token" (token props) d2).
  set (d4 := _setMeta "bs-lang" (lang props) d3).
  set (d5 := _setMeta "bs-lang-fallback" (fallback props) d4).
  assert (forall name,
            meta_content name
              (_ensureScript "/static/app.js"
                 (_ensureScript "/static/i18n.js" d5)) =
            meta_content name d5) as Hscripts.
  { intros name.
    destruct (_ensureScript_effect "/static/app.js"
                (_ensureScript "/static/i18n.js" d5)) as (_ & _ & _ & ->).
    by destruct (_ensureScript_effect "/static/i18n.js" d5) as (_ & _ & _ & ->). }
  rewrite !Hscripts. unfold d5, d4, d3. split_and!.
  - rewrite !meta_content_shape_other by done.
    by destruct (_setMeta_effect "bs-token" (token props) d2) as [_ ->].
  - rewrite meta_content_shape_other by done.
    by destruct (_setMeta_effect "bs-lang" (lang props)
                   (_setMeta "bs-token" (token props) d2)) as [_ ->].
  - by destruct (_setMeta_effect "bs-lang-fallback" (fallback props)
                   (_setMeta "bs-lang" (lang props)
                      (_setMeta "bs-token" (token props) d2))) as [_ ->].
Qed.

(** X26: the token given to the component is the token of the first
    connection.  Whatever the document held before (no [meta] element, an
    older token from the server), after [mounted] the [bs-token] element
    holds the [token] property as a string, and the WebSocket manager
    started on that page connects with it, whatever [sessionStorage]
    holds; only when the property is the empty string does the cached
    token count.  A property left out arrives as the string
    ['undefined']. *)
Theorem mounted_token_reaches_connection props doc protocol host stored :
  let pg := page_of protocol host (mounted props doc) in
  let tok := ToString (token props) in
  meta_bs_token pg = Some tok /\
  connect_url (init pg stored) =
    Some (ws_base pg +:+
          (if String.eqb tok "" then
             match stored with
             | Some s => if String.eqb s "" then "" else "?token=" +:+ s
             | None => ""
             end
           else "?token=" +:+ tok)).
Proof.
  cbn zeta. destruct (mounted_metas props doc) as (Htok & _).
  unfold page_of. rewrite Htok. split; [done|].
  rewrite connect_url_closed by done.
  unfold ws_url, js_or, _getInitialToken. simpl.
  destruct (String.eqb (ToString (token props)) "") eqn:Heq; simpl.
  - destruct stored as [s|]; simpl; [|done]. by destruct (String.eqb s "").
  - by rewrite Heq.
Qed.

Lemma mounted_token_reaches_connection_witness :
  connect_url
    (init (page_of "https:" "example.test"
             (mounted (mkProps (JStr "abc") (JStr "de") (JStr "en"))
                served_document)) (Some "stale")) =
    Some "wss://example.test/ws?token=abc" /\
  connect_url
    (init (page_of "https:" "example.test"
             (mounted (mkProps JUndefined (JStr "en") (JStr "en"))
                empty_document)) (Some "cached")) =
    Some "wss://example.test/ws?token=undefined".
Proof.
  split.
  - apply (mounted_token_reaches_connection
             (mkProps (JStr "abc") (JStr "de") (JStr "en")) served_document
             "https:" "example.test" (Some "stale")).
  - apply (mounted_token_reaches_connection
             (mkProps JUndefined (JStr "en") (JStr "en")) empty_document
             "https:" "example.test" (Some "cached")).
Defined.

Lemma mounted_installed props doc : widget_installed (mounted props doc).
Proof.
  unfold mounted, widget_installed. cbn zeta.
  set (d1 := _loadCSS "/static/styles.css" doc).
  set (d2 := _loadCSS "/static/fonts/phosphor/style.css" d1).
  set (d3 := _setMeta "bs-token" (token props) d2).
  set (d4 := _setMeta "bs-lang" (lang props) d3).
  set (d5 := _setMeta "bs-lang-fallback" (fallback props) d4).
  set (d6 := _ensureScript "/static/i18n.js" d5).
  set (d7 := _ensureScript "/static/app.js" d6).
  destruct (_loadCSS_effect "/static/styles.css" doc) as (H1 & _).
  destruct (_loadCSS_effect "/static/fonts/phosphor/style.css" d1)
    as (H2 & _ & K2 & _).
  destruct (_setMeta_has "bs-token" (token props) d2) as (H3 & K3).
  destruct (_setMeta_has "bs-lang" (lang props) d3) as (H4 & K4).
  destruct (_setMeta_has "bs-lang-fallback" (fallback props) d4) as (H5 & K5).
  destruct (_ensureScript_effect "/static/i18n.js" d5) as (H6 & _ & K6 & _).
  destruct (_ensureScript_effect "/static/app.js" d6) as (H7 & _ & K7 & _).
  fold d1 in H1, K2. fold d2 in H2, K2, K3, H3. fold d3 in H3, K3, K4, H4.
  fold d4 in H4, K4, K5, H5. fold d5 in H5, K5, K6, H6. fold d6 in H6, K6, K7, H7.
  fold d7 in H7, K7.
  pose proof blind_is_link as Bl. pose proof blind_is_meta as Bm.
  split_and!.
  - apply K7, K6, K5, K4, K3, K2; auto.
  - apply K7, K6, K5, K4, K3; auto.
  - apply K7, K6, K5, K4; auto.
  - apply K7, K6, K5; auto.
  - apply K7, K6; auto.
  - by apply K7.
  - done.
Qed.

Lemma mounted_shape props doc :
  widget_installed doc -> shape (mounted props doc) = shape doc.
Proof.
  intros (H1 & H2 & H3 & H4 & H5 & H6 & H7). unfold mounted. cbn zeta.
  assert (_loadCSS "/static/styles.css" doc = doc) as E1
    by by apply _loadCSS_effect.
  assert (_loadCSS "/static/fonts/phosphor/style.css" doc = doc) as E2
    by by apply _loadCSS_effect.
  rewrite E1, E2.
  set (d3 := _setMeta "bs-token" (token props) doc).
  set (d4 := _setMeta "bs-lang" (lang props) d3).
  set (d5 := _setMeta "bs-lang-fallback" (fallback props) d4).
  assert (shape d3 = shape doc) as S3.
  { destruct (_setMeta_effect "bs-token" (token props) doc) as [E _].
    unfold has in H3. rewrite H3 in E. exact E. }
  assert (shape d4 = shape doc) as S4.
  { destruct (_setMeta_effect "bs-lang" (lang props) d3) as [E _].
    pose proof (has_shape _ doc d3 (blind_is_meta "bs-lang") S3 H4) as H4'.
    unfold has in H4'. rewrite H4' in E. exact (eq_trans E S3). }
  assert (shape d5 = shape doc) as S5.
  { destruct (_setMeta_effect "bs-lang-fallback" (fallback props) d4) as [E _].
    pose proof (has_shape _ doc d4 (blind_is_meta "bs-lang-fallback") S4 H5)
      as H5'.
    unfold has in H5'. rewrite H5' in E. exact (eq_trans E S4). }
  assert (_ensureScript "/static/i18n.js" d5 = d5) as E6.
  { apply _ensureScript_effect.
    by apply (has_shape _ doc d5 (blind_is_script _) S5). }
  assert (_ensureScript "/static/app.js" d5 = d5) as E7.
  { apply _ensureScript_effect.
    by apply (has_shape _ doc d5 (blind_is_script _) S5). }
  by rewrite E6, E7.
Qed.

Lemma shape_length doc doc' :
  shape doc' = shape doc -> length (elements doc') = length (elements doc).
Proof.
  unfold shape, elements. intros Hshape.
  apply pair_equal_spec in Hshape as [Hh Hb].
  apply (f_equal length) in Hh, Hb. rewrite !length_fmap in Hh, Hb.
  rewrite !length_app. lia.
Qed.

(** X27: mounting the component again adds nothing.  After a first
    [mounted] both style sheets, the three [meta] elements and both
    scripts are in the document; a second [mounted], with whatever
    properties, leaves the elements of the head and of the body as they
    are, in number and order, and only puts its own values into the three
    [meta] elements. *)
Theorem mounted_again_adds_nothing props1 props2 doc :
  let d1 := mounted props1 doc in
  let d2 := mounted props2 d1 in
  widget_installed d1 /\
  shape d2 = shape d1 /\
  length (elements d2) = length (elements d1) /\
  meta_content "bs-token" d2 = Some (ToString (token props2)) /\
  meta_content "bs-lang" d2 = Some (ToString (lang props2)) /\
  meta_content "bs-lang-fallback" d2 = Some (ToString (fallback props2)).
Proof.
  intros d1 d2.
  pose proof (mounted_installed props1 doc) as Hinst. fold d1 in Hinst.
  pose proof (mounted_shape props2 d1 Hinst) as Hshape. fold d2 in Hshape.
  destruct (mounted_metas props2 d1) as (Ht & Hl & Hf). fold d2 in Ht, Hl, Hf.
  clearbody d2. clearbody d1.
  split; [exact Hinst|]. split; [exact Hshape|].
  split; [|split; [exact Ht | split; [exact Hl | exact Hf]]].
  apply shape_length. exact Hshape.
Qed.

Lemma mounted_again_adds_nothing_witness :
  elements (mounted (mkProps (JStr "t2") (JStr "fr") (JStr "en"))
              (mounted (mkProps (JStr "t1") (JStr "de") (JStr "en"))
                 served_document)) =
    [MetaEl "viewport" "width=device-width"; MetaEl "bs-token" "t2";
     LinkEl "stylesheet" "/static/styles.css";
     LinkEl "stylesheet" "/static/fonts/phosphor/style.css";
     MetaEl "bs-lang" "fr"; MetaEl "bs-lang-fallback" "en";
     OtherEl; ScriptEl "/static/i18n.js"; ScriptEl "/static/app.js"] /\
  length (elements (mounted (mkProps (JStr "t2") (JStr "fr") (JStr "en"))
                      (mounted (mkProps (JStr "t1") (JStr "de") (JStr "en"))
                         served_document))) =
    length (elements (mounted (mkProps (JStr "t1") (JStr "de") (JStr "en"))
                        served_document)).
Proof.
  split; [vm_compute; reflexivity|].
  apply (mounted_again_adds_nothing
           (mkProps (JStr "t1") (JStr "de") (JStr "en"))
           (mkProps (JStr "t2") (JStr "fr") (JStr "en")) served_document).
Defined.



